(** * Pynguin: the type-directed statement factory and variable references

    A shallow embedding of [pynguin/testcase/testfactory.py] and
    [pynguin/testcase/variablereference.py].  Python objects that are
    mutated in place (the test case, the random number generator, the
    allocator of fresh objects) are threaded through a state-and-exception
    monad; exceptions leave the mutations made so far in place, exactly as
    in Python. *)

From Stdlib Require Import ZArith QArith Lia.
From stdpp Require Import base option list gmap strings.

Local Open Scope Z_scope.

(** * Python types and type annotations *)

(** A Python class object.  The four primitive classes are singled out,
    [NoneType] is [type(None)], every other class is [Class n]. *)
Inductive pytype :=
  | py_int
  | py_float
  | py_bool
  | py_str
  | NoneType
  | Class (name : nat).

(** A parameter annotation, [Optional[Type]] in the source: [NoType] is
    Python's [None] (no declared type), [Union] is [typing.Union[...]],
    whose arguments [typing] keeps flat, so the arms are classes. *)
Inductive ptype :=
  | NoType
  | Concrete (t : pytype)
  | Union (arms : list pytype).

#[global] Instance pytype_eq_dec : EqDecision pytype.
Proof. solve_decision. Defined.

#[global] Instance ptype_eq_dec : EqDecision ptype.
Proof. solve_decision. Defined.

(** [typing_inspect.is_union_type] and [typing_inspect.get_args]. *)
Definition is_union_type (t : ptype) : bool :=
  match t with Union _ => true | _ => false end.

Definition get_args (t : ptype) : list pytype :=
  match t with Union arms => arms | _ => [] end.

(** Truth value of an annotation: [None] is falsy, every class object and
    every [Union] object is truthy. *)
Definition truthy_type (t : ptype) : bool :=
  match t with NoType => false | _ => true end.

(** [isinstance(parameter_type, type(None))]. *)
Definition is_none_value (t : ptype) : bool :=
  match t with NoType => true | _ => false end.

(** Modelled from the spec: [pynguin.utils.type_utils.PRIMITIVES], "the
    fixed set of primitive types {int, float, bool, string}". *)
Definition PRIMITIVES : list ptype :=
  [Concrete py_int; Concrete py_float; Concrete py_bool; Concrete py_str].

(** Modelled from the spec: [pynguin.utils.type_utils.is_primitive_type],
    membership in [PRIMITIVES]. *)
Definition is_primitive_type (t : ptype) : bool :=
  bool_decide (t ∈ PRIMITIVES).

(** * Accessible objects ([genericaccessibleobject.py]) *)

(** Modelled from the spec: the inferred signature of a callable, "an
    ordered mapping from parameter name to Parameter Type" and a return
    type.  The dictionary is kept as the list of its items, in insertion
    order, which is the order [items()] iterates in. *)
Record InferredSignature := mkInferredSignature {
  parameters : list (string * ptype);
  return_type : ptype
}.

(** Modelled from the spec: the four variants of a generic accessible
    object, each with its declaring (owner) class; [GOther] stands for any
    other subclass of [GenericAccessibleObject]. *)
Record GenericConstructor := mkGenericConstructor {
  constructor_owner : pytype;
  constructor_signature : InferredSignature
}.

Record GenericMethod := mkGenericMethod {
  method_owner : pytype;
  method_name : string;
  method_signature : InferredSignature
}.

Record GenericFunction := mkGenericFunction {
  function_name : string;
  function_signature : InferredSignature
}.

Record GenericField := mkGenericField {
  field_owner : pytype;
  field_name : string;
  field_type : ptype
}.

Inductive GenericAccessibleObject :=
  | GConstructor (c : GenericConstructor)
  | GMethod (m : GenericMethod)
  | GFunction (f : GenericFunction)
  | GField (f : GenericField)
  | GOther.

(** * Python exceptions and outcomes *)

Inductive exn :=
  | ConstructionFailedException (msg : cf_message)
  | AssertionError
  | KeyError
  | IndexError
  | PlainException
with cf_message :=
  | MaxRecursionDepthReached
  | FailedToAddConstructor (constructor : GenericConstructor) (cause : exn)
  | FailedToCreateVariable (parameter_type : ptype) (position : Z)
  | NoObjectsForType (parameter_type : ptype)
  | UnknownStatementType.

(** The result of running a piece of Python: a value, a raised exception,
    or an exhausted recursion budget of the model. *)
Inductive outcome (A : Type) :=
  | Returns (a : A)
  | Raises (e : exn)
  | OutOfFuel.
Arguments Returns {A} a.
Arguments Raises {A} e.
Arguments OutOfFuel {A}.

(** * Variable references ([variablereference.py]) *)

(** A [VariableReference] object.  [vr_id] is the identity of the Python
    object: the class defines neither [__eq__] nor [__hash__], so [==] and
    dictionary lookup go by identity. *)
Record VariableReference := mkVariableReference {
  vr_id : nat;
  _variable_type : ptype;
  _distance : Z
}.

#[global] Instance VariableReference_eq_dec : EqDecision VariableReference.
Proof. solve_decision. Defined.

(** Python's [==] on two variable references. *)
Definition vr_eqb (a b : VariableReference) : bool :=
  Nat.eqb (vr_id a) (vr_id b).

(** Python's [==] on two annotations.  [None] equals only itself and class
    objects compare by identity; [typing.Union] compares the sets of its
    arguments, so neither the order of the arms nor a repeated arm
    matters; a [Union] equals neither a class nor [None]. *)
Definition type_eqb (a b : ptype) : bool :=
  match a, b with
  | NoType, NoType => true
  | Concrete x, Concrete y => bool_decide (x = y)
  | Union xs, Union ys =>
      forallb (fun x => bool_decide (x ∈ ys)) xs
      && forallb (fun y => bool_decide (y ∈ xs)) ys
  | _, _ => false
  end.

(** An arbitrary Python value, as far as [structural_eq] looks at it. *)
Inductive pyvalue :=
  | PyRef (r : VariableReference)
  | PyNone
  | PyInt (z : Z)
  | PyStr (s : string).

Module VariableReferenceImpl.

(** [memo[self]]: a dictionary keyed by object identity; a missing key
    raises [KeyError]. *)
Definition memo_get (memo : gmap nat VariableReference)
    (self : VariableReference) : outcome VariableReference :=
  match memo !! vr_id self with
  | Some r => Returns r
  | None => Raises KeyError
  end.

Definition clone (self : VariableReference)
    (memo : gmap nat VariableReference) : outcome VariableReference :=
  memo_get memo self.

(** [structural_eq]: anything but a variable reference is unequal; the
    recorded types are compared with [==], and [and] evaluates
    [memo[self]] only when they are equal. *)
Definition structural_eq (self : VariableReference) (other : pyvalue)
    (memo : gmap nat VariableReference) : outcome bool :=
  match other with
  | PyRef other =>
      if type_eqb (_variable_type self) (_variable_type other)
      then match memo_get memo self with
           | Returns r => Returns (vr_eqb r other)
           | Raises e => Raises e
           | OutOfFuel => OutOfFuel
           end
      else Returns false
  | _ => Returns false
  end.

(** The remap sends [left] to the very object [right]. *)
Definition remaps_to (memo : gmap nat VariableReference)
    (left right : VariableReference) : Prop :=
  exists r, memo !! vr_id left = Some r /\ vr_id r = vr_id right.

End VariableReferenceImpl.

(** * Statements and the test case *)

(** Modelled from the spec: the statement variants of
    [pynguin.testcase.statements].  A method statement owns its callee, a
    field statement its source; a primitive statement carries its literal
    value, kept as the raw random draw it was made from. *)
Inductive StatementKind :=
  | ConstructorStatement (constructor : GenericConstructor)
  | MethodStatement (method : GenericMethod) (callee : VariableReference)
  | FunctionStatement (function : GenericFunction)
  | FieldStatement (field : GenericField) (source : VariableReference)
  | IntPrimitiveStatement (value : N)
  | FloatPrimitiveStatement (value : N)
  | BooleanPrimitiveStatement (value : N)
  | StringPrimitiveStatement (value : N)
  | NoneStatement.

Record Statement := mkStatement {
  kind : StatementKind;
  ret_val : VariableReference;
  args : list VariableReference
}.

(** Every variable reference a statement owns. *)
Definition owned_references (st : Statement) : list VariableReference :=
  match kind st with
  | MethodStatement _ callee => callee :: args st
  | FieldStatement _ source => source :: args st
  | _ => args st
  end.

(** The mutable world of one construction request: the statements of the
    test case, the allocator of fresh object identities, and the draws the
    random number generator has still to give. *)
Record World := mkWorld {
  statements : list Statement;
  next_id : nat;
  rng : nat -> N
}.

Definition M (A : Type) : Type := World -> outcome A * World.

Definition ret {A} (a : A) : M A := fun w => (Returns a, w).

Definition raise {A} (e : exn) : M A := fun w => (Raises e, w).

Definition out_of_fuel {A} : M A := fun w => (OutOfFuel, w).

Definition bind {A B} (m : M A) (k : A -> M B) : M B :=
  fun w =>
    match m w with
    | (Returns a, w1) => k a w1
    | (Raises e, w1) => (Raises e, w1)
    | (OutOfFuel, w1) => (OutOfFuel, w1)
    end.

(** [try: m except BaseException as e: handler e]. *)
Definition try_except {A} (m : M A) (handler : exn -> M A) : M A :=
  fun w =>
    match m w with
    | (Raises e, w1) => handler e w1
    | r => r
    end.

Declare Scope py_scope.
Delimit Scope py_scope with py.
Notation "x <- m ;; k" := (bind m (fun x => k))
  (at level 100, m at next level, right associativity) : py_scope.
Local Open Scope py_scope.

(** ** Randomness ([pynguin.utils.randomness]) *)

(** Modelled from the spec: the seedable random source; one raw draw of
    the generator. *)
Definition draw : M N :=
  fun w =>
    (Returns (rng w 0%nat),
     mkWorld (statements w) (next_id w) (fun i => rng w (S i))).

(** Modelled from the spec: [next_float() -> [0,1)].  As in CPython the
    float is a multiple of 2^-53; it is kept as the exact rational. *)
Definition next_float : M Q :=
  r <- draw ;;
  ret (Qmake (Z.of_N (r mod 2 ^ 53)) (2 ^ 53)).

(** Modelled from the spec: [choice(sequence) -> element]; an empty
    sequence raises [IndexError]. *)
Definition choice {A} (seq : list A) : M A :=
  match seq with
  | [] => raise IndexError
  | _ =>
      r <- draw ;;
      match seq !! N.to_nat (r mod N.of_nat (length seq)) with
      | Some x => ret x
      | None => raise IndexError
      end
  end.

(** ** The test case ([pynguin.testcase.testcase]) *)

(** Modelled from the spec: [size() -> int]. *)
Definition size : M Z :=
  fun w => (Returns (Z.of_nat (length (statements w))), w).

(** Python's [list.insert(position, x)]. *)
Definition list_insert_py {A} (position : Z) (x : A) (l : list A) : list A :=
  let len := Z.of_nat (length l) in
  let i := if position <? 0 then Z.max 0 (len + position)
           else Z.min position len in
  take (Z.to_nat i) l ++ x :: drop (Z.to_nat i) l.

(** Python's [l[:position]]. *)
Definition slice_to {A} (position : Z) (l : list A) : list A :=
  if position <? 0 then take (Z.to_nat (Z.of_nat (length l) + position)) l
  else take (Z.to_nat position) l.

(** Modelled from the spec: [add_statement(statement, position=end)]
    "inserts, shifting later statements' positions" and returns the
    statement's variable reference; the default position [-1] appends. *)
Definition add_statement (statement : Statement) (position : Z)
    : M VariableReference :=
  fun w =>
    (Returns (ret_val statement),
     mkWorld (if position =? -1 then statements w ++ [statement]
              else list_insert_py position statement (statements w))
             (next_id w) (rng w)).

(** Modelled from the spec: [get_statement(position)] "fails if position
    out of [0, size())", with the assertion the tests expect. *)
Definition get_statement (position : Z) : M Statement :=
  fun w =>
    if (0 <=? position) && (position <? Z.of_nat (length (statements w)))
    then match statements w !! Z.to_nat position with
         | Some st => (Returns st, w)
         | None => (Raises AssertionError, w)
         end
    else (Raises AssertionError, w).

(** Modelled from the spec: [get_objects(type_or_none, position)] gives
    "all variables visible (defined at a position < given position) whose
    recorded type matches; type=None yields an empty list". *)
Definition get_objects (parameter_type : ptype) (position : Z)
    : M (list VariableReference) :=
  fun w =>
    (Returns
       (if truthy_type parameter_type
        then filter (fun v => _variable_type v = parameter_type)
                    (map ret_val (take (Z.to_nat position) (statements w)))
        else []),
     w).

(** Modelled from the spec: [test_case.statements[:position]], the
    statements before a position. *)
Definition statements_before (position : Z) : M (list Statement) :=
  fun w => (Returns (slice_to position (statements w)), w).

(** [VariableReferenceImpl.get_statement_position]: the index of the first
    statement whose return value is [self]. *)
Fixpoint find_position (self : VariableReference) (l : list Statement)
    (idx : nat) : outcome nat :=
  match l with
  | [] => Raises PlainException
  | stmt :: rest =>
      if vr_eqb (ret_val stmt) self then Returns idx
      else find_position self rest (S idx)
  end.

Definition get_statement_position (self : VariableReference)
    (test_case : list Statement) : outcome nat :=
  find_position self test_case 0%nat.

(** ** Building statements *)

(** A new [VariableReferenceImpl(test_case, variable_type)]: a fresh
    object, with distance 0. *)
Definition new_reference (variable_type : ptype) : M VariableReference :=
  fun w =>
    (Returns (mkVariableReference (next_id w) variable_type 0),
     mkWorld (statements w) (S (next_id w)) (rng w)).

(** [reference.distance = distance]: the object is the return value of its
    defining statement, which is where the new distance is recorded. *)
Definition set_distance (reference : VariableReference) (distance : Z)
    : M VariableReference :=
  fun w =>
    (Returns (mkVariableReference (vr_id reference)
                (_variable_type reference) distance),
     mkWorld
       (map (fun st =>
               if vr_eqb (ret_val st) reference
               then mkStatement (kind st)
                      (mkVariableReference (vr_id (ret_val st))
                         (_variable_type (ret_val st)) distance)
                      (args st)
               else st)
            (statements w))
       (next_id w) (rng w)).

(** Modelled from the spec: a parametrized statement "owns an ordered list
    of argument Variable References" and "produces exactly one Variable
    Reference", of the type its generator produces. *)
Definition new_ConstructorStatement (constructor : GenericConstructor)
    (args : list VariableReference) : M Statement :=
  r <- new_reference (Concrete (constructor_owner constructor)) ;;
  ret (mkStatement (ConstructorStatement constructor) r args).

(** Modelled from the spec: a method statement, which also owns its
    callee. *)
Definition new_MethodStatement (method : GenericMethod)
    (callee : VariableReference) (args : list VariableReference)
    : M Statement :=
  r <- new_reference (return_type (method_signature method)) ;;
  ret (mkStatement (MethodStatement method callee) r args).

(** Modelled from the spec: a function statement. *)
Definition new_FunctionStatement (function : GenericFunction)
    (args : list VariableReference) : M Statement :=
  r <- new_reference (return_type (function_signature function)) ;;
  ret (mkStatement (FunctionStatement function) r args).

(** Modelled from the spec: a field statement owns "exactly one owner
    Variable Reference". *)
Definition new_FieldStatement (field : GenericField)
    (source : VariableReference) : M Statement :=
  r <- new_reference (field_type field) ;;
  ret (mkStatement (FieldStatement field source) r []).

(** Modelled from the spec: a primitive-literal statement "with a fresh
    random value". *)
Definition new_PrimitiveStatement (mk : N -> StatementKind) (t : pytype)
    : M Statement :=
  r <- new_reference (Concrete t) ;;
  value <- draw ;;
  ret (mkStatement (mk value) r []).

(** Modelled from the spec: a none-literal, whose reference records the
    requested type. *)
Definition new_NoneStatement (parameter_type : ptype) : M Statement :=
  r <- new_reference parameter_type ;;
  ret (mkStatement NoneStatement r []).

(** Modelled from the spec: [primitive.clone(test_case)] "clones a
    primitive-literal statement template into the target test case": the
    same literal with a return value of its own. *)
Definition clone_primitive (primitive : Statement) : M Statement :=
  r <- new_reference (_variable_type (ret_val primitive)) ;;
  ret (mkStatement (kind primitive) r []).

(** * Configuration and the test cluster *)

(** Modelled from the spec: the part of [config.INSTANCE] the factory
    reads. *)
Record Configuration := mkConfiguration {
  max_recursion : Z;
  primitive_reuse_probability : Q;
  object_reuse_probability : Q;
  none_probability : Q
}.

(** Modelled from the spec: the accessible-object catalog.  [generators] is
    the dictionary from a type to its generators, kept as its list of
    items.  The catalog lists the types that have at least one generator;
    [generator_bearing] below says that of a catalog. *)
Record TestCluster := mkTestCluster {
  generators : list (ptype * list GenericAccessibleObject)
}.

Fixpoint lookup_generators (t : ptype)
    (items : list (ptype * list GenericAccessibleObject))
    : list GenericAccessibleObject :=
  match items with
  | [] => []
  | (k, gens) :: rest =>
      if bool_decide (k = t) then gens else lookup_generators t rest
  end.

(** Modelled from the spec: [generators_for(type)], "may be empty". *)
Definition get_generators_for (cluster : TestCluster) (t : ptype)
    : list GenericAccessibleObject :=
  lookup_generators t (generators cluster).

(** [x <= p] on floats. *)
Definition float_le (x p : Q) : bool := Qle_bool x p.

Definition nonempty {A} (l : list A) : bool :=
  match l with [] => false | _ => true end.

(** * The test factory ([testfactory.py]) *)

Definition option_ret {A} (m : M A) : M (option A) :=
  v <- m ;; ret (Some v).

(** [_select_from_union]. *)
Definition _select_from_union (parameter_type : ptype) : M ptype :=
  if negb (is_union_type parameter_type) then ret parameter_type
  else
    let types := get_args parameter_type in
    type_ <- choice types ;;
    ret (Concrete type_).

(** [_create_none]. *)
Definition _create_none (parameter_type : ptype)
    (position recursion_depth : Z) : M VariableReference :=
  statement <- new_NoneStatement parameter_type ;;
  _ <- add_statement statement position ;;
  st <- get_statement position ;;
  set_distance (ret_val st) recursion_depth.

(** [_create_primitive]. *)
Definition _create_primitive (parameter_type : ptype)
    (position recursion_depth : Z) : M VariableReference :=
  statement <-
    (if bool_decide (parameter_type = Concrete py_int)
     then new_PrimitiveStatement IntPrimitiveStatement py_int
     else if bool_decide (parameter_type = Concrete py_float)
     then new_PrimitiveStatement FloatPrimitiveStatement py_float
     else if bool_decide (parameter_type = Concrete py_bool)
     then new_PrimitiveStatement BooleanPrimitiveStatement py_bool
     else new_PrimitiveStatement StringPrimitiveStatement py_str) ;;
  r <- add_statement statement position ;;
  set_distance r recursion_depth.

(** [add_primitive]. *)
Definition add_primitive (primitive : Statement) (position : Z)
    : M VariableReference :=
  position <- (if position <? 0 then size else ret position) ;;
  statement <- clone_primitive primitive ;;
  add_statement statement position.

(** The loop of [satisfy_parameters], over the items of
    [parameter_types]; [resolve] is the branch on
    [can_reuse_existing_variables]. *)
Fixpoint satisfy_loop (resolve : ptype -> Z -> M (option VariableReference))
    (items : list (string * ptype)) (position : Z)
    (parameters : list VariableReference) : M (list VariableReference) :=
  match items with
  | [] => ret parameters
  | (_, parameter_type) :: rest =>
      previous_length <- size ;;
      var <- resolve parameter_type position ;;
      match var with
      | None =>
          raise (ConstructionFailedException
                   (FailedToCreateVariable parameter_type position))
      | Some var =>
          current_length <- size ;;
          satisfy_loop resolve rest
            (position + (current_length - previous_length))
            (parameters ++ [var])
      end
  end.

Section Factory.

Variable INSTANCE : Configuration.
Variable cluster : TestCluster.

Fixpoint append_generic_statement (fuel : nat)
    (statement : GenericAccessibleObject) (position recursion_depth : Z)
    (allow_none : bool) {struct fuel} : M (option VariableReference) :=
  match fuel with
  | O => out_of_fuel
  | S fuel =>
      new_position <- (if position =? -1 then size else ret position) ;;
      match statement with
      | GConstructor c =>
          option_ret
            (add_constructor fuel c new_position recursion_depth allow_none)
      | GMethod m =>
          option_ret
            (add_method fuel m new_position recursion_depth allow_none)
      | GFunction f =>
          option_ret
            (add_function fuel f new_position recursion_depth allow_none)
      | GField f =>
          option_ret (add_field fuel f new_position recursion_depth)
      | GOther =>
          raise (ConstructionFailedException UnknownStatementType)
      end
  end

with add_constructor (fuel : nat) (constructor : GenericConstructor)
    (position recursion_depth : Z) (allow_none : bool) {struct fuel}
    : M VariableReference :=
  if recursion_depth >? max_recursion INSTANCE
  then raise (ConstructionFailedException MaxRecursionDepthReached)
  else
    match fuel with
    | O => out_of_fuel
    | S fuel =>
        position <- (if position <? 0 then size else ret position) ;;
        let signature := constructor_signature constructor in
        length <- size ;;
        try_except
          (parameters <-
             satisfy_parameters fuel (parameters signature) None position
               (recursion_depth + 1) allow_none true ;;
           new_length <- size ;;
           let position := position + new_length - length in
           statement <- new_ConstructorStatement constructor parameters ;;
           add_statement statement position)
          (fun exception =>
             raise (ConstructionFailedException
                      (FailedToAddConstructor constructor exception)))
    end

with add_method (fuel : nat) (method : GenericMethod)
    (position recursion_depth : Z) (allow_none : bool) {struct fuel}
    : M VariableReference :=
  if recursion_depth >? max_recursion INSTANCE
  then raise (ConstructionFailedException MaxRecursionDepthReached)
  else
    match fuel with
    | O => out_of_fuel
    | S fuel =>
        position <- (if position <? 0 then size else ret position) ;;
        let signature := method_signature method in
        length <- size ;;
        callee <-
          _create_or_reuse_variable fuel (Concrete (method_owner method))
            position recursion_depth true None ;;
        match callee with
        | None => raise AssertionError
        | Some callee =>
            parameters <-
              satisfy_parameters fuel (parameters signature) None position
                (recursion_depth + 1) allow_none true ;;
            new_length <- size ;;
            let position := position + new_length - length in
            statement <- new_MethodStatement method callee parameters ;;
            add_statement statement position
        end
    end

with add_field (fuel : nat) (field : GenericField)
    (position recursion_depth : Z) {struct fuel} : M VariableReference :=
  if recursion_depth >? max_recursion INSTANCE
  then raise (ConstructionFailedException MaxRecursionDepthReached)
  else
    match fuel with
    | O => out_of_fuel
    | S fuel =>
        position <- (if position <? 0 then size else ret position) ;;
        length <- size ;;
        callee <-
          _create_or_reuse_variable fuel (Concrete (field_owner field))
            position recursion_depth false None ;;
        match callee with
        | None => raise AssertionError
        | Some callee =>
            new_length <- size ;;
            let position := position + new_length - length in
            statement <- new_FieldStatement field callee ;;
            add_statement statement position
        end
    end

with add_function (fuel : nat) (function : GenericFunction)
    (position recursion_depth : Z) (allow_none : bool) {struct fuel}
    : M VariableReference :=
  if recursion_depth >? max_recursion INSTANCE
  then raise (ConstructionFailedException MaxRecursionDepthReached)
  else
    match fuel with
    | O => out_of_fuel
    | S fuel =>
        position <- (if position <? 0 then size else ret position) ;;
        let signature := function_signature function in
        length <- size ;;
        parameters <-
          satisfy_parameters fuel (parameters signature) None position
            (recursion_depth + 1) allow_none true ;;
        new_length <- size ;;
        let position := position + new_length - length in
        statement <- new_FunctionStatement function parameters ;;
        add_statement statement position
    end

with satisfy_parameters (fuel : nat)
    (parameter_types : list (string * ptype))
    (callee : option VariableReference) (position recursion_depth : Z)
    (allow_none can_reuse_existing_variables : bool) {struct fuel}
    : M (list VariableReference) :=
  match fuel with
  | O => out_of_fuel
  | S fuel =>
      position <- (if position <? 0 then size else ret position) ;;
      satisfy_loop
        (fun parameter_type position =>
           if can_reuse_existing_variables
           then _create_or_reuse_variable fuel parameter_type position
                  recursion_depth allow_none callee
           else _create_variable fuel parameter_type position
                  recursion_depth allow_none callee)
        parameter_types position []
  end

with _create_or_reuse_variable (fuel : nat) (parameter_type : ptype)
    (position recursion_depth : Z) (allow_none : bool)
    (exclude : option VariableReference) {struct fuel}
    : M (option VariableReference) :=
  match fuel with
  | O => out_of_fuel
  | S fuel =>
      parameter_type <-
        (if is_union_type parameter_type
         then _select_from_union parameter_type
         else ret parameter_type) ;;
      reuse <- next_float ;;
      objects <- get_objects parameter_type position ;;
      let is_primitive := is_primitive_type parameter_type in
      if is_primitive && nonempty objects
         && float_le reuse (primitive_reuse_probability INSTANCE)
      then option_ret (choice objects)
      else if negb is_primitive && nonempty objects
              && float_le reuse (object_reuse_probability INSTANCE)
      then option_ret (choice objects)
      else
        let create_or_fall_back :=
          created <-
            _create_variable fuel parameter_type position recursion_depth
              allow_none exclude ;;
          match created with
          | Some created => ret (Some created)
          | None =>
              if negb (nonempty objects)
              then
                fallback <- next_float ;;
                if float_le fallback (Qmake 85 100)
                then _create_random_type_variable fuel position
                       recursion_depth allow_none
                else if allow_none
                then option_ret
                       (_create_none parameter_type position
                          recursion_depth)
                else raise (ConstructionFailedException
                              (NoObjectsForType parameter_type))
              else option_ret (choice objects)
          end in
        test_case_size <- size ;;
        if (test_case_size >? 0) && is_none_value parameter_type
           && negb (nonempty objects)
        then
          before <- statements_before position ;;
          let variables := map ret_val before in
          if nonempty variables then option_ret (choice variables)
          else create_or_fall_back
        else create_or_fall_back
  end

with _create_variable (fuel : nat) (parameter_type : ptype)
    (position recursion_depth : Z) (allow_none : bool)
    (exclude : option VariableReference) {struct fuel}
    : M (option VariableReference) :=
  match fuel with
  | O => out_of_fuel
  | S fuel =>
      _attempt_generation fuel parameter_type position recursion_depth
        allow_none exclude
  end

with _attempt_generation (fuel : nat) (parameter_type : ptype)
    (position recursion_depth : Z) (allow_none : bool)
    (exclude : option VariableReference) {struct fuel}
    : M (option VariableReference) :=
  match fuel with
  | O => out_of_fuel
  | S fuel =>
      if negb (truthy_type parameter_type) then ret None
      else if is_primitive_type parameter_type
      then option_ret
             (_create_primitive parameter_type position recursion_depth)
      else
        let type_generators := get_generators_for cluster parameter_type in
        if nonempty type_generators
        then _attempt_generation_for_type fuel position recursion_depth
               allow_none type_generators
        else if allow_none
        then
          none_draw <- next_float ;;
          if float_le none_draw (none_probability INSTANCE)
          then option_ret
                 (_create_none parameter_type position recursion_depth)
          else ret None
        else ret None
  end

with _attempt_generation_for_type (fuel : nat)
    (position recursion_depth : Z) (allow_none : bool)
    (type_generators : list GenericAccessibleObject) {struct fuel}
    : M (option VariableReference) :=
  match fuel with
  | O => out_of_fuel
  | S fuel =>
      type_generator <- choice type_generators ;;
      append_generic_statement fuel type_generator position
        (recursion_depth + 1) allow_none
  end

with _create_random_type_variable (fuel : nat)
    (position recursion_depth : Z) (allow_none : bool) {struct fuel}
    : M (option VariableReference) :=
  match fuel with
  | O => out_of_fuel
  | S fuel =>
      let generator_types := map fst (generators cluster) ++ PRIMITIVES in
      generator_type <- choice generator_types ;;
      _create_or_reuse_variable fuel generator_type position
        (recursion_depth + 1) allow_none None
  end.

End Factory.

(** ** The public [add_*] operations, as one family *)

Inductive add_operation :=
  | AddConstructor (constructor : GenericConstructor)
  | AddMethod (method : GenericMethod)
  | AddFunction (function : GenericFunction)
  | AddField (field : GenericField)
  | AddPrimitive (primitive : Statement).

(** [add_field] has no [allow_none] parameter and [add_primitive] has
    neither [allow_none] nor [recursion_depth]. *)
Definition run_add (INSTANCE : Configuration) (cluster : TestCluster)
    (fuel : nat) (op : add_operation) (position recursion_depth : Z)
    (allow_none : bool) : M VariableReference :=
  match op with
  | AddConstructor c =>
      add_constructor INSTANCE cluster fuel c position recursion_depth
        allow_none
  | AddMethod m =>
      add_method INSTANCE cluster fuel m position recursion_depth allow_none
  | AddFunction f =>
      add_function INSTANCE cluster fuel f position recursion_depth
        allow_none
  | AddField f => add_field INSTANCE cluster fuel f position recursion_depth
  | AddPrimitive p => add_primitive p position
  end.

(** The operations that take a [recursion_depth]. *)
Definition takes_recursion_depth (op : add_operation) : bool :=
  match op with AddPrimitive _ => false | _ => true end.

(** The statement an operation emits for itself. *)
Definition emitted_by (op : add_operation) (st : Statement) : Prop :=
  match op with
  | AddConstructor c => kind st = ConstructorStatement c
  | AddMethod m => exists callee, kind st = MethodStatement m callee
  | AddFunction f => kind st = FunctionStatement f
  | AddField f => exists source, kind st = FieldStatement f source
  | AddPrimitive p => kind st = kind p
  end.

(** * Invariants of a test case *)

Definition ret_id (st : Statement) : nat := vr_id (ret_val st).

Definition owned_ids (st : Statement) : list nat :=
  map vr_id (owned_references st).

Definition ids (l : list Statement) : list nat := map ret_id l.

(** Every statement only owns references defined by statements before it
    ([seen] are the identities defined so far). *)
Fixpoint order_ok (seen : list nat) (l : list Statement) : bool :=
  match l with
  | [] => true
  | st :: rest =>
      forallb (fun a => bool_decide (a ∈ seen)) (owned_ids st)
      && order_ok (ret_id st :: seen) rest
  end.

(** A well-formed world: the test case is in dependency order and the
    allocator is ahead of every object in it. *)
Definition wf_world (w : World) : bool :=
  order_ok [] (statements w)
  && forallb (fun st => Nat.ltb (ret_id st) (next_id w)) (statements w).

(** The dependency-order invariant in terms of defining positions: every
    reference a statement owns is defined at a strictly smaller position. *)
Definition dependency_order (l : list Statement) : Prop :=
  forall (i : nat) (st : Statement) (a : VariableReference),
    l !! i = Some st ->
    a ∈ owned_references st ->
    exists j : nat, get_statement_position a l = Returns j /\ (j < i)%nat.

(** [blk] spliced into [l] at index [n] (at the end when [n] is beyond). *)
Definition ins {A} (n : nat) (blk l : list A) : list A :=
  take n l ++ blk ++ drop n l.

Definition grows (n k : nat) (L L' : list nat) : Prop :=
  exists blk, length blk = k /\ L' = ins n blk L.

(** The position a public operation works at: a negative one means the end
    of the test case. *)
Definition effective_position (position : Z) (w : World) : Z :=
  if position <? 0 then Z.of_nat (length (statements w)) else position.

(** What a successful call at [position] leaves behind: a well-formed
    world that grew by a block spliced in at [position], with every
    returned reference defined before the advanced position (and, for
    [fresh], allocated during the call). *)
Definition post (fresh : bool) (position : Z) (w : World)
    (vs : list VariableReference) (w' : World) : Prop :=
  wf_world w' = true /\
  (next_id w <= next_id w')%nat /\
  (exists k, grows (Z.to_nat position) k (ids (statements w))
               (ids (statements w'))) /\
  forall v, v ∈ vs ->
    vr_id v ∈ take (Z.to_nat position
                    + (length (statements w') - length (statements w)))
                   (ids (statements w'))
    /\ (fresh = true -> (next_id w <= vr_id v)%nat).

(** The value of the float made from a raw draw. *)
Definition float_of_draw (r : N) : Q := Qmake (Z.of_N (r mod 2 ^ 53)) (2 ^ 53).

(** The world after one draw. *)
Definition advance (w : World) : World :=
  mkWorld (statements w) (next_id w) (fun i => rng w (S i)).

(** The parameters of [satisfy_parameters] resolved one after the other,
    each at the position advanced by what the ones before inserted; the
    run starts at [position] in [w] and ends at [position'] in [w']. *)
Inductive resolved_in_order
    (resolve : ptype -> Z -> M (option VariableReference))
    : list (string * ptype) -> Z -> World ->
      list VariableReference -> Z -> World -> Prop :=
  | resolved_nil position w :
      resolved_in_order resolve [] position w [] position w
  | resolved_cons name parameter_type rest position w var w1 vars
      position' w' :
      resolve parameter_type position w = (Returns (Some var), w1) ->
      resolved_in_order resolve rest
        (position + (Z.of_nat (length (statements w1))
                     - Z.of_nat (length (statements w)))) w1 vars
        position' w' ->
      resolved_in_order resolve ((name, parameter_type) :: rest) position w
        (var :: vars) position' w'.

(** The branch of [satisfy_parameters] on [can_reuse_existing_variables]. *)
Definition resolver (INSTANCE : Configuration) (cluster : TestCluster)
    (fuel : nat) (callee : option VariableReference) (recursion_depth : Z)
    (allow_none can_reuse_existing_variables : bool)
    : ptype -> Z -> M (option VariableReference) :=
  fun parameter_type position =>
    if can_reuse_existing_variables
    then _create_or_reuse_variable INSTANCE cluster fuel parameter_type
           position recursion_depth allow_none callee
    else _create_variable INSTANCE cluster fuel parameter_type position
           recursion_depth allow_none callee.

(** What a successful [add_*] call leaves behind: after the references in
    [owned] were resolved (world [w1]) the operation's own statement [st],
    which owns exactly those, went in at the advanced position. *)
Definition emitted (op : add_operation) (position : Z) (w : World)
    (v : VariableReference) (w' : World) : Prop :=
  exists st w1 owned,
    post false position w owned w1
    /\ owned_references st = owned
    /\ ret_id st = next_id w1
    /\ ret_val st = v
    /\ emitted_by op st
    /\ statements w'
       = ins (Z.to_nat position
              + (length (statements w1) - length (statements w)))
           [st] (statements w1)
    /\ post true position w [v] w'.

Definition sound_option (fresh : bool)
    (m : Z -> M (option VariableReference)) : Prop :=
  forall position w v w',
    0 <= position -> wf_world w = true ->
    m position w = (Returns (Some v), w') ->
    post fresh position w [v] w'.

Definition sound_add (op : add_operation) (m : Z -> M VariableReference)
    : Prop :=
  forall position w v w',
    wf_world w = true ->
    m position w = (Returns v, w') ->
    emitted op (effective_position position w) w v w'.

Definition sound_list (fresh : bool)
    (m : Z -> M (list VariableReference)) : Prop :=
  forall position w vs w',
    wf_world w = true ->
    m position w = (Returns vs, w') ->
    post fresh (effective_position position w) w vs w'.

(** The postconditions of the eleven mutually recursive functions of the
    factory, at one recursion budget. *)
Record engine_sound (INSTANCE : Configuration) (cluster : TestCluster)
    (fuel : nat) : Prop := mkEngineSound {
  sound_append_generic_statement : forall g d an,
    sound_option true
      (fun p => append_generic_statement INSTANCE cluster fuel g p d an);
  sound_add_constructor : forall c d an,
    sound_add (AddConstructor c)
      (fun p => add_constructor INSTANCE cluster fuel c p d an);
  sound_add_method : forall m d an,
    sound_add (AddMethod m)
      (fun p => add_method INSTANCE cluster fuel m p d an);
  sound_add_field : forall f d,
    sound_add (AddField f) (fun p => add_field INSTANCE cluster fuel f p d);
  sound_add_function : forall f d an,
    sound_add (AddFunction f)
      (fun p => add_function INSTANCE cluster fuel f p d an);
  sound_satisfy_parameters : forall params callee d an reuse,
    sound_list (negb reuse)
      (fun p =>
         satisfy_parameters INSTANCE cluster fuel params callee p d an reuse);
  sound_create_or_reuse_variable : forall t d an exclude,
    sound_option false
      (fun p =>
         _create_or_reuse_variable INSTANCE cluster fuel t p d an exclude);
  sound_create_variable : forall t d an exclude,
    sound_option true
      (fun p => _create_variable INSTANCE cluster fuel t p d an exclude);
  sound_attempt_generation : forall t d an exclude,
    sound_option true
      (fun p => _attempt_generation INSTANCE cluster fuel t p d an exclude);
  sound_attempt_generation_for_type : forall d an gens,
    sound_option true
      (fun p =>
         _attempt_generation_for_type INSTANCE cluster fuel p d an gens);
  sound_create_random_type_variable : forall d an,
    sound_option false
      (fun p => _create_random_type_variable INSTANCE cluster fuel p d an)
}.

(** The objects of a type visible before a position. *)
Definition visible_objects (parameter_type : ptype) (position : Z)
    (w : World) : list VariableReference :=
  match fst (get_objects parameter_type position w) with
  | Returns objects => objects
  | _ => []
  end.

(** The union arm (if any) is drawn first: the type the resolution then
    continues with, and the world after the draw. *)
Definition resolve_union (parameter_type : ptype) : M ptype :=
  if is_union_type parameter_type then _select_from_union parameter_type
  else ret parameter_type.

(** ** Concrete worlds for the examples *)

Module Examples.

Definition config : Configuration :=
  mkConfiguration 10 (Qmake 9 10) (Qmake 9 10) (Qmake 1 10).

Definition certain_reuse : Configuration :=
  mkConfiguration 10 1 1 (Qmake 1 10).

Definition Foo : pytype := Class 1.
Definition Bar : pytype := Class 2.

(** [Foo()] and [Foo.m(x: int)]; [Bar] has no generator. *)
Definition Foo_init : GenericConstructor :=
  mkGenericConstructor Foo (mkInferredSignature [] (Concrete Foo)).

Definition Foo_m : GenericMethod :=
  mkGenericMethod Foo "m"
    (mkInferredSignature [("x"%string, Concrete py_int)] NoType).

Definition needs_Bar : GenericFunction :=
  mkGenericFunction "f"
    (mkInferredSignature [("b"%string, Concrete Bar)] NoType).

Definition Bar_user : GenericConstructor :=
  mkGenericConstructor (Class 3)
    (mkInferredSignature [("b"%string, Concrete Bar)]
       (Concrete (Class 3))).

Definition Foo_n : GenericMethod :=
  mkGenericMethod Foo "n"
    (mkInferredSignature [("b"%string, Concrete Bar)] NoType).

Definition Bar_method : GenericMethod :=
  mkGenericMethod Bar "g" (mkInferredSignature [] NoType).

Definition Bar_field : GenericField :=
  mkGenericField Bar "x" (Concrete py_int).

Definition cluster : TestCluster :=
  mkTestCluster [(Concrete Foo, [GConstructor Foo_init])].

Definition empty_cluster : TestCluster := mkTestCluster [].

(** A generator whose every draw is 0, and one whose every float is the
    largest below 1. *)
Definition low : nat -> N := fun _ => 0%N.
Definition high : nat -> N := fun _ => (2 ^ 53 - 1)%N.

Definition ones : nat -> N := fun _ => 1%N.

Definition empty_world (draws : nat -> N) : World := mkWorld [] 0 draws.

Definition int_literal : Statement :=
  mkStatement (IntPrimitiveStatement 7)
    (mkVariableReference 0 (Concrete py_int) 0) [].

(** A test case holding one [int] literal. *)
Definition one_int (draws : nat -> N) : World :=
  mkWorld [int_literal] 1 draws.

Definition int_or_Foo : ptype := Union [py_int; Foo].

(** A test case holding one call whose recorded type is
    [Union[int, Foo]]. *)
Definition returns_union : GenericFunction :=
  mkGenericFunction "u" (mkInferredSignature [] int_or_Foo).

Definition one_union (draws : nat -> N) : World :=
  mkWorld [mkStatement (FunctionStatement returns_union)
             (mkVariableReference 0 int_or_Foo 0) []] 1 draws.

(** A hash of annotations that gives equal annotations equal hashes. *)
Definition type_code (t : ptype) : Z :=
  match t with
  | NoType => 0
  | Concrete py_int => 1
  | Concrete py_float => 2
  | Concrete py_bool => 3
  | Concrete py_str => 4
  | Concrete NoneType => 5
  | Concrete (Class name) => 6 + Z.of_nat name
  | Union _ => -1
  end.

(** A catalog whose only entry is a function that returns
    [Union[Bar, Foo]]: neither [Bar] nor [Foo] has a generator of its
    own. *)
Definition Bar_or_Foo : ptype := Union [Bar; Foo].

Definition returns_Bar_or_Foo : GenericFunction :=
  mkGenericFunction "v" (mkInferredSignature [] Bar_or_Foo).

Definition union_cluster : TestCluster :=
  mkTestCluster [(Bar_or_Foo, [GFunction returns_Bar_or_Foo])].

Definition needs_Bar_or_Foo : GenericFunction :=
  mkGenericFunction "g"
    (mkInferredSignature [("u"%string, Bar_or_Foo)] NoType).

End Examples.

(** * More of the two modules *)

(** ** [VariableReference.structural_hash] *)

Section StructuralHash.

(** Python's [hash] of a type object. *)
Variable type_hash : ptype -> Z.

Definition structural_hash (self : VariableReference) : Z :=
  31 * 17 + type_hash (_variable_type self).

End StructuralHash.

(** The identities in a test case are pairwise distinct. *)
Definition distinct_ids (l : list Statement) : Prop := NoDup (ids l).

(** The statement [_create_primitive] makes for a requested type. *)
Definition primitive_type_for (parameter_type : ptype) : pytype :=
  if bool_decide (parameter_type = Concrete py_int) then py_int
  else if bool_decide (parameter_type = Concrete py_float) then py_float
  else if bool_decide (parameter_type = Concrete py_bool) then py_bool
  else py_str.

(** The allocator is ahead of every reference defined in the test case. *)
Definition allocator_ahead (w : World) : Prop :=
  forall st, st ∈ statements w -> (ret_id st < next_id w)%nat.

(** The statement is a literal: one of the primitive statements or the
    none statement, none of which owns a reference. *)
Definition is_literal (st : Statement) : bool :=
  match kind st with
  | IntPrimitiveStatement _ | FloatPrimitiveStatement _
  | BooleanPrimitiveStatement _ | StringPrimitiveStatement _
  | NoneStatement => true
  | _ => false
  end.

(** ** What a call may do to the test case, whatever its outcome *)

(** A statement with the distance of its return value blanked: all of it
    that [reference.distance = ...] cannot change. *)
Definition erase_distance (st : Statement) : Statement :=
  mkStatement (kind st)
    (mkVariableReference (vr_id (ret_val st)) (_variable_type (ret_val st))
       0)
    (args st).

(** Every statement defines a reference of its own, and the allocator is
    ahead of them all. *)
Definition well_allocated (w : World) : Prop :=
  distinct_ids (statements w) /\ allocator_ahead w.

(** From [w] to [w'] the test case only grew: the old statements are still
    there, in their order and unchanged up to distances; every reference
    allocated in between is the return value of one new statement; and
    distinct identities stayed distinct. *)
Definition only_grows (w w' : World) : Prop :=
  sublist (map erase_distance (statements w))
    (map erase_distance (statements w'))
  /\ (next_id w <= next_id w')%nat
  /\ (next_id w' + length (statements w)
      = next_id w + length (statements w'))%nat
  /\ (well_allocated w -> well_allocated w').

(** Between the construction of a statement and its insertion: the
    reference of [st] is allocated, [st] is not yet in the test case. *)
Definition pending (w0 : World) (st : Statement) (w : World) : Prop :=
  exists n,
    next_id w = S n /\ ret_id st = n
    /\ only_grows w0 (mkWorld (statements w) n (rng w)).

(** A triple for the monad: from a world in [P], a returned value and its
    world are in [Q], a raised exception and its world in [E], and the
    world where the budget ran out in [F]. *)
Definition triple {A} (P : World -> Prop) (m : M A)
    (Q : A -> World -> Prop) (E : exn -> World -> Prop)
    (F : World -> Prop) : Prop :=
  forall w, P w ->
    match m w with
    | (Returns a, w') => Q a w'
    | (Raises e, w') => E e w'
    | (OutOfFuel, w') => F w'
    end.

(** The exceptions the factory raises by itself: the construction failures
    other than "failed to create variable", a failed assertion, and the
    [IndexError] of a choice from nothing. *)
Fixpoint engine_exn (e : exn) : bool :=
  match e with
  | ConstructionFailedException msg => engine_msg msg
  | AssertionError => true
  | IndexError => true
  | KeyError => false
  | PlainException => false
  end
with engine_msg (msg : cf_message) : bool :=
  match msg with
  | MaxRecursionDepthReached => true
  | FailedToAddConstructor _ cause => engine_exn cause
  | FailedToCreateVariable _ _ => false
  | NoObjectsForType _ => true
  | UnknownStatementType => true
  end.

(** ... and, where [satisfy_parameters] runs under forced creation, its
    own "failed to create variable". *)
Definition raised_ok (forced : bool) (e : exn) : Prop :=
  engine_exn e = true
  \/ (forced = true
      /\ exists t position,
           e = ConstructionFailedException
                 (FailedToCreateVariable t position)).

Definition framed {A} (w0 : World) (forced : bool) (m : M A) : Prop :=
  triple (only_grows w0) m (fun _ => only_grows w0)
    (fun e w => only_grows w0 w /\ raised_ok forced e) (only_grows w0).

(** A constructor of statements: it allocates the statement's reference
    and touches nothing else of the test case. *)
Definition allocates (new : M Statement) : Prop :=
  forall w, exists st w1,
    new w = (Returns st, w1)
    /\ ret_id st = next_id w
    /\ statements w1 = statements w
    /\ next_id w1 = S (next_id w).

Record engine_framed (INSTANCE : Configuration) (cluster : TestCluster)
    (fuel : nat) (w0 : World) : Prop := mkEngineFramed {
  framed_append_generic_statement : forall g p d an,
    framed w0 false
      (append_generic_statement INSTANCE cluster fuel g p d an);
  framed_add_constructor : forall c p d an,
    framed w0 false (add_constructor INSTANCE cluster fuel c p d an);
  framed_add_method : forall m p d an,
    framed w0 false (add_method INSTANCE cluster fuel m p d an);
  framed_add_field : forall f p d,
    framed w0 false (add_field INSTANCE cluster fuel f p d);
  framed_add_function : forall f p d an,
    framed w0 false (add_function INSTANCE cluster fuel f p d an);
  framed_satisfy_parameters : forall params callee p d an reuse,
    framed w0 (negb reuse)
      (satisfy_parameters INSTANCE cluster fuel params callee p d an reuse);
  framed_create_or_reuse_variable : forall t p d an exclude,
    framed w0 false
      (_create_or_reuse_variable INSTANCE cluster fuel t p d an exclude);
  framed_create_variable : forall t p d an exclude,
    framed w0 false
      (_create_variable INSTANCE cluster fuel t p d an exclude);
  framed_attempt_generation : forall t p d an exclude,
    framed w0 false
      (_attempt_generation INSTANCE cluster fuel t p d an exclude);
  framed_attempt_generation_for_type : forall p d an gens,
    framed w0 false
      (_attempt_generation_for_type INSTANCE cluster fuel p d an gens);
  framed_create_random_type_variable : forall p d an,
    framed w0 false
      (_create_random_type_variable INSTANCE cluster fuel p d an)
}.

(** The signature whose parameters an operation resolves by itself, with
    no callee or source to find first: that of a constructor or of a
    function. *)
Definition own_signature (op : add_operation) : option InferredSignature :=
  match op with
  | AddConstructor c => Some (constructor_signature c)
  | AddFunction f => Some (function_signature f)
  | _ => None
  end.

(** Every parameter is annotated with a primitive type. *)
Definition all_primitive (signature : InferredSignature) : bool :=
  forallb (fun item => is_primitive_type (snd item)) (parameters signature).

(** ** Termination *)

(** Every type the catalog lists is a class that can be produced: a
    primitive one, or one with at least one generator. *)
Definition productive (cluster : TestCluster) : bool :=
  forallb
    (fun item : ptype * list GenericAccessibleObject =>
       match fst item with
       | Concrete _ => is_primitive_type (fst item) || nonempty (snd item)
       | _ => false
       end)
    (generators cluster).

(** Every type the catalog lists has at least one generator, as the
    accessible-object catalog promises of its keys. *)
Definition generator_bearing (cluster : TestCluster) : bool :=
  forallb
    (fun item : ptype * list GenericAccessibleObject => nonempty (snd item))
    (generators cluster).

(** The computation ends within its recursion budget, with an exception
    or with a value in [Q]. *)
Definition finishes_with {A} (Q : A -> Prop) (m : M A) : Prop :=
  triple (fun _ => True) m (fun a _ => Q a) (fun _ _ => True)
    (fun _ => False).

(** What [_attempt_generation] tells by returning [None]. *)
Definition nothing_to_generate (cluster : TestCluster) (t : ptype)
    (o : option VariableReference) : Prop :=
  o = None ->
  truthy_type t = false
  \/ (is_primitive_type t = false
      /\ nonempty (get_generators_for cluster t) = false).

(** With a budget of [9 * levels] every [add_*] operation called at most
    [levels] levels below the point where the ceiling cuts ends. *)
Definition adds_finish (INSTANCE : Configuration) (cluster : TestCluster)
    (levels : nat) : Prop :=
  forall fuel op position recursion_depth allow_none,
    (9 * levels <= fuel)%nat ->
    max_recursion INSTANCE + 1 - Z.of_nat levels <= recursion_depth ->
    finishes_with (fun _ => True)
      (run_add INSTANCE cluster fuel op position recursion_depth
         allow_none).

(** A random source that keeps returning its smallest value: every float
    is [0.0], every choice the first element. *)
Definition all_zero (w : World) : Prop := forall i, rng w i = 0%N.

(** ** [append_statement] *)

Section AppendStatement.

(** Modelled from the spec: the classes of the statement variants are not
    part of the sources.  The four primitive literals are instances of
    [PrimitiveStatement]; whether the none literal is one as well is left
    open. *)
Variable none_is_primitive : bool.

Variable INSTANCE : Configuration.
Variable cluster : TestCluster.

(** [append_statement]: the template is dispatched on its class to the
    [add_*] operation of its accessible object, at position [size()] and
    recursion depth 0; the reference the operation returns is dropped. *)
Definition append_statement (fuel : nat) (statement : Statement)
    (allow_none : bool) : M unit :=
  let add_primitive_at_end :=
    position <- size ;;
    _ <- add_primitive statement position ;;
    ret tt in
  match kind statement with
  | ConstructorStatement constructor =>
      position <- size ;;
      _ <- add_constructor INSTANCE cluster fuel constructor position 0
             allow_none ;;
      ret tt
  | MethodStatement method _ =>
      position <- size ;;
      _ <- add_method INSTANCE cluster fuel method position 0 allow_none ;;
      ret tt
  | FunctionStatement function =>
      position <- size ;;
      _ <- add_function INSTANCE cluster fuel function position 0
             allow_none ;;
      ret tt
  | FieldStatement field _ =>
      position <- size ;;
      _ <- add_field INSTANCE cluster fuel field position 0 ;;
      ret tt
  | IntPrimitiveStatement _ | FloatPrimitiveStatement _
  | BooleanPrimitiveStatement _ | StringPrimitiveStatement _ =>
      add_primitive_at_end
  | NoneStatement =>
      if none_is_primitive then add_primitive_at_end
      else raise (ConstructionFailedException UnknownStatementType)
  end.

End AppendStatement.

(** The statement [st] is what [append_statement] makes of [template]: a
    call of the same constructor, method, function or field, or the same
    literal. *)
Definition made_from (template st : Statement) : Prop :=
  match kind template with
  | ConstructorStatement c => kind st = ConstructorStatement c
  | MethodStatement m _ => exists callee, kind st = MethodStatement m callee
  | FunctionStatement f => kind st = FunctionStatement f
  | FieldStatement f _ => exists source, kind st = FieldStatement f source
  | _ => kind st = kind template
  end.

(** * Verification *)

(** ** Variable references *)

(** Python's [==] on annotations, spelled out: the same class, or two
    unions with the same set of arms. *)
Lemma type_eqb_spec a b :
  type_eqb a b = true <->
  (a = NoType /\ b = NoType)
  \/ (exists c, a = Concrete c /\ b = Concrete c)
  \/ (exists xs ys, a = Union xs /\ b = Union ys
        /\ forall c, c ∈ xs <-> c ∈ ys).
Proof.
  split.
  - destruct a as [|x|xs], b as [|y|ys]; simpl; try discriminate.
    + intros _. by left.
    + intros H. apply bool_decide_eq_true in H as ->. right. left. eauto.
    + intros H. apply andb_true_iff in H as [Hxy Hyx].
      rewrite forallb_forall in Hxy, Hyx.
      right. right. exists xs, ys. split; [done|]. split; [done|].
      intros c. split; intros Hc.
      * apply list_elem_of_In, Hxy in Hc. by apply bool_decide_eq_true in Hc.
      * apply list_elem_of_In, Hyx in Hc. by apply bool_decide_eq_true in Hc.
  - intros [[-> ->]|[(c & -> & ->)|(xs & ys & -> & -> & Hset)]]; simpl.
    + done.
    + by apply bool_decide_eq_true.
    + apply andb_true_iff. rewrite !forallb_forall.
      split; intros c Hc; apply bool_decide_eq_true, Hset;
        by apply list_elem_of_In.
Qed.

Lemma type_eqb_refl a : type_eqb a a = true.
Proof.
  apply type_eqb_spec. destruct a as [|c|xs]; [by left|right; left; eauto|].
  right. right. by exists xs, xs.
Qed.

(** C9: [structural_eq] returns true exactly when [other] is a variable
    reference whose recorded type equals that of [self] (under Python's
    [==], for which the order of the arms of a [Union] does not matter)
    and the remap sends [self] to [other]. *)
Theorem structural_eq_spec (left : VariableReference) (right : pyvalue)
    (memo : gmap nat VariableReference) :
  VariableReferenceImpl.structural_eq left right memo = Returns true <->
  exists r, right = PyRef r
    /\ type_eqb (_variable_type left) (_variable_type r) = true
    /\ VariableReferenceImpl.remaps_to memo left r.
Proof.
  unfold VariableReferenceImpl.structural_eq,
    VariableReferenceImpl.remaps_to, VariableReferenceImpl.memo_get, vr_eqb.
  split.
  - destruct right as [r | | |]; try discriminate.
    destruct (type_eqb _ _) eqn:Ht; [|discriminate].
    destruct (memo !! vr_id left) as [m|] eqn:Hm; [|discriminate].
    intros [= Heq]. apply Nat.eqb_eq in Heq.
    exists r. split; [reflexivity|]. split; [exact Ht|]. eauto.
  - intros (r & -> & Ht & m & Hm & Hid).
    rewrite Ht, Hm. f_equal. apply Nat.eqb_eq. exact Hid.
Qed.

(** ** Lists: splicing a block into a list *)

Section Splice.

Context {A : Type}.
Implicit Types (l blk : list A) (n m : nat).

Lemma length_ins n blk l : length (ins n blk l) = (length l + length blk)%nat.
Proof.
  unfold ins. rewrite !length_app, length_take, length_drop. lia.
Qed.

Lemma ins_nil n l : ins n [] l = l.
Proof. unfold ins. simpl. apply take_drop. Qed.

Lemma ins_beyond n blk l : (length l <= n)%nat -> ins n blk l = l ++ blk.
Proof.
  intros H. unfold ins. rewrite take_ge, drop_ge by lia.
  by rewrite app_nil_r.
Qed.

Lemma take_ins n blk l :
  take (n + length blk) (ins n blk l) = take n l ++ blk.
Proof.
  destruct (decide (n <= length l)%nat) as [Hn|Hn].
  - unfold ins. rewrite app_assoc.
    rewrite take_app_length'; [done|].
    rewrite length_app, length_take. lia.
  - rewrite ins_beyond by lia. rewrite (take_ge l n) by lia.
    apply take_ge. rewrite length_app. lia.
Qed.

(** Whatever was before index [m] is before index [m + length blk] after
    the splice, wherever the block went. *)
Lemma elem_of_take_ins x n m blk l :
  x ∈ take m l -> x ∈ take (m + length blk) (ins n blk l).
Proof.
  rewrite !elem_of_take. intros (i & Hi & Hlt).
  pose proof (lookup_lt_Some _ _ _ Hi) as Hlen.
  destruct (decide (i < n)%nat) as [Hin|Hin].
  - exists i. split; [|lia]. unfold ins.
    rewrite lookup_app_l by (rewrite length_take; lia).
    by rewrite lookup_take_lt.
  - exists (i + length blk)%nat. split; [|lia]. unfold ins.
    rewrite lookup_app_r by (rewrite length_take; lia).
    rewrite length_take, Nat.min_l by lia.
    rewrite lookup_app_r by lia.
    rewrite lookup_drop. rewrite <- Hi. f_equal. lia.
Qed.

Lemma elem_of_ins x n blk l : x ∈ ins n blk l <-> x ∈ l \/ x ∈ blk.
Proof.
  unfold ins. rewrite !elem_of_app.
  rewrite <- (take_drop n l) at 3. rewrite elem_of_app. tauto.
Qed.

(** A second splice that lands inside or right after the first block is
    one splice of a bigger block. *)
Lemma ins_ins n m blk blk' l :
  (n <= m <= n + length blk)%nat ->
  exists blk'', length blk'' = (length blk + length blk')%nat
    /\ ins m blk' (ins n blk l) = ins n blk'' l.
Proof.
  intros Hm.
  destruct (decide (n <= length l)%nat) as [Hn|Hn].
  - exists (ins (m - n) blk' blk). split.
    { rewrite length_ins. lia. }
    unfold ins.
    assert (Hlt : length (take n l) = n) by (rewrite length_take; lia).
    rewrite (take_app (take n l)), (drop_app (take n l)), Hlt.
    rewrite (take_ge (take n l)) by lia.
    rewrite (drop_ge (take n l)) by lia.
    rewrite (take_app blk), (drop_app blk).
    replace (m - n - length blk)%nat with 0%nat by lia.
    rewrite take_0, drop_0. simpl.
    rewrite app_nil_r. by rewrite <- !app_assoc.
  - exists (ins (m - length l) blk' blk). split.
    { rewrite length_ins. lia. }
    rewrite (ins_beyond n blk l) by lia.
    rewrite (ins_beyond n _ l) by lia.
    unfold ins. rewrite take_app, drop_app.
    rewrite (take_ge l) by lia. rewrite (drop_ge l) by lia.
    simpl. by rewrite <- !app_assoc.
Qed.

End Splice.

Lemma grows_refl n L : grows n 0 L L.
Proof. exists []. split; [done|]. by rewrite ins_nil. Qed.

Lemma grows_length n k L L' : grows n k L L' -> length L' = (length L + k)%nat.
Proof. intros (blk & <- & ->). apply length_ins. Qed.

Lemma grows_one n x L : grows n 1 L (ins n [x] L).
Proof. by exists [x]. Qed.

Lemma grows_visible n k L L' x m :
  grows n k L L' -> x ∈ take m L -> x ∈ take (m + k) L'.
Proof. intros (blk & <- & ->). apply elem_of_take_ins. Qed.

Lemma grows_keeps n k L L' x : grows n k L L' -> x ∈ L -> x ∈ L'.
Proof. intros (blk & <- & ->) Hx. apply elem_of_ins. by left. Qed.

Lemma grows_compose n m k k' L L1 L2 :
  grows n k L L1 -> grows m k' L1 L2 -> (n <= m <= n + k)%nat ->
  grows n (k + k') L L2.
Proof.
  intros (blk & <- & ->) (blk' & <- & ->) Hm.
  destruct (ins_ins n m blk blk' L Hm) as (blk'' & Hlen & Heq).
  exists blk''. by split.
Qed.

(** ** The dependency order *)

Lemma order_ok_ext seen seen' l :
  (forall a, a ∈ seen -> a ∈ seen') ->
  order_ok seen l = true -> order_ok seen' l = true.
Proof.
  revert seen seen'. induction l as [|st l IH]; intros seen seen' Hsub; [done|].
  simpl. rewrite !andb_true_iff, !forallb_forall.
  intros [Hown Hrest]. split.
  - intros a Ha. specialize (Hown a Ha).
    apply bool_decide_eq_true. apply bool_decide_eq_true in Hown. auto.
  - eapply IH; [|exact Hrest]. intros a. rewrite !elem_of_cons.
    intros [->|Ha]; auto.
Qed.

Lemma order_ok_app seen l1 l2 :
  order_ok seen (l1 ++ l2) = true <->
  order_ok seen l1 = true /\ order_ok (rev (ids l1) ++ seen) l2 = true.
Proof.
  revert seen. induction l1 as [|st l1 IH]; intros seen; simpl.
  - tauto.
  - rewrite !andb_true_iff, IH. rewrite <- app_assoc. simpl. tauto.
Qed.

Lemma owned_in_order seen l i st a :
  order_ok seen l = true -> l !! i = Some st -> a ∈ owned_ids st ->
  a ∈ seen \/ a ∈ take i (ids l).
Proof.
  revert seen i. induction l as [|st0 l IH]; intros seen i Hok Hi Ha; [done|].
  simpl in Hok. apply andb_true_iff in Hok as [Hown Hrest].
  destruct i as [|i]; simpl in Hi.
  - injection Hi as ->. left.
    rewrite forallb_forall in Hown.
    apply list_elem_of_In in Ha. specialize (Hown a Ha).
    by apply bool_decide_eq_true in Hown.
  - destruct (IH _ _ Hrest Hi Ha) as [Hin|Hin].
    + apply elem_of_cons in Hin as [->|Hin]; [|by left].
      right. simpl. apply elem_of_cons. by left.
    + right. simpl. apply elem_of_cons. by right.
Qed.

Lemma order_ok_ins seen n st l :
  order_ok seen l = true ->
  (forall a, a ∈ owned_ids st -> a ∈ seen \/ a ∈ take n (ids l)) ->
  order_ok seen (ins n [st] l) = true.
Proof.
  intros Hok Hown. unfold ins.
  rewrite <- (take_drop n l) in Hok.
  apply order_ok_app in Hok as [Htake Hdrop].
  apply order_ok_app. split; [exact Htake|].
  simpl. apply andb_true_iff. split.
  - apply forallb_forall. intros a Ha. apply list_elem_of_In in Ha.
    apply bool_decide_eq_true. apply elem_of_app.
    destruct (Hown a Ha) as [H|H]; [by right|left].
    unfold ids in *. rewrite <- fmap_take in H.
    apply list_elem_of_In. apply -> in_rev. apply list_elem_of_In. exact H.
  - eapply order_ok_ext; [|exact Hdrop].
    intros a Ha. apply elem_of_cons. by right.
Qed.

Lemma order_ok_map (f : Statement -> Statement) seen l :
  (forall st, ret_id (f st) = ret_id st) ->
  (forall st, owned_ids (f st) = owned_ids st) ->
  order_ok seen (map f l) = order_ok seen l.
Proof.
  intros Hr Ho. revert seen. induction l as [|st l IH]; intros seen; [done|].
  simpl. by rewrite Hr, Ho, IH.
Qed.

Lemma ids_map (f : Statement -> Statement) l :
  (forall st, ret_id (f st) = ret_id st) -> ids (map f l) = ids l.
Proof.
  intros Hr. unfold ids. rewrite map_map. apply map_ext. exact Hr.
Qed.

Lemma ids_ins n blk l : ids (ins n blk l) = ins n (ids blk) (ids l).
Proof.
  unfold ids, ins. rewrite !map_app.
  change (@map Statement nat) with (@fmap list _ Statement nat).
  by rewrite fmap_take, fmap_drop.
Qed.

Lemma wf_world_iff w :
  wf_world w = true <->
  order_ok [] (statements w) = true
  /\ forall x, x ∈ ids (statements w) -> (x < next_id w)%nat.
Proof.
  unfold wf_world. rewrite andb_true_iff, forallb_forall.
  split; intros [Ho Hf]; (split; [exact Ho|]).
  - intros x Hx. unfold ids in Hx. apply list_elem_of_fmap in Hx as (st & -> & Hst).
    apply list_elem_of_In in Hst. specialize (Hf st Hst).
    by apply Nat.ltb_lt in Hf.
  - intros st Hst. apply Nat.ltb_lt. apply Hf.
    unfold ids. apply list_elem_of_fmap. exists st. split; [done|].
    by apply list_elem_of_In.
Qed.

(** ** Running the monad *)

Lemma bind_returns {A B} (m : M A) (k : A -> M B) w b w' :
  bind m k w = (Returns b, w') ->
  exists a w1, m w = (Returns a, w1) /\ k a w1 = (Returns b, w').
Proof.
  unfold bind. destruct (m w) as [[a| e |] w1]; try discriminate. eauto.
Qed.

Lemma bind_run {A B} (m : M A) (k : A -> M B) w a w1 :
  m w = (Returns a, w1) -> bind m k w = k a w1.
Proof. unfold bind. by intros ->. Qed.

Lemma bind_raises {A B} (m : M A) (k : A -> M B) w e w1 :
  m w = (Raises e, w1) -> bind m k w = (Raises e, w1).
Proof. unfold bind. by intros ->. Qed.

Lemma option_ret_returns {A} (m : M A) w o w' :
  option_ret m w = (Returns o, w') ->
  exists v, o = Some v /\ m w = (Returns v, w').
Proof.
  unfold option_ret. intros H.
  apply bind_returns in H as (a & w1 & Hm & Hr).
  injection Hr as <- <-. eauto.
Qed.

Lemma size_inv w z w' :
  size w = (Returns z, w') -> z = Z.of_nat (length (statements w)) /\ w' = w.
Proof. by intros [= <- <-]. Qed.

Lemma position_inv position w z w' :
  (if position <? 0 then size else ret position) w = (Returns z, w') ->
  z = effective_position position w /\ w' = w.
Proof.
  unfold effective_position. destruct (position <? 0); by intros [= <- <-].
Qed.

Lemma effective_position_nonneg position w :
  0 <= effective_position position w.
Proof. unfold effective_position. destruct (Z.ltb_spec position 0); lia. Qed.

Lemma effective_position_id position w :
  0 <= position -> effective_position position w = position.
Proof. unfold effective_position. destruct (Z.ltb_spec position 0); lia. Qed.

Lemma draw_inv w r w' :
  draw w = (Returns r, w') -> r = rng w 0%nat /\ w' = advance w.
Proof. by intros [= <- <-]. Qed.

Lemma next_float_inv w x w' :
  next_float w = (Returns x, w') ->
  x = float_of_draw (rng w 0%nat) /\ w' = advance w.
Proof. by intros [= <- <-]. Qed.

Lemma choice_inv {A} (seq : list A) w x w' :
  choice seq w = (Returns x, w') -> x ∈ seq /\ w' = advance w.
Proof.
  unfold choice. destruct seq as [|a seq]; [discriminate|].
  intros H. apply bind_returns in H as (r & w1 & Hd & Hk).
  apply draw_inv in Hd as [-> ->].
  destruct (_ !! _) as [y|] eqn:Hy; [|discriminate].
  injection Hk as <- <-. split; [|done].
  by eapply list_elem_of_lookup_2.
Qed.

Lemma choice_nonempty {A} (seq : list A) w :
  seq <> [] -> exists x, x ∈ seq /\ choice seq w = (Returns x, advance w).
Proof.
  intros Hne. unfold choice. destruct seq as [|a seq]; [done|].
  rewrite (bind_run draw _ w (rng w 0%nat) (advance w) eq_refl).
  destruct ((a :: seq) !! _) as [x|] eqn:Hx.
  - exists x. split; [by eapply list_elem_of_lookup_2|done].
  - exfalso. apply lookup_ge_None in Hx.
    assert (H0 : N.of_nat (length (a :: seq)) <> 0%N) by (simpl; lia).
    pose proof (N.mod_lt (rng w 0%nat) _ H0). lia.
Qed.

Lemma get_objects_inv t position w objs w' :
  get_objects t position w = (Returns objs, w') ->
  w' = w /\ forall v, v ∈ objs ->
    vr_id v ∈ take (Z.to_nat position) (ids (statements w)).
Proof.
  intros [= <- <-]. split; [done|]. intros v Hv.
  destruct (truthy_type t); [|by apply elem_of_nil in Hv].
  apply list_elem_of_filter in Hv as [_ Hv].
  apply list_elem_of_fmap in Hv as (st & -> & Hst).
  unfold ids. change (@map Statement nat) with (@fmap list _ Statement nat).
  rewrite <- fmap_take. apply list_elem_of_fmap. by exists st.
Qed.

Lemma statements_before_inv position w before w' :
  0 <= position ->
  statements_before position w = (Returns before, w') ->
  w' = w /\ forall v, v ∈ map ret_val before ->
    vr_id v ∈ take (Z.to_nat position) (ids (statements w)).
Proof.
  intros Hp [= <- <-]. split; [done|]. intros v Hv.
  unfold slice_to in Hv. destruct (Z.ltb_spec position 0); [lia|].
  apply list_elem_of_fmap in Hv as (st & -> & Hst).
  unfold ids. change (@map Statement nat) with (@fmap list _ Statement nat).
  rewrite <- fmap_take. apply list_elem_of_fmap. by exists st.
Qed.

Lemma select_from_union_inv t w t' w' :
  (if is_union_type t then _select_from_union t else ret t) w
    = (Returns t', w') ->
  statements w' = statements w /\ next_id w' = next_id w.
Proof.
  destruct t as [|c|arms]; simpl; try by intros [= <- <-].
  unfold _select_from_union. simpl. intros H.
  apply bind_returns in H as (a & w1 & Hc & Hr).
  apply choice_inv in Hc as [_ ->]. by injection Hr as <- <-.
Qed.

Lemma list_insert_py_ins {A} position (x : A) l :
  0 <= position -> list_insert_py position x l = ins (Z.to_nat position) [x] l.
Proof.
  intros Hp. unfold list_insert_py, ins.
  destruct (Z.ltb_spec position 0); [lia|]. simpl.
  destruct (Z.le_gt_cases position (Z.of_nat (length l))).
  - by rewrite Z.min_l by lia.
  - rewrite Z.min_r by lia. rewrite Nat2Z.id.
    rewrite !take_ge, !drop_ge by lia. done.
Qed.

Lemma add_statement_inv st position w v w' :
  0 <= position ->
  add_statement st position w = (Returns v, w') ->
  v = ret_val st
  /\ statements w' = ins (Z.to_nat position) [st] (statements w)
  /\ next_id w' = next_id w.
Proof.
  intros Hp [= <- <-]. simpl.
  destruct (Z.eqb_spec position (-1)); [lia|].
  by rewrite list_insert_py_ins.
Qed.

(** ** Composing postconditions *)

Lemma wf_world_same w w' :
  statements w' = statements w -> next_id w' = next_id w ->
  wf_world w' = wf_world w.
Proof. unfold wf_world. by intros -> ->. Qed.

Lemma post_weaken fresh position w vs w' :
  post true position w vs w' -> post fresh position w vs w'.
Proof.
  intros (Hwf & Hn & Hg & Hv). repeat split; try done.
  - by apply Hv.
  - intros _. by apply Hv.
Qed.

Lemma post_start fresh position w w0 vs w' :
  statements w0 = statements w -> next_id w0 = next_id w ->
  post fresh position w0 vs w' -> post fresh position w vs w'.
Proof. unfold post. by intros -> ->. Qed.

Lemma post_finish fresh position w vs w1 w2 :
  statements w2 = statements w1 -> next_id w2 = next_id w1 ->
  post fresh position w vs w1 -> post fresh position w vs w2.
Proof.
  unfold post. intros Hs Hn. rewrite (wf_world_same w1 w2 Hs Hn).
  by rewrite Hs, Hn.
Qed.

Lemma post_reuse position w vs :
  wf_world w = true ->
  (forall v, v ∈ vs ->
     vr_id v ∈ take (Z.to_nat position) (ids (statements w))) ->
  post false position w vs w.
Proof.
  intros Hwf Hv. repeat split; try done.
  - exists 0%nat. apply grows_refl.
  - rewrite Nat.sub_diag, Nat.add_0_r. by apply Hv.
Qed.

Lemma post_nil fresh position w :
  wf_world w = true -> post fresh position w [] w.
Proof.
  intros Hwf. repeat split; try done.
  - exists 0%nat. apply grows_refl.
  - by apply elem_of_nil in H.
  - by apply elem_of_nil in H.
Qed.

Lemma post_seq fresh p0 w0 acc p w vs w1 :
  post fresh p0 w0 acc w ->
  (Z.to_nat p0 <= Z.to_nat p
   <= Z.to_nat p0 + (length (statements w) - length (statements w0)))%nat ->
  post fresh p w vs w1 ->
  post fresh p0 w0 (acc ++ vs) w1.
Proof.
  intros (_ & Hn0 & [k Hg0] & Hacc) Hp (Hwf & Hn1 & [k1 Hg1] & Hvs).
  pose proof (grows_length _ _ _ _ Hg0) as Hl0.
  pose proof (grows_length _ _ _ _ Hg1) as Hl1.
  unfold ids in Hl0, Hl1. rewrite !length_map in Hl0, Hl1.
  replace (length (statements w) - length (statements w0))%nat
    with k in * by lia.
  replace (length (statements w1) - length (statements w))%nat
    with k1 in * by lia.
  unfold post.
  replace (length (statements w1) - length (statements w0))%nat
    with (k + k1)%nat by lia.
  repeat split.
  - exact Hwf.
  - lia.
  - exists (k + k1)%nat. eapply grows_compose; eauto.
  - apply elem_of_app in H as [Ha|Hb].
    + rewrite Nat.add_assoc. eapply grows_visible; [exact Hg1|].
      by apply Hacc.
    + destruct (Hvs v Hb) as [Hin _].
      apply elem_of_take in Hin as (i & Hi & Hlt).
      apply elem_of_take. exists i. split; [done|lia].
  - intros Hf. apply elem_of_app in H as [Ha|Hb].
    + by apply Hacc.
    + destruct (Hvs v Hb) as [_ Hfr]. specialize (Hfr Hf). lia.
Qed.

Lemma post_emit p0 w0 owned w1 st w2 :
  post false p0 w0 owned w1 ->
  ret_id st = next_id w1 ->
  (forall a, a ∈ owned_ids st -> exists v, v ∈ owned /\ vr_id v = a) ->
  statements w2
    = ins (Z.to_nat p0 + (length (statements w1) - length (statements w0)))
        [st] (statements w1) ->
  next_id w2 = S (next_id w1) ->
  post true p0 w0 [ret_val st] w2.
Proof.
  intros (Hwf & Hn & [k Hg] & Hown) Hid Hsub Hst Hnext.
  pose proof (grows_length _ _ _ _ Hg) as Hl.
  unfold ids in Hl. rewrite !length_map in Hl.
  replace (length (statements w1) - length (statements w0))%nat
    with k in * by lia.
  apply wf_world_iff in Hwf as [Hord Hlt].
  assert (Hlen2 : length (statements w2) = S (length (statements w1))).
  { rewrite Hst, length_ins. simpl. lia. }
  repeat split.
  - apply wf_world_iff. split.
    + rewrite Hst. apply order_ok_ins; [done|].
      intros a Ha. right. destruct (Hsub a Ha) as (v & Hv & <-).
      by apply Hown.
    + intros x. rewrite Hst, ids_ins. rewrite elem_of_ins.
      intros [Hx|Hx].
      * specialize (Hlt x Hx). lia.
      * apply list_elem_of_singleton in Hx. lia.
  - lia.
  - exists (k + 1)%nat. eapply grows_compose; [exact Hg| |].
    + rewrite Hst, ids_ins. apply grows_one.
    + lia.
  - apply list_elem_of_singleton in H as ->.
    replace (length (statements w2) - length (statements w0))%nat
      with (k + 1)%nat by lia.
    rewrite Hst, ids_ins. rewrite Nat.add_assoc.
    change 1%nat with (length (ids [st])). rewrite take_ins.
    apply elem_of_app. right. by apply list_elem_of_singleton.
  - intros _. apply list_elem_of_singleton in H as ->.
    fold (ret_id st). lia.
Qed.

Lemma set_distance_inv r d w v w' :
  set_distance r d w = (Returns v, w') ->
  vr_id v = vr_id r /\ next_id w' = next_id w
  /\ ids (statements w') = ids (statements w)
  /\ length (statements w') = length (statements w)
  /\ wf_world w' = wf_world w.
Proof.
  intros [= <- <-]. simpl.
  set (f := fun st : Statement => if vr_eqb (ret_val st) r then _ else st).
  assert (Hr : forall st, ret_id (f st) = ret_id st).
  { intros st. unfold f. by destruct (vr_eqb _ _). }
  assert (Ho : forall st, owned_ids (f st) = owned_ids st).
  { intros st. unfold f. by destruct (vr_eqb _ _). }
  repeat split.
  - by apply ids_map.
  - by rewrite length_map.
  - unfold wf_world. simpl. rewrite order_ok_map by done. f_equal.
    induction (statements w) as [|st l IH]; [done|].
    simpl. by rewrite Hr, IH.
Qed.

Lemma post_set_distance fresh position w r w1 d v w2 :
  post fresh position w [r] w1 ->
  set_distance r d w1 = (Returns v, w2) ->
  post fresh position w [v] w2.
Proof.
  intros (Hwf & Hn & Hg & Hv) Hsd.
  apply set_distance_inv in Hsd as (Hid & Hnext & Hids & Hlen & Hwf2).
  unfold post. rewrite Hwf2, Hnext, Hids, Hlen. repeat split; try done.
  - apply list_elem_of_singleton in H as ->. rewrite Hid.
    apply Hv. by apply list_elem_of_singleton.
  - apply list_elem_of_singleton in H as ->. rewrite Hid.
    apply Hv. by apply list_elem_of_singleton.
Qed.

(** ** Building and inserting one statement *)

Lemma new_reference_inv t w r w' :
  new_reference t w = (Returns r, w') ->
  r = mkVariableReference (next_id w) t 0
  /\ statements w' = statements w /\ next_id w' = S (next_id w).
Proof. by intros [= <- <-]. Qed.

Ltac new_statement_inv H :=
  let r := fresh "r" in
  let wr := fresh "wr" in
  let Hr := fresh "Hr" in
  let Hk := fresh "Hk" in
  apply bind_returns in H as (r & wr & Hr & Hk);
  apply new_reference_inv in Hr as (-> & ? & ?).

Lemma new_ConstructorStatement_inv c args w st w' :
  new_ConstructorStatement c args w = (Returns st, w') ->
  kind st = ConstructorStatement c /\ owned_references st = args
  /\ ret_id st = next_id w
  /\ statements w' = statements w /\ next_id w' = S (next_id w).
Proof.
  intros H. unfold new_ConstructorStatement in H. new_statement_inv H.
  by injection Hk as <- <-.
Qed.

Lemma new_MethodStatement_inv m callee args w st w' :
  new_MethodStatement m callee args w = (Returns st, w') ->
  kind st = MethodStatement m callee
  /\ owned_references st = callee :: args
  /\ ret_id st = next_id w
  /\ statements w' = statements w /\ next_id w' = S (next_id w).
Proof.
  intros H. unfold new_MethodStatement in H. new_statement_inv H.
  by injection Hk as <- <-.
Qed.

Lemma new_FunctionStatement_inv f args w st w' :
  new_FunctionStatement f args w = (Returns st, w') ->
  kind st = FunctionStatement f /\ owned_references st = args
  /\ ret_id st = next_id w
  /\ statements w' = statements w /\ next_id w' = S (next_id w).
Proof.
  intros H. unfold new_FunctionStatement in H. new_statement_inv H.
  by injection Hk as <- <-.
Qed.

Lemma new_FieldStatement_inv f source w st w' :
  new_FieldStatement f source w = (Returns st, w') ->
  kind st = FieldStatement f source /\ owned_references st = [source]
  /\ ret_id st = next_id w
  /\ statements w' = statements w /\ next_id w' = S (next_id w).
Proof.
  intros H. unfold new_FieldStatement in H. new_statement_inv H.
  by injection Hk as <- <-.
Qed.

Lemma new_PrimitiveStatement_inv mk t w st w' :
  (forall value, owned_references (mkStatement (mk value)
     (mkVariableReference (next_id w) (Concrete t) 0) []) = []) ->
  new_PrimitiveStatement mk t w = (Returns st, w') ->
  owned_references st = []
  /\ ret_id st = next_id w
  /\ statements w' = statements w /\ next_id w' = S (next_id w).
Proof.
  intros Hown H. unfold new_PrimitiveStatement in H. new_statement_inv H.
  apply bind_returns in Hk as (value & wd & Hd & Hk).
  apply draw_inv in Hd as [-> ->]. injection Hk as <- <-.
  by rewrite Hown.
Qed.

Lemma new_NoneStatement_inv t w st w' :
  new_NoneStatement t w = (Returns st, w') ->
  owned_references st = []
  /\ ret_id st = next_id w
  /\ statements w' = statements w /\ next_id w' = S (next_id w).
Proof.
  intros H. unfold new_NoneStatement in H. new_statement_inv H.
  by injection Hk as <- <-.
Qed.

(** A freshly built statement whose owned references are all defined before
    the advanced position goes in right there. *)
Lemma emit_statement p0 w0 owned w1 st wa position v w2 :
  0 <= p0 ->
  post false p0 w0 owned w1 ->
  owned_references st = owned ->
  ret_id st = next_id w1 ->
  statements wa = statements w1 -> next_id wa = S (next_id w1) ->
  position = p0 + Z.of_nat (length (statements w1))
             - Z.of_nat (length (statements w0)) ->
  add_statement st position wa = (Returns v, w2) ->
  v = ret_val st
  /\ statements w2
     = ins (Z.to_nat p0 + (length (statements w1) - length (statements w0)))
         [st] (statements w1)
  /\ post true p0 w0 [v] w2.
Proof.
  intros Hp0 Hpost Hown Hid Hs Hn Hpos Hadd.
  assert (Hlen : (length (statements w0) <= length (statements w1))%nat).
  { destruct Hpost as (_ & _ & [k Hg] & _).
    apply grows_length in Hg. unfold ids in Hg.
    rewrite !length_map in Hg. lia. }
  apply add_statement_inv in Hadd as (-> & Hst & Hnext); [|lia].
  assert (Hst' : statements w2
    = ins (Z.to_nat p0 + (length (statements w1) - length (statements w0)))
        [st] (statements w1)).
  { rewrite Hst, Hs. f_equal. lia. }
  split; [done|]. split; [done|].
  eapply post_emit; eauto.
  - intros a Ha. unfold owned_ids in Ha. rewrite Hown in Ha.
    apply list_elem_of_fmap in Ha as (v & -> & Hv). eauto.
  - lia.
Qed.

Lemma _create_primitive_post t position d w v w' :
  0 <= position -> wf_world w = true ->
  _create_primitive t position d w = (Returns v, w') ->
  post true position w [v] w'.
Proof.
  intros Hp Hwf H. unfold _create_primitive in H.
  apply bind_returns in H as (st & wa & Hnew & H).
  apply bind_returns in H as (r & w2 & Hadd & Hsd).
  assert (Hst : owned_references st = [] /\ ret_id st = next_id w
                /\ statements wa = statements w
                /\ next_id wa = S (next_id w)).
  { repeat case_bool_decide;
      eapply new_PrimitiveStatement_inv; try exact Hnew; done. }
  destruct Hst as (Hown & Hid & Hs & Hn).
  eapply emit_statement in Hadd as (_ & _ & Hpost);
    [| exact Hp | apply (post_reuse position w []); [done|]
     | exact Hown | exact Hid | exact Hs | exact Hn | lia ].
  - eapply post_set_distance; eauto.
  - intros x Hx. by apply elem_of_nil in Hx.
Qed.

Lemma get_statement_inv position w st w' :
  get_statement position w = (Returns st, w') ->
  w' = w /\ statements w !! Z.to_nat position = Some st.
Proof.
  unfold get_statement. destruct (_ && _); [|discriminate].
  destruct (_ !! _) as [st'|] eqn:Hl; [|discriminate].
  by intros [= <- <-].
Qed.

Lemma lookup_ins_new {A} n (x y : A) l :
  ins n [x] l !! n = Some y -> x = y.
Proof.
  intros H. pose proof (lookup_lt_Some _ _ _ H) as Hlt.
  rewrite length_ins in Hlt. simpl in Hlt.
  unfold ins in H. rewrite lookup_app_r in H by (rewrite length_take; lia).
  rewrite length_take, Nat.min_l in H by lia.
  rewrite Nat.sub_diag in H. simpl in H. congruence.
Qed.

Lemma _create_none_post t position d w v w' :
  0 <= position -> wf_world w = true ->
  _create_none t position d w = (Returns v, w') ->
  post true position w [v] w'.
Proof.
  intros Hp Hwf H. unfold _create_none in H.
  apply bind_returns in H as (st & wa & Hnew & H).
  apply bind_returns in H as (r & w2 & Hadd & H).
  apply bind_returns in H as (st' & w3 & Hget & Hsd).
  apply new_NoneStatement_inv in Hnew as (Hown & Hid & Hs & Hn).
  eapply emit_statement in Hadd as (-> & Hst & Hpost);
    [| exact Hp | apply (post_reuse position w []); [done|]
     | exact Hown | exact Hid | exact Hs | exact Hn | lia ].
  - apply get_statement_inv in Hget as [-> Hlk].
    rewrite Hst, Nat.sub_diag, Nat.add_0_r in Hlk.
    apply lookup_ins_new in Hlk as <-.
    eapply post_set_distance; eauto.
  - intros x Hx. by apply elem_of_nil in Hx.
Qed.

(** ** Soundness of the factory, one recursion level at a time *)

Lemma try_except_returns {A} (m : M A) (handler : exn -> M A) w v w' :
  (forall e w1, handler e w1 <> (Returns v, w')) ->
  try_except m handler w = (Returns v, w') -> m w = (Returns v, w').
Proof.
  unfold try_except. intros Hh.
  destruct (m w) as [[a|e|] w1]; try done.
  intros H. by apply Hh in H.
Qed.

Lemma post_length fresh position w vs w' :
  post fresh position w vs w' ->
  (length (statements w) <= length (statements w'))%nat.
Proof.
  intros (_ & _ & [k Hg] & _). apply grows_length in Hg.
  unfold ids in Hg. rewrite !length_map in Hg. lia.
Qed.

Lemma emitted_post op position w v w' :
  emitted op position w v w' -> post true position w [v] w'.
Proof. by intros (st & w1 & owned & _ & _ & _ & _ & _ & _ & H). Qed.

Lemma satisfy_loop_post fresh resolve :
  (forall t, sound_option fresh (resolve t)) ->
  forall items p0 w0 position parameters w vs w',
    0 <= p0 ->
    post fresh p0 w0 parameters w ->
    position = p0 + Z.of_nat (length (statements w))
               - Z.of_nat (length (statements w0)) ->
    satisfy_loop resolve items position parameters w = (Returns vs, w') ->
    post fresh p0 w0 vs w'.
Proof.
  intros Hres items.
  induction items as [|[name t] items IH];
    intros p0 w0 position acc w vs w' Hp0 Hpost Hpos H; simpl in H.
  - by injection H as <- <-.
  - apply bind_returns in H as (z & w1 & Hsz & H).
    apply size_inv in Hsz as [-> ->].
    apply bind_returns in H as (var & w1 & Hr & H).
    destruct var as [var|]; [|discriminate].
    apply bind_returns in H as (z & w2 & Hsz & H).
    apply size_inv in Hsz as [-> ->].
    pose proof (post_length _ _ _ _ _ Hpost) as Hlen.
    assert (Hwf : wf_world w = true) by apply Hpost.
    apply Hres in Hr; [|lia|done].
    pose proof (post_length _ _ _ _ _ Hr) as Hlen1.
    eapply IH; [exact Hp0| |reflexivity|].
    2:{ replace (p0 + Z.of_nat (length (statements w1))
                 - Z.of_nat (length (statements w0)))
        with (position + (Z.of_nat (length (statements w1))
                 - Z.of_nat (length (statements w)))) by lia.
        exact H. }
    eapply post_seq; [exact Hpost| |exact Hr]. lia.
Qed.

Section Step.

Variable INSTANCE : Configuration.
Variable cluster : TestCluster.
Variable fuel : nat.
Hypothesis IH : engine_sound INSTANCE cluster fuel.

Lemma satisfy_parameters_step params callee d an reuse :
  sound_list (negb reuse)
    (fun p =>
       satisfy_parameters INSTANCE cluster (S fuel) params callee p d an
         reuse).
Proof.
  intros position w vs w' Hwf H. simpl in H.
  apply bind_returns in H as (p & w1 & Hp & H).
  apply position_inv in Hp as [-> ->].
  pose proof (effective_position_nonneg position w) as Hnn.
  eapply satisfy_loop_post; [| exact Hnn | | | exact H].
  - intros t. destruct reuse; simpl.
    + apply IH.
    + apply IH.
  - by apply post_nil.
  - lia.
Qed.

Lemma add_constructor_step c d an :
  sound_add (AddConstructor c)
    (fun p => add_constructor INSTANCE cluster (S fuel) c p d an).
Proof.
  intros position w v w' Hwf H. simpl in H.
  destruct (d >? max_recursion INSTANCE); [discriminate|].
  apply bind_returns in H as (p & w1 & Hp & H).
  apply position_inv in Hp as [-> ->].
  apply bind_returns in H as (z & w1 & Hsz & H).
  apply size_inv in Hsz as [-> ->].
  apply try_except_returns in H; [|discriminate].
  apply bind_returns in H as (params & w1 & Hsat & H).
  apply bind_returns in H as (z & w2 & Hsz & H).
  apply size_inv in Hsz as [-> ->].
  apply bind_returns in H as (st & wa & Hnew & Hadd).
  pose proof (effective_position_nonneg position w) as Hnn.
  apply (sound_satisfy_parameters _ _ _ IH) in Hsat; [|done].
  rewrite (effective_position_id _ _ Hnn) in Hsat. simpl in Hsat.
  apply new_ConstructorStatement_inv in Hnew as (Hk & Hown & Hid & Hs & Hn).
  eapply emit_statement in Hadd as (-> & Hst & Hpost); eauto.
  exists st, w1, params. do 6 (split; [by eauto|]). exact Hpost.
Qed.

Lemma add_function_step f d an :
  sound_add (AddFunction f)
    (fun p => add_function INSTANCE cluster (S fuel) f p d an).
Proof.
  intros position w v w' Hwf H. simpl in H.
  destruct (d >? max_recursion INSTANCE); [discriminate|].
  apply bind_returns in H as (p & w1 & Hp & H).
  apply position_inv in Hp as [-> ->].
  apply bind_returns in H as (z & w1 & Hsz & H).
  apply size_inv in Hsz as [-> ->].
  apply bind_returns in H as (params & w1 & Hsat & H).
  apply bind_returns in H as (z & w2 & Hsz & H).
  apply size_inv in Hsz as [-> ->].
  apply bind_returns in H as (st & wa & Hnew & Hadd).
  pose proof (effective_position_nonneg position w) as Hnn.
  apply (sound_satisfy_parameters _ _ _ IH) in Hsat; [|done].
  rewrite (effective_position_id _ _ Hnn) in Hsat. simpl in Hsat.
  apply new_FunctionStatement_inv in Hnew as (Hk & Hown & Hid & Hs & Hn).
  eapply emit_statement in Hadd as (-> & Hst & Hpost); eauto.
  exists st, w1, params. do 6 (split; [by eauto|]). exact Hpost.
Qed.

End Step.

(** Fresh construction that yields no value has not touched the test
    case. *)
Lemma append_generic_statement_some I cl fuel g p d an w o w' :
  append_generic_statement I cl fuel g p d an w = (Returns o, w') ->
  exists v, o = Some v.
Proof.
  destruct fuel as [|fuel]; [discriminate|]. simpl. intros H.
  apply bind_returns in H as (z & w1 & _ & H).
  destruct g; try discriminate;
    apply option_ret_returns in H as (v & -> & _); eauto.
Qed.

Lemma _attempt_generation_for_type_some I cl fuel p d an gens w o w' :
  _attempt_generation_for_type I cl fuel p d an gens w = (Returns o, w') ->
  exists v, o = Some v.
Proof.
  destruct fuel as [|fuel]; [discriminate|]. simpl. intros H.
  apply bind_returns in H as (g & w1 & _ & H).
  by apply append_generic_statement_some in H.
Qed.

Lemma _attempt_generation_none I cl fuel t p d an ex w w' :
  _attempt_generation I cl fuel t p d an ex w = (Returns None, w') ->
  statements w' = statements w /\ next_id w' = next_id w.
Proof.
  destruct fuel as [|fuel]; [discriminate|]. simpl. intros H.
  destruct (truthy_type t); simpl in H; [|by injection H as <-].
  destruct (is_primitive_type t).
  { apply option_ret_returns in H as (v & Hv & _). discriminate. }
  destruct (nonempty _).
  { apply _attempt_generation_for_type_some in H as [v Hv]. discriminate. }
  destruct an; [|by injection H as <-].
  apply bind_returns in H as (x & w1 & Hf & H).
  apply next_float_inv in Hf as [-> ->].
  destruct (float_le _ _); [|by injection H as <-].
  apply option_ret_returns in H as (v & Hv & _). discriminate.
Qed.

Lemma _create_variable_none I cl fuel t p d an ex w w' :
  _create_variable I cl fuel t p d an ex w = (Returns None, w') ->
  statements w' = statements w /\ next_id w' = next_id w.
Proof.
  destruct fuel as [|fuel]; [discriminate|]. simpl.
  apply _attempt_generation_none.
Qed.

Section Step2.

Variable INSTANCE : Configuration.
Variable cluster : TestCluster.
Variable fuel : nat.
Hypothesis IH : engine_sound INSTANCE cluster fuel.

Lemma add_method_step m d an :
  sound_add (AddMethod m)
    (fun p => add_method INSTANCE cluster (S fuel) m p d an).
Proof.
  intros position w v w' Hwf H. simpl in H.
  destruct (d >? max_recursion INSTANCE); [discriminate|].
  apply bind_returns in H as (p & w1 & Hp & H).
  apply position_inv in Hp as [-> ->].
  apply bind_returns in H as (z & w1 & Hsz & H).
  apply size_inv in Hsz as [-> ->].
  apply bind_returns in H as (callee & w1 & Hcallee & H).
  destruct callee as [callee|]; [|discriminate].
  apply bind_returns in H as (params & w2 & Hsat & H).
  apply bind_returns in H as (z & w3 & Hsz & H).
  apply size_inv in Hsz as [-> ->].
  apply bind_returns in H as (st & wa & Hnew & Hadd).
  pose proof (effective_position_nonneg position w) as Hnn.
  apply (sound_create_or_reuse_variable _ _ _ IH) in Hcallee; [|done..].
  assert (Hwf1 : wf_world w1 = true) by apply Hcallee.
  apply (sound_satisfy_parameters _ _ _ IH) in Hsat; [|done].
  rewrite (effective_position_id _ _ Hnn) in Hsat. simpl in Hsat.
  assert (Hall : post false (effective_position position w) w
                   (callee :: params) w2).
  { change (callee :: params) with ([callee] ++ params).
    eapply post_seq; [exact Hcallee| |exact Hsat]. lia. }
  apply new_MethodStatement_inv in Hnew as (Hk & Hown & Hid & Hs & Hn).
  eapply emit_statement in Hadd as (-> & Hst & Hpost); eauto.
  exists st, w2, (callee :: params).
  do 4 (split; [by eauto|]). split; [simpl; by eauto|].
  split; [done|]. exact Hpost.
Qed.

Lemma add_field_step f d :
  sound_add (AddField f)
    (fun p => add_field INSTANCE cluster (S fuel) f p d).
Proof.
  intros position w v w' Hwf H. simpl in H.
  destruct (d >? max_recursion INSTANCE); [discriminate|].
  apply bind_returns in H as (p & w1 & Hp & H).
  apply position_inv in Hp as [-> ->].
  apply bind_returns in H as (z & w1 & Hsz & H).
  apply size_inv in Hsz as [-> ->].
  apply bind_returns in H as (callee & w1 & Hcallee & H).
  destruct callee as [callee|]; [|discriminate].
  apply bind_returns in H as (z & w3 & Hsz & H).
  apply size_inv in Hsz as [-> ->].
  apply bind_returns in H as (st & wa & Hnew & Hadd).
  pose proof (effective_position_nonneg position w) as Hnn.
  apply (sound_create_or_reuse_variable _ _ _ IH) in Hcallee; [|done..].
  apply new_FieldStatement_inv in Hnew as (Hk & Hown & Hid & Hs & Hn).
  eapply emit_statement in Hadd as (-> & Hst & Hpost); eauto.
  exists st, w1, [callee].
  do 4 (split; [by eauto|]). split; [simpl; by eauto|].
  split; [done|]. exact Hpost.
Qed.

Lemma append_generic_statement_step g d an :
  sound_option true
    (fun p => append_generic_statement INSTANCE cluster (S fuel) g p d an).
Proof.
  intros position w v w' Hp Hwf H. simpl in H.
  apply bind_returns in H as (p & w1 & Hpos & H).
  assert (p = position /\ w1 = w) as [-> ->].
  { destruct (Z.eqb_spec position (-1)); [lia|]. by injection Hpos. }
  destruct g; try discriminate;
    apply option_ret_returns in H as (v' & [= <-] & H).
  - apply (sound_add_constructor _ _ _ IH) in H; [|done].
    rewrite effective_position_id in H by done.
    by apply emitted_post in H.
  - apply (sound_add_method _ _ _ IH) in H; [|done].
    rewrite effective_position_id in H by done.
    by apply emitted_post in H.
  - apply (sound_add_function _ _ _ IH) in H; [|done].
    rewrite effective_position_id in H by done.
    by apply emitted_post in H.
  - apply (sound_add_field _ _ _ IH) in H; [|done].
    rewrite effective_position_id in H by done.
    by apply emitted_post in H.
Qed.

Lemma _attempt_generation_for_type_step d an gens :
  sound_option true
    (fun p =>
       _attempt_generation_for_type INSTANCE cluster (S fuel) p d an gens).
Proof.
  intros position w v w' Hp Hwf H. simpl in H.
  apply bind_returns in H as (g & w1 & Hc & H).
  apply choice_inv in Hc as [_ ->].
  apply (sound_append_generic_statement _ _ _ IH) in H; [|done..].
  by eapply post_start; [| |exact H].
Qed.

Lemma _attempt_generation_step t d an ex :
  sound_option true
    (fun p => _attempt_generation INSTANCE cluster (S fuel) t p d an ex).
Proof.
  intros position w v w' Hp Hwf H. simpl in H.
  destruct (truthy_type t); simpl in H; [|discriminate].
  destruct (is_primitive_type t).
  { apply option_ret_returns in H as (v' & [= <-] & H).
    by eapply _create_primitive_post. }
  destruct (nonempty _).
  { by apply (sound_attempt_generation_for_type _ _ _ IH) in H. }
  destruct an; [|discriminate].
  apply bind_returns in H as (x & w1 & Hf & H).
  apply next_float_inv in Hf as [-> ->].
  destruct (float_le _ _); [|discriminate].
  apply option_ret_returns in H as (v' & [= <-] & H).
  apply _create_none_post in H; [|done..].
  by eapply post_start; [| |exact H].
Qed.

Lemma _create_variable_step t d an ex :
  sound_option true
    (fun p => _create_variable INSTANCE cluster (S fuel) t p d an ex).
Proof.
  intros position w v w' Hp Hwf H. simpl in H.
  by apply (sound_attempt_generation _ _ _ IH) in H.
Qed.

Lemma _create_random_type_variable_step d an :
  sound_option false
    (fun p =>
       _create_random_type_variable INSTANCE cluster (S fuel) p d an).
Proof.
  intros position w v w' Hp Hwf H. simpl in H.
  apply bind_returns in H as (t & w1 & Hc & H).
  apply choice_inv in Hc as [_ ->].
  apply (sound_create_or_reuse_variable _ _ _ IH) in H; [|done..].
  by eapply post_start; [| |exact H].
Qed.

End Step2.

Section Step3.

Variable INSTANCE : Configuration.
Variable cluster : TestCluster.
Variable fuel : nat.
Hypothesis IH : engine_sound INSTANCE cluster fuel.

Lemma reuse_post (objects : list VariableReference) position w0 w v w' :
  wf_world w0 = true ->
  statements w = statements w0 -> next_id w = next_id w0 ->
  (forall x, x ∈ objects ->
     vr_id x ∈ take (Z.to_nat position) (ids (statements w0))) ->
  option_ret (choice objects) w = (Returns (Some v), w') ->
  post false position w0 [v] w'.
Proof.
  intros Hwf Hs Hn Hobj H.
  apply option_ret_returns in H as (v' & [= <-] & H).
  apply choice_inv in H as [Hin ->].
  apply (post_finish _ _ _ _ w0); [done..|].
  apply post_reuse; [done|].
  intros x Hx. apply list_elem_of_singleton in Hx as ->. by apply Hobj.
Qed.

Lemma fall_back_post t position d an ex
    (objects : list VariableReference) w0 w v w' :
  0 <= position -> wf_world w0 = true ->
  statements w = statements w0 -> next_id w = next_id w0 ->
  (forall x, x ∈ objects ->
     vr_id x ∈ take (Z.to_nat position) (ids (statements w0))) ->
  (created <-
     _create_variable INSTANCE cluster fuel t position d an ex ;;
   match created with
   | Some created => ret (Some created)
   | None =>
       if negb (nonempty objects)
       then
         fallback <- next_float ;;
         if float_le fallback (Qmake 85 100)
         then _create_random_type_variable INSTANCE cluster fuel position
                d an
         else if an
         then option_ret (_create_none t position d)
         else raise (ConstructionFailedException (NoObjectsForType t))
       else option_ret (choice objects)
   end) w = (Returns (Some v), w') ->
  post false position w0 [v] w'.
Proof.
  intros Hp Hwf Hs Hn Hobj H.
  assert (Hwfw : wf_world w = true) by by rewrite (wf_world_same w0 w).
  apply bind_returns in H as (created & w1 & Hc & H).
  destruct created as [created|].
  - injection H as <- <-.
    apply (sound_create_variable _ _ _ IH) in Hc; [|done..].
    apply post_weaken. by eapply post_start; [| |exact Hc].
  - apply _create_variable_none in Hc as [Hs1 Hn1].
    assert (Hwf1 : wf_world w1 = true).
    { rewrite (wf_world_same w0 w1); [done|congruence..]. }
    destruct (negb (nonempty objects)).
    + apply bind_returns in H as (x & w2 & Hf & H).
      apply next_float_inv in Hf as [-> ->].
      destruct (float_le _ _).
      * apply (sound_create_random_type_variable _ _ _ IH) in H;
          [|done..].
        eapply post_start; [| |exact H]; simpl; congruence.
      * destruct an; [|discriminate].
        apply option_ret_returns in H as (v' & [= <-] & H).
        apply _create_none_post in H; [|done..].
        apply post_weaken.
        eapply post_start; [| |exact H]; simpl; congruence.
    + eapply reuse_post; [exact Hwf| | |exact Hobj|exact H]; congruence.
Qed.

Lemma _create_or_reuse_variable_step t d an ex :
  sound_option false
    (fun p =>
       _create_or_reuse_variable INSTANCE cluster (S fuel) t p d an ex).
Proof.
  intros position w v w' Hp Hwf H. simpl in H.
  apply bind_returns in H as (t' & w1 & Hsel & H).
  apply select_from_union_inv in Hsel as [Hs1 Hn1].
  apply bind_returns in H as (reuse & w2 & Hf & H).
  apply next_float_inv in Hf as [-> ->].
  apply bind_returns in H as (objects & w2 & Hobj & H).
  apply get_objects_inv in Hobj as [-> Hobj]. simpl in Hobj.
  rewrite Hs1 in Hobj.
  destruct (_ && _ && float_le _ (primitive_reuse_probability _)).
  { eapply reuse_post; [exact Hwf| | |exact Hobj|exact H]; done. }
  destruct (_ && _ && float_le _ (object_reuse_probability _)).
  { eapply reuse_post; [exact Hwf| | |exact Hobj|exact H]; done. }
  apply bind_returns in H as (z & w3 & Hsz & H).
  apply size_inv in Hsz as [-> ->].
  destruct (_ && _ && negb (nonempty objects)).
  - apply bind_returns in H as (before & w3 & Hb & H).
    apply statements_before_inv in Hb as [-> Hb]; [|done].
    simpl in Hb. rewrite Hs1 in Hb.
    destruct (nonempty (map ret_val before)).
    + eapply reuse_post; [exact Hwf| | |exact Hb|exact H]; done.
    + eapply fall_back_post; [exact Hp|exact Hwf| | |exact Hobj|exact H];
        done.
  - eapply fall_back_post; [exact Hp|exact Hwf| | |exact Hobj|exact H];
      done.
Qed.

End Step3.

(** Every successful call of the factory, at any recursion budget, meets
    its postcondition. *)
Lemma engine_sound_all INSTANCE cluster fuel :
  engine_sound INSTANCE cluster fuel.
Proof.
  induction fuel as [|fuel IH].
  - split; intros; intros ?; intros; simpl in *;
      repeat match goal with
             | H : (if ?c then _ else _) _ = _ |- _ => destruct c
             end; discriminate.
  - split; intros.
    + by apply append_generic_statement_step.
    + by apply add_constructor_step.
    + by apply add_method_step.
    + by apply add_field_step.
    + by apply add_function_step.
    + by apply satisfy_parameters_step.
    + by apply _create_or_reuse_variable_step.
    + by apply _create_variable_step.
    + by apply _attempt_generation_step.
    + by apply _attempt_generation_for_type_step.
    + by apply _create_random_type_variable_step.
Qed.

(** ** Defining positions *)

Lemma find_position_in a l i idx :
  vr_id a ∈ take i (ids l) ->
  exists j, find_position a l idx = Returns (idx + j)%nat /\ (j < i)%nat.
Proof.
  revert i idx. induction l as [|st l IH]; intros i idx Hin.
  - simpl in Hin. rewrite take_nil in Hin. by apply elem_of_nil in Hin.
  - destruct i as [|i]; [by apply elem_of_nil in Hin|].
    simpl. unfold vr_eqb. destruct (Nat.eqb_spec (vr_id (ret_val st)) (vr_id a)).
    + exists 0%nat. split; [f_equal; lia|lia].
    + simpl in Hin. apply elem_of_cons in Hin as [Heq|Hin].
      { unfold ret_id in Heq. congruence. }
      destruct (IH i (S idx) Hin) as (j & Hj & Hlt).
      exists (S j). split; [|lia]. rewrite Hj. f_equal. lia.
Qed.

Lemma find_position_at a l1 st l2 idx :
  vr_id a ∉ ids l1 -> ret_id st = vr_id a ->
  find_position a (l1 ++ st :: l2) idx = Returns (idx + length l1)%nat.
Proof.
  revert idx. induction l1 as [|st1 l1 IH]; intros idx Hnot Hid; simpl.
  - unfold vr_eqb. fold (ret_id st). rewrite Hid, Nat.eqb_refl.
    f_equal. lia.
  - unfold vr_eqb. destruct (Nat.eqb_spec (vr_id (ret_val st1)) (vr_id a)).
    + exfalso. apply Hnot. simpl. apply elem_of_cons. left.
      unfold ret_id. congruence.
    + rewrite IH; [f_equal; lia| |done].
      intros Hin. apply Hnot. simpl. apply elem_of_cons. by right.
Qed.

Lemma find_position_sound a l idx j :
  find_position a l idx = Returns j ->
  exists j' st, j = (idx + j')%nat /\ l !! j' = Some st
    /\ ret_id st = vr_id a.
Proof.
  revert idx. induction l as [|st l IH]; intros idx H; [discriminate|].
  simpl in H. unfold vr_eqb in H.
  destruct (Nat.eqb_spec (vr_id (ret_val st)) (vr_id a)).
  - injection H as <-. exists 0%nat, st. split; [lia|]. by split.
  - apply IH in H as (j' & st' & -> & Hl & Hid).
    exists (S j'), st'. split; [lia|]. by split.
Qed.

Lemma order_ok_dependency_order l :
  order_ok [] l = true -> dependency_order l.
Proof.
  intros Hok i st a Hi Ha.
  assert (Hid : vr_id a ∈ owned_ids st).
  { unfold owned_ids. apply list_elem_of_fmap. by exists a. }
  destruct (owned_in_order _ _ _ _ _ Hok Hi Hid) as [Hin|Hin].
  - by apply elem_of_nil in Hin.
  - destruct (find_position_in a l i 0 Hin) as (j & Hj & Hlt).
    exists j. by split.
Qed.

Lemma order_ok_complete seen l :
  (forall i st a, l !! i = Some st -> a ∈ owned_ids st ->
     a ∈ seen \/ a ∈ take i (ids l)) ->
  order_ok seen l = true.
Proof.
  revert seen. induction l as [|st l IH]; intros seen H; [done|].
  simpl. apply andb_true_iff. split.
  - apply forallb_forall. intros a Ha. apply list_elem_of_In in Ha.
    apply bool_decide_eq_true.
    destruct (H 0%nat st a eq_refl Ha) as [Hin|Hin]; [done|].
    by apply elem_of_nil in Hin.
  - apply IH. intros i st' a Hi Ha.
    destruct (H (S i) st' a Hi Ha) as [Hin|Hin].
    + left. apply elem_of_cons. by right.
    + simpl in Hin. apply elem_of_cons in Hin as [->|Hin].
      * left. apply elem_of_cons. by left.
      * by right.
Qed.

Lemma dependency_order_order_ok l :
  dependency_order l -> order_ok [] l = true.
Proof.
  intros Hdep. apply order_ok_complete. intros i st a Hi Ha. right.
  unfold owned_ids in Ha. apply list_elem_of_fmap in Ha as (r & -> & Hr).
  destruct (Hdep i st r Hi Hr) as (j & Hj & Hlt).
  apply find_position_sound in Hj as (j' & st' & -> & Hl & <-).
  apply elem_of_take. exists j'. split; [|lia].
  unfold ids. change (@map Statement nat) with (@fmap list _ Statement nat).
  rewrite list_lookup_fmap, Hl. done.
Qed.

(** The well-formedness check says what it should: dependency order, and
    an allocator ahead of every reference defined in the test case. *)
Lemma wf_world_spec w :
  wf_world w = true <->
  dependency_order (statements w)
  /\ forall st, st ∈ statements w -> (ret_id st < next_id w)%nat.
Proof.
  rewrite wf_world_iff. split; intros [Ho Hf]; split.
  - by apply order_ok_dependency_order.
  - intros st Hst. apply Hf. unfold ids. apply list_elem_of_fmap. eauto.
  - by apply dependency_order_order_ok.
  - intros x Hx. unfold ids in Hx.
    apply list_elem_of_fmap in Hx as (st & -> & Hst). by apply Hf.
Qed.

(** ** The dependency order is preserved *)

Lemma emitted_positions op position w v w' :
  emitted op position w v w' ->
  exists i st,
    statements w' !! i = Some st
    /\ ret_val st = v
    /\ emitted_by op st
    /\ get_statement_position v (statements w') = Returns i
    /\ (forall a, a ∈ owned_references st ->
          exists j, get_statement_position a (statements w') = Returns j
                    /\ (j < i)%nat)
    /\ dependency_order (statements w')
    /\ wf_world w' = true.
Proof.
  intros (st & w1 & owned & Hown & Hrefs & Hid & Hv & Hem & Hst & Hpost).
  set (N := (Z.to_nat position
             + (length (statements w1) - length (statements w)))%nat) in *.
  assert (Hwf1 : wf_world w1 = true) by apply Hown.
  assert (Hwf' : wf_world w' = true) by apply Hpost.
  exists (length (take N (statements w1))), st.
  assert (Hl : statements w' = take N (statements w1) ++ st
                                 :: drop N (statements w1)) by exact Hst.
  split. { rewrite Hl. by apply list_lookup_middle. }
  split; [done|]. split; [done|]. split.
  { unfold get_statement_position. rewrite Hl.
    rewrite find_position_at; [done| |by rewrite <- Hv].
    rewrite <- Hv. fold (ret_id st). rewrite Hid. intros Hin.
    apply wf_world_iff in Hwf1 as [_ Hlt].
    assert (Hin' : next_id w1 ∈ ids (statements w1)).
    { unfold ids in *. apply list_elem_of_fmap in Hin as (s & Hs & Hin).
      apply list_elem_of_fmap. exists s. split; [done|].
      by eapply subseteq_take. }
    specialize (Hlt _ Hin'). lia. }
  split.
  { intros a Ha. rewrite Hrefs in Ha.
    destruct Hown as (_ & _ & _ & Hvis). destruct (Hvis a Ha) as [Hin _].
    fold N in Hin.
    apply (find_position_in a (statements w')
             (length (take N (statements w1))) 0).
    rewrite Hl. unfold ids. rewrite map_app.
    change (@map Statement nat) with (@fmap list _ Statement nat).
    rewrite take_app_length'; [|by rewrite length_fmap].
    by rewrite fmap_take. }
  split; [|done].
  apply order_ok_dependency_order. by apply wf_world_iff in Hwf' as [? _].
Qed.

(** C2: every statement [add_constructor], [add_method], [add_function] or
    [add_field] constructs successfully in a well-formed test case only
    owns references (arguments, callee, source) whose defining positions
    are strictly smaller than its own final position, and the whole test
    case is still in dependency order, however many statements the
    recursive construction of parameters inserted. *)
Theorem dependency_order_preserved INSTANCE cluster fuel op position
    recursion_depth allow_none w v w' :
  takes_recursion_depth op = true ->
  wf_world w = true ->
  run_add INSTANCE cluster fuel op position recursion_depth allow_none w
    = (Returns v, w') ->
  exists i st,
    statements w' !! i = Some st
    /\ ret_val st = v
    /\ emitted_by op st
    /\ get_statement_position v (statements w') = Returns i
    /\ (forall a, a ∈ owned_references st ->
          exists j, get_statement_position a (statements w') = Returns j
                    /\ (j < i)%nat)
    /\ dependency_order (statements w')
    /\ wf_world w' = true.
Proof.
  intros Hop Hwf H.
  pose proof (engine_sound_all INSTANCE cluster fuel) as Hs.
  apply (emitted_positions op (effective_position position w) w).
  destruct op; simpl in H; try discriminate.
  - by apply (sound_add_constructor _ _ _ Hs) in H.
  - by apply (sound_add_method _ _ _ Hs) in H.
  - by apply (sound_add_function _ _ _ Hs) in H.
  - by apply (sound_add_field _ _ _ Hs) in H.
Qed.

(** ** The recursion ceiling *)

(** C1 (amended): every [add_*] operation that takes a recursion depth
    raises the construction failure "max recursion depth reached" when the
    depth exceeds [max_recursion], and leaves the world as it was. *)
Theorem recursion_ceiling INSTANCE cluster fuel op position recursion_depth
    allow_none w :
  takes_recursion_depth op = true ->
  recursion_depth > max_recursion INSTANCE ->
  run_add INSTANCE cluster fuel op position recursion_depth allow_none w
    = (Raises (ConstructionFailedException MaxRecursionDepthReached), w).
Proof.
  intros Hop Hd.
  assert (Hgt : (recursion_depth >? max_recursion INSTANCE) = true).
  { apply Z.gtb_lt. lia. }
  destruct op; try discriminate; destruct fuel; simpl; by rewrite Hgt.
Qed.

Lemma recursion_ceiling_witness :
  run_add Examples.config Examples.cluster 5
    (AddMethod Examples.Foo_m) (-1) 11 true
    (Examples.one_int Examples.low)
  = (Raises (ConstructionFailedException MaxRecursionDepthReached),
     Examples.one_int Examples.low).
Proof.
  apply (recursion_ceiling Examples.config Examples.cluster 5
           (AddMethod Examples.Foo_m) (-1) 11 true
           (Examples.one_int Examples.low)).
  - reflexivity.
  - simpl. lia.
Defined.

(** [add_primitive] takes no recursion depth: it checks nothing and always
    inserts, so the claim does not hold of all five operations. *)
Lemma add_primitive_has_no_ceiling :
  ~ (forall INSTANCE cluster fuel op position recursion_depth allow_none w,
       recursion_depth > max_recursion INSTANCE ->
       exists msg,
         run_add INSTANCE cluster fuel op position recursion_depth
           allow_none w
         = (Raises (ConstructionFailedException msg), w)).
Proof.
  intros H.
  destruct (H Examples.config Examples.cluster 5%nat
              (AddPrimitive Examples.int_literal) (-1) 11 true
              (Examples.empty_world Examples.low)) as [msg Hmsg].
  - simpl. lia.
  - discriminate Hmsg.
Qed.

(** ** Floats drawn from the generator *)

Lemma float_of_draw_below_one r p :
  (p == 1)%Q -> float_le (float_of_draw r) p = true.
Proof.
  intros Hp. unfold float_le. apply Qle_bool_iff. rewrite Hp.
  unfold float_of_draw, Qle. simpl.
  assert (H : (r mod 2 ^ 53 < 2 ^ 53)%N) by (apply N.mod_lt; discriminate).
  change (Z.pos (2 ^ 53)) with (Z.of_N (2 ^ 53)). lia.
Qed.


(** ** Reuse *)

Lemma next_float_run w :
  next_float w = (Returns (float_of_draw (rng w 0%nat)), advance w).
Proof. reflexivity. Qed.

Lemma size_run w : size w = (Returns (Z.of_nat (length (statements w))), w).
Proof. reflexivity. Qed.

Lemma get_objects_run t position w :
  get_objects t position w = (Returns (visible_objects t position w), w).
Proof. reflexivity. Qed.

Lemma visible_objects_same t position w w' :
  statements w' = statements w ->
  visible_objects t position w' = visible_objects t position w.
Proof. unfold visible_objects, get_objects. simpl. by intros ->. Qed.

Lemma nonempty_true {A} (l : list A) : l <> [] -> nonempty l = true.
Proof. by destruct l. Qed.

(** C6 (amended): when reuse is certain and an object of the resolved type
    (the requested type, or for a [Union] the arm that was drawn) is
    visible before the position, reuse-or-create returns one of these
    objects and leaves the test case as it was. *)
Theorem certain_reuse_constructs_nothing INSTANCE cluster fuel
    parameter_type position recursion_depth allow_none exclude w
    resolved w1 :
  resolve_union parameter_type w = (Returns resolved, w1) ->
  visible_objects resolved position w <> [] ->
  (is_primitive_type resolved = true ->
   (primitive_reuse_probability INSTANCE == 1)%Q) ->
  (is_primitive_type resolved = false ->
   (object_reuse_probability INSTANCE == 1)%Q) ->
  exists v w',
    _create_or_reuse_variable INSTANCE cluster (S fuel) parameter_type
      position recursion_depth allow_none exclude w
    = (Returns (Some v), w')
    /\ v ∈ visible_objects resolved position w
    /\ statements w' = statements w
    /\ next_id w' = next_id w.
Proof.
  intros Hsel Hobj Hprim Hnon.
  pose proof (select_from_union_inv _ _ _ _ Hsel) as [Hs1 Hn1].
  set (objects := visible_objects resolved position w) in *.
  assert (Hobjects : visible_objects resolved position (advance w1)
                     = objects).
  { by apply visible_objects_same. }
  destruct (choice_nonempty objects (advance w1) Hobj) as (v & Hv & Hc).
  exists v, (advance (advance w1)).
  split; [|by split].
  simpl. fold (resolve_union parameter_type).
  rewrite (bind_run _ _ _ _ _ Hsel).
  rewrite (bind_run _ _ _ _ _ (next_float_run w1)).
  rewrite (bind_run _ _ _ _ _ (get_objects_run resolved position _)).
  rewrite Hobjects, (nonempty_true objects Hobj).
  destruct (is_primitive_type resolved) eqn:Hp; simpl.
  - rewrite float_of_draw_below_one by auto.
    unfold option_ret. by rewrite (bind_run _ _ _ _ _ Hc).
  - rewrite float_of_draw_below_one by auto.
    unfold option_ret. by rewrite (bind_run _ _ _ _ _ Hc).
Qed.

Lemma certain_reuse_constructs_nothing_witness :
  exists v w',
    _create_or_reuse_variable Examples.certain_reuse Examples.cluster 3
      (Union [py_int; Examples.Foo]) 1 0 true None
      (Examples.one_int Examples.low)
    = (Returns (Some v), w')
    /\ v ∈ visible_objects (Concrete py_int) 1
             (Examples.one_int Examples.low)
    /\ statements w' = statements (Examples.one_int Examples.low)
    /\ next_id w' = next_id (Examples.one_int Examples.low).
Proof.
  apply (certain_reuse_constructs_nothing Examples.certain_reuse
           Examples.cluster 2 (Union [py_int; Examples.Foo]) 1 0 true None
           (Examples.one_int Examples.low) (Concrete py_int)
           (advance (Examples.one_int Examples.low))).
  - reflexivity.
  - discriminate.
  - reflexivity.
  - reflexivity.
Defined.

(** With a [Union] requested, the arm drawn decides which objects count.
    Reuse is certain in both runs.  In the first an object recorded with
    that very [Union] type is visible, the arm [int] is drawn, and a new
    [int] literal is constructed; in the second an [int] is visible, the
    arm [Foo] is drawn, and a new [Foo] is constructed. *)
Lemma certain_reuse_misses_union :
  (primitive_reuse_probability Examples.certain_reuse == 1)%Q
  /\ (object_reuse_probability Examples.certain_reuse == 1)%Q
  /\ (forall fuel,
        let w := Examples.one_union Examples.low in
        let run :=
          _create_or_reuse_variable Examples.certain_reuse Examples.cluster
            (3 + fuel) Examples.int_or_Foo 1 0 true None w in
        visible_objects Examples.int_or_Foo 1 w
        = [mkVariableReference 0 Examples.int_or_Foo 0]
        /\ fst run
           = Returns (Some (mkVariableReference 1 (Concrete py_int) 0))
        /\ length (statements (snd run)) = 2%nat
        /\ length (statements w) = 1%nat)
  /\ (forall fuel,
        let w := Examples.one_int Examples.ones in
        let run :=
          _create_or_reuse_variable Examples.certain_reuse Examples.cluster
            (7 + fuel) Examples.int_or_Foo 1 0 true None w in
        visible_objects (Concrete py_int) 1 w
        = [mkVariableReference 0 (Concrete py_int) 0]
        /\ fst run
           = Returns (Some (mkVariableReference 1 (Concrete Examples.Foo)
                              0))
        /\ length (statements (snd run)) = 2%nat
        /\ length (statements w) = 1%nat).
Proof.
  split; [reflexivity|]. split; [reflexivity|].
  split; intros fuel; vm_compute; by repeat split.
Qed.

(** ** The fallback chain *)

Lemma statements_before_run position w :
  statements_before position w
  = (Returns (slice_to position (statements w)), w).
Proof. reflexivity. Qed.

(** The fallback chain of reuse-or-create, run from the point where fresh
    construction has yielded no value. *)
Lemma fall_back_run INSTANCE cluster fuel parameter_type position
    recursion_depth allow_none exclude w resolved w1 w2 :
  resolve_union parameter_type w = (Returns resolved, w1) ->
  visible_objects resolved position w = [] ->
  (is_none_value resolved = true -> slice_to position (statements w) = []) ->
  _create_variable INSTANCE cluster fuel resolved position recursion_depth
    allow_none exclude (advance w1) = (Returns None, w2) ->
  _create_or_reuse_variable INSTANCE cluster (S fuel) parameter_type
    position recursion_depth allow_none exclude w
  = (if float_le (float_of_draw (rng w2 0%nat)) (Qmake 85 100)
     then _create_random_type_variable INSTANCE cluster fuel position
            recursion_depth allow_none (advance w2)
     else if allow_none
     then option_ret (_create_none resolved position recursion_depth)
            (advance w2)
     else (Raises (ConstructionFailedException (NoObjectsForType resolved)),
           advance w2)).
Proof.
  intros Hsel Hobj Hnone Hcreate.
  pose proof (select_from_union_inv _ _ _ _ Hsel) as [Hs1 Hn1].
  assert (Hobjects : visible_objects resolved position (advance w1) = []).
  { rewrite <- Hobj. by apply visible_objects_same. }
  simpl. fold (resolve_union parameter_type).
  rewrite (bind_run _ _ _ _ _ Hsel).
  rewrite (bind_run _ _ _ _ _ (next_float_run w1)).
  rewrite (bind_run _ _ _ _ _ (get_objects_run resolved position _)).
  rewrite Hobjects. cbn [nonempty negb]. rewrite !andb_false_r. cbn [andb].
  rewrite (bind_run _ _ _ _ _ (size_run _)).
  assert (Hfall :
    (created <-
       _create_variable INSTANCE cluster fuel resolved position
         recursion_depth allow_none exclude ;;
     match created with
     | Some created => ret (Some created)
     | None =>
         fallback <- next_float ;;
         if float_le fallback (Qmake 85 100)
         then _create_random_type_variable INSTANCE cluster fuel position
                recursion_depth allow_none
         else if allow_none
         then option_ret (_create_none resolved position recursion_depth)
         else raise (ConstructionFailedException (NoObjectsForType resolved))
     end) (advance w1)
    = (if float_le (float_of_draw (rng w2 0%nat)) (Qmake 85 100)
       then _create_random_type_variable INSTANCE cluster fuel position
              recursion_depth allow_none (advance w2)
       else if allow_none
       then option_ret (_create_none resolved position recursion_depth)
              (advance w2)
       else (Raises (ConstructionFailedException
                       (NoObjectsForType resolved)), advance w2))).
  { rewrite (bind_run _ _ _ _ _ Hcreate).
    rewrite (bind_run _ _ _ _ _ (next_float_run w2)).
    destruct (float_le _ _); [done|]. by destruct allow_none. }
  destruct ((_ >? 0) && is_none_value resolved && true) eqn:Hcond.
  - rewrite (bind_run _ _ _ _ _ (statements_before_run position _)).
    change (statements (advance w1)) with (statements w1).
    rewrite Hs1, Hnone; [exact Hfall|].
    rewrite andb_true_r in Hcond. by apply andb_true_iff in Hcond as [_ ?].
  - exact Hfall.
Qed.

(** ** A type nothing can produce *)

(** C3 (amended): for a declared non-primitive class with no generator and
    no visible object, requested with [allow_none=False], the call raises
    "no objects for type" and leaves the test case as it was whenever the
    fallback float exceeds 0.85. *)
Theorem unproducible_type_fails INSTANCE cluster fuel c position
    recursion_depth exclude w :
  is_primitive_type (Concrete c) = false ->
  get_generators_for cluster (Concrete c) = [] ->
  visible_objects (Concrete c) position w = [] ->
  float_le (float_of_draw (rng w 1%nat)) (Qmake 85 100) = false ->
  exists w',
    _create_or_reuse_variable INSTANCE cluster (S (S (S fuel))) (Concrete c)
      position recursion_depth false exclude w
    = (Raises (ConstructionFailedException (NoObjectsForType (Concrete c))),
       w')
    /\ statements w' = statements w
    /\ next_id w' = next_id w.
Proof.
  intros Hprim Hgen Hobj Hdraw.
  exists (advance (advance w)). split; [|by split].
  assert (Hcreate :
    _create_variable INSTANCE cluster (S (S fuel)) (Concrete c) position
      recursion_depth false exclude (advance w) = (Returns None, advance w)).
  { simpl. by rewrite Hprim, Hgen. }
  rewrite (fall_back_run INSTANCE cluster (S (S fuel)) (Concrete c)
             position recursion_depth false exclude w (Concrete c) w
             (advance w) eq_refl Hobj ltac:(discriminate) Hcreate).
  change (rng (advance w) 0%nat) with (rng w 1%nat). by rewrite Hdraw.
Qed.

Lemma unproducible_type_fails_witness :
  exists w',
    _create_or_reuse_variable Examples.config Examples.cluster 3
      (Concrete Examples.Bar) 1 0 false None
      (Examples.one_int Examples.high)
    = (Raises (ConstructionFailedException
                 (NoObjectsForType (Concrete Examples.Bar))), w')
    /\ statements w' = statements (Examples.one_int Examples.high)
    /\ next_id w' = next_id (Examples.one_int Examples.high).
Proof.
  apply (unproducible_type_fails Examples.config Examples.cluster 0
           Examples.Bar 1 0 None (Examples.one_int Examples.high));
    reflexivity.
Defined.

(** With the fallback float at most 0.85 the same request is answered by a
    value of a randomly drawn known type: no failure, and the test case
    grows.  A primitive type has no generator in the catalog either, and is
    simply synthesized. *)
Lemma unproducible_type_may_succeed :
  (get_generators_for Examples.empty_cluster (Concrete Examples.Bar) = []
   /\ visible_objects (Concrete Examples.Bar) 0
        (Examples.empty_world Examples.low) = []
   /\ forall fuel,
        let run :=
          _create_or_reuse_variable Examples.config Examples.empty_cluster
            (5 + fuel) (Concrete Examples.Bar) 0 0 false None
            (Examples.empty_world Examples.low) in
        fst run
        = Returns (Some (mkVariableReference 0 (Concrete py_int) 1))
        /\ length (statements (snd run)) = 1%nat
        /\ length (statements (Examples.empty_world Examples.low)) = 0%nat)
  /\ (get_generators_for Examples.empty_cluster (Concrete py_str) = []
      /\ visible_objects (Concrete py_str) 0
           (Examples.empty_world Examples.high) = []
      /\ forall fuel,
           let run :=
             _create_or_reuse_variable Examples.config
               Examples.empty_cluster (3 + fuel) (Concrete py_str) 0 0
               false None (Examples.empty_world Examples.high) in
           fst run
           = Returns (Some (mkVariableReference 0 (Concrete py_str) 0))
           /\ length (statements (snd run)) = 1%nat).
Proof.
  split; (split; [reflexivity|]); (split; [reflexivity|]);
    intros fuel; vm_compute; by repeat split.
Qed.

(** Reuse-or-create never comes back empty-handed: it returns a reference
    or raises. *)
Lemma reuse_or_create_some INSTANCE cluster fuel :
  (forall t p d an ex w o w',
     _create_or_reuse_variable INSTANCE cluster fuel t p d an ex w
     = (Returns o, w') -> exists v, o = Some v)
  /\ (forall p d an w o w',
        _create_random_type_variable INSTANCE cluster fuel p d an w
        = (Returns o, w') -> exists v, o = Some v).
Proof.
  induction fuel as [|fuel [IHc IHr]]; [split; intros; discriminate|].
  split.
  - intros t p d an ex w o w' H. simpl in H.
    apply bind_returns in H as (t' & w1 & _ & H).
    apply bind_returns in H as (reuse & w2 & _ & H).
    apply bind_returns in H as (objects & w3 & _ & H).
    assert (Hfall : forall w4 : World,
      (created <-
         _create_variable INSTANCE cluster fuel t' p d an ex ;;
       match created with
       | Some created => ret (Some created)
       | None =>
           if negb (nonempty objects)
           then
             fallback <- next_float ;;
             if float_le fallback (Qmake 85 100)
             then _create_random_type_variable INSTANCE cluster fuel p d an
             else if an
             then option_ret (_create_none t' p d)
             else raise (ConstructionFailedException (NoObjectsForType t'))
           else option_ret (choice objects)
       end) w4 = (Returns o, w') -> exists v, o = Some v).
    { intros w4 H4.
      apply bind_returns in H4 as (created & w5 & _ & H4).
      destruct created as [created|].
      { injection H4 as <- _. eauto. }
      destruct (negb (nonempty objects)).
      - apply bind_returns in H4 as (x & w6 & _ & H4).
        destruct (float_le x _); [eapply IHr; eassumption|].
        destruct an; [|discriminate].
        apply option_ret_returns in H4 as (v & -> & _). eauto.
      - apply option_ret_returns in H4 as (v & -> & _). eauto. }
    destruct (_ && _ && float_le _ (primitive_reuse_probability _)).
    { apply option_ret_returns in H as (v & -> & _). eauto. }
    destruct (_ && _ && float_le _ (object_reuse_probability _)).
    { apply option_ret_returns in H as (v & -> & _). eauto. }
    apply bind_returns in H as (z & w4 & _ & H).
    destruct (_ && _ && negb (nonempty objects));
      [|eapply Hfall; eassumption].
    apply bind_returns in H as (before & w5 & _ & H).
    destruct (nonempty (map ret_val before)); [|eapply Hfall; eassumption].
    apply option_ret_returns in H as (v & -> & _). eauto.
  - intros p d an w o w' H. simpl in H.
    apply bind_returns in H as (t & w1 & _ & H).
    eapply IHc; eassumption.
Qed.

Lemma _create_or_reuse_variable_some INSTANCE cluster fuel t p d an ex w o
    w' :
  _create_or_reuse_variable INSTANCE cluster fuel t p d an ex w
  = (Returns o, w') -> exists v, o = Some v.
Proof. apply reuse_or_create_some. Qed.

(** ** The loop of [satisfy_parameters] *)

Lemma position_run position w :
  (if position <? 0 then size else ret position) w
  = (Returns (effective_position position w), w).
Proof. unfold effective_position. by destruct (position <? 0). Qed.

Lemma satisfy_parameters_unfold INSTANCE cluster fuel params callee position
    d an reuse w :
  satisfy_parameters INSTANCE cluster (S fuel) params callee position d an
    reuse w
  = satisfy_loop (resolver INSTANCE cluster fuel callee d an reuse) params
      (effective_position position w) [] w.
Proof. simpl. by rewrite (bind_run _ _ _ _ _ (position_run position w)). Qed.

Lemma satisfy_loop_returns resolve items position parameters w vs w' :
  satisfy_loop resolve items position parameters w = (Returns vs, w') <->
  exists vars position',
    vs = parameters ++ vars
    /\ resolved_in_order resolve items position w vars position' w'.
Proof.
  revert position parameters w.
  induction items as [|[name t] items IH]; intros position acc w; simpl.
  - split.
    + intros [= <- <-]. exists [], position. rewrite app_nil_r.
      split; [done|constructor].
    + intros (vars & p' & -> & Hres). inversion Hres; subst.
      by rewrite app_nil_r.
  - split.
    + intros H.
      apply bind_returns in H as (z & w1 & Hsz & H).
      apply size_inv in Hsz as [-> ->].
      apply bind_returns in H as (var & w1 & Hr & H).
      destruct var as [var|]; [|discriminate].
      apply bind_returns in H as (z & w2 & Hsz & H).
      apply size_inv in Hsz as [-> ->].
      apply IH in H as (vars & p' & -> & Hres).
      exists (var :: vars), p'. rewrite <- app_assoc. split; [done|].
      econstructor; eauto.
    + intros (vars & p' & -> & Hres).
      inversion Hres as [|? ? ? ? ? var w1 vars' ? ? Hr Hrest]; subst.
      rewrite (bind_run _ _ _ _ _ (size_run w)).
      rewrite (bind_run _ _ _ _ _ Hr).
      rewrite (bind_run _ _ _ _ _ (size_run w1)).
      apply IH. exists vars', p'. rewrite <- app_assoc. by split.
Qed.

Lemma satisfy_loop_prefix resolve done rest position parameters w vars
    position1 w1 :
  resolved_in_order resolve done position w vars position1 w1 ->
  satisfy_loop resolve (done ++ rest) position parameters w
  = satisfy_loop resolve rest position1 (parameters ++ vars) w1.
Proof.
  intros Hres. revert parameters.
  induction Hres as [p w|name t items p w var w1 vars p' w' Hr Hres IH];
    intros acc; simpl.
  - by rewrite app_nil_r.
  - rewrite (bind_run _ _ _ _ _ (size_run w)).
    rewrite (bind_run _ _ _ _ _ Hr).
    rewrite (bind_run _ _ _ _ _ (size_run w1)).
    rewrite IH. by rewrite <- app_assoc.
Qed.

Lemma resolved_in_order_length resolve items position w vars position' w' :
  resolved_in_order resolve items position w vars position' w' ->
  length vars = length items.
Proof. induction 1; simpl; congruence. Qed.

(** C4 (amended): [satisfy_parameters] returns exactly when every
    parameter, taken in declaration order, was resolved to a reference,
    and then returns these references in that order, one per parameter.
    If, after the parameters before it were resolved, a parameter yields no
    value, the call raises the construction failure naming that
    parameter's type and the current position; if its resolution raises,
    that exception is raised as it is; in neither case is a list returned.
    Reuse-or-create never yields no value, so the failure naming type and
    position only arises under forced creation. *)
Theorem satisfy_parameters_all_or_nothing INSTANCE cluster fuel params
    callee position recursion_depth allow_none can_reuse w :
  let resolve :=
    resolver INSTANCE cluster fuel callee recursion_depth allow_none
      can_reuse in
  let start := effective_position position w in
  let run :=
    satisfy_parameters INSTANCE cluster (S fuel) params callee position
      recursion_depth allow_none can_reuse w in
  (forall vs w',
     run = (Returns vs, w') <->
     exists position',
       resolved_in_order resolve params start w vs position' w')
  /\ (forall vs w', run = (Returns vs, w') -> length vs = length params)
  /\ (forall done name t rest vars position1 w1 w2,
        params = done ++ (name, t) :: rest ->
        resolved_in_order resolve done start w vars position1 w1 ->
        resolve t position1 w1 = (Returns None, w2) ->
        run = (Raises (ConstructionFailedException
                         (FailedToCreateVariable t position1)), w2))
  /\ (forall done name t rest vars position1 w1 e w2,
        params = done ++ (name, t) :: rest ->
        resolved_in_order resolve done start w vars position1 w1 ->
        resolve t position1 w1 = (Raises e, w2) ->
        run = (Raises e, w2))
  /\ (can_reuse = true ->
      forall t position1 w1 w2,
        resolve t position1 w1 <> (Returns None, w2)).
Proof.
  intros resolve start run.
  assert (Hrun : run = satisfy_loop resolve params start [] w)
    by apply satisfy_parameters_unfold.
  assert (Hiff : forall vs w',
    run = (Returns vs, w') <->
    exists position',
      resolved_in_order resolve params start w vs position' w').
  { intros vs w'. rewrite Hrun, satisfy_loop_returns. split.
    - intros (vars & p' & -> & H). eauto.
    - intros (p' & H). exists vs, p'. by split. }
  split; [exact Hiff|]. split; [|split; [|split]].
  - intros vs w' H. apply Hiff in H as (p' & H).
    by eapply resolved_in_order_length.
  - intros done name t rest vars p1 w1 w2 -> Hres Hnone.
    rewrite Hrun, (satisfy_loop_prefix _ _ _ _ _ _ _ _ _ Hres). simpl.
    rewrite (bind_run _ _ _ _ _ (size_run w1)).
    by rewrite (bind_run _ _ _ _ _ Hnone).
  - intros done name t rest vars p1 w1 e w2 -> Hres Hraise.
    rewrite Hrun, (satisfy_loop_prefix _ _ _ _ _ _ _ _ _ Hres). simpl.
    rewrite (bind_run _ _ _ _ _ (size_run w1)).
    by rewrite (bind_raises _ _ _ _ _ Hraise).
  - intros -> t p1 w1 w2 H. unfold resolve, resolver in H.
    by apply _create_or_reuse_variable_some in H as [v Hv].
Qed.

(** In the default mode an unsatisfiable parameter surfaces as the
    failure "no objects for type", which names no position. *)
Lemma satisfy_parameters_failure_names_no_position :
  (forall fuel,
     satisfy_parameters Examples.config Examples.cluster (4 + fuel)
       [("b"%string, Concrete Examples.Bar)] None 0 1 false true
       (Examples.one_int Examples.high)
     = (Raises (ConstructionFailedException
                  (NoObjectsForType (Concrete Examples.Bar))),
        Examples.one_int Examples.high))
  /\ forall t position,
       ConstructionFailedException (NoObjectsForType (Concrete Examples.Bar))
       <> ConstructionFailedException (FailedToCreateVariable t position).
Proof. split; [intros fuel; by vm_compute|discriminate]. Qed.

Lemma satisfy_parameters_all_or_nothing_witness :
  (forall vs w',
     satisfy_parameters Examples.config Examples.cluster 8
       [("x"%string, Concrete py_int); ("y"%string, Concrete Examples.Foo)]
       None (-1) 1 true true (Examples.empty_world Examples.high)
     = (Returns vs, w') -> length vs = 2%nat)
  /\ satisfy_parameters Examples.config Examples.cluster 8
       [("x"%string, Concrete py_int); ("b"%string, Concrete Examples.Bar)]
       None (-1) 1 false false (Examples.empty_world Examples.high)
     = (Raises (ConstructionFailedException
                  (FailedToCreateVariable (Concrete Examples.Bar) 1)),
        mkWorld
          [mkStatement (IntPrimitiveStatement (2 ^ 53 - 1))
             (mkVariableReference 0 (Concrete py_int) 1) []]
          1 (fun _ => (2 ^ 53 - 1)%N)).
Proof.
  split.
  - exact (proj1 (proj2 (satisfy_parameters_all_or_nothing Examples.config
             Examples.cluster 7
             [("x"%string, Concrete py_int);
              ("y"%string, Concrete Examples.Foo)]
             None (-1) 1 true true (Examples.empty_world Examples.high)))).
  - refine (proj1 (proj2 (proj2 (satisfy_parameters_all_or_nothing
             Examples.config Examples.cluster 7
             [("x"%string, Concrete py_int);
              ("b"%string, Concrete Examples.Bar)]
             None (-1) 1 false false (Examples.empty_world Examples.high))))
             [("x"%string, Concrete py_int)] "b"%string
             (Concrete Examples.Bar) []
             [mkVariableReference 0 (Concrete py_int) 1] 1 _ _ eq_refl _ _).
    + eapply resolved_cons; [reflexivity|]. apply resolved_nil.
    + reflexivity.
Defined.

(** ** Failures at the constructor boundary and elsewhere *)

Lemma try_except_raises {A} (m : M A) (wrap : exn -> exn) w e w' :
  try_except m (fun exception => raise (wrap exception)) w = (Raises e, w')
  -> exists cause, m w = (Raises cause, w') /\ e = wrap cause.
Proof.
  unfold try_except, raise.
  destruct (m w) as [[a|cause|] w1]; try discriminate.
  intros [= <- <-]. eauto.
Qed.

Lemma constructor_body_raises c parameters_of position length w e w' :
  (parameters <- parameters_of ;;
   new_length <- size ;;
   statement <- new_ConstructorStatement c parameters ;;
   add_statement statement (position + new_length - length)) w
  = (Raises e, w') ->
  parameters_of w = (Raises e, w').
Proof.
  unfold bind at 1.
  destruct (parameters_of w) as [[ps|cause|] w1]; intros H;
    [exfalso|by injection H as -> ->|discriminate H].
  cbv [bind size new_ConstructorStatement new_reference add_statement ret]
    in H.
  discriminate H.
Qed.

(** C7: within the recursion ceiling, a failure of [add_constructor] is
    always the failure of its own parameter satisfaction, re-raised as a
    construction failure that names the constructor and the cause;
    [add_method], [add_function] and [add_field] raise the failure of
    their callee or parameter resolution as it is. *)
Theorem failure_containment INSTANCE cluster fuel position recursion_depth
    allow_none w :
  recursion_depth <= max_recursion INSTANCE ->
  let start := effective_position position w in
  let satisfy items :=
    satisfy_parameters INSTANCE cluster fuel items None start
      (recursion_depth + 1) allow_none true in
  let receiver owner receiver_allow_none :=
    _create_or_reuse_variable INSTANCE cluster fuel (Concrete owner) start
      recursion_depth receiver_allow_none None in
  (forall c cause w1,
     satisfy (parameters (constructor_signature c)) w = (Raises cause, w1) ->
     add_constructor INSTANCE cluster (S fuel) c position recursion_depth
       allow_none w
     = (Raises (ConstructionFailedException
                  (FailedToAddConstructor c cause)), w1))
  /\ (forall c e w1,
        add_constructor INSTANCE cluster (S fuel) c position
          recursion_depth allow_none w = (Raises e, w1) ->
        exists cause,
          e = ConstructionFailedException (FailedToAddConstructor c cause)
          /\ satisfy (parameters (constructor_signature c)) w
             = (Raises cause, w1))
  /\ (forall m e w1,
        receiver (method_owner m) true w = (Raises e, w1) ->
        add_method INSTANCE cluster (S fuel) m position recursion_depth
          allow_none w = (Raises e, w1))
  /\ (forall m callee w1 e w2,
        receiver (method_owner m) true w = (Returns (Some callee), w1) ->
        satisfy (parameters (method_signature m)) w1 = (Raises e, w2) ->
        add_method INSTANCE cluster (S fuel) m position recursion_depth
          allow_none w = (Raises e, w2))
  /\ (forall f e w1,
        satisfy (parameters (function_signature f)) w = (Raises e, w1) ->
        add_function INSTANCE cluster (S fuel) f position recursion_depth
          allow_none w = (Raises e, w1))
  /\ (forall f e w1,
        receiver (field_owner f) false w = (Raises e, w1) ->
        add_field INSTANCE cluster (S fuel) f position recursion_depth w
        = (Raises e, w1)).
Proof.
  intros Hd start satisfy receiver.
  assert (Hle : (recursion_depth >? max_recursion INSTANCE) = false).
  { rewrite Z.gtb_ltb. apply Z.ltb_ge. lia. }
  repeat split.
  - intros c cause w1 Hsat. simpl. rewrite Hle.
    rewrite (bind_run _ _ _ _ _ (position_run position w)).
    rewrite (bind_run _ _ _ _ _ (size_run w)).
    unfold try_except.
    by rewrite (bind_raises _ _ _ _ _ Hsat).
  - intros c e w1 H. simpl in H. rewrite Hle in H.
    rewrite (bind_run _ _ _ _ _ (position_run position w)) in H.
    rewrite (bind_run _ _ _ _ _ (size_run w)) in H.
    apply (try_except_raises _
             (fun exception => ConstructionFailedException
                                 (FailedToAddConstructor c exception)))
      in H as (cause & Hbody & ->).
    exists cause. split; [done|].
    by apply constructor_body_raises in Hbody.
  - intros m e w1 Hrec. simpl. rewrite Hle.
    rewrite (bind_run _ _ _ _ _ (position_run position w)).
    rewrite (bind_run _ _ _ _ _ (size_run w)).
    by rewrite (bind_raises _ _ _ _ _ Hrec).
  - intros m callee w1 e w2 Hrec Hsat. simpl. rewrite Hle.
    rewrite (bind_run _ _ _ _ _ (position_run position w)).
    rewrite (bind_run _ _ _ _ _ (size_run w)).
    rewrite (bind_run _ _ _ _ _ Hrec).
    by rewrite (bind_raises _ _ _ _ _ Hsat).
  - intros f e w1 Hsat. simpl. rewrite Hle.
    rewrite (bind_run _ _ _ _ _ (position_run position w)).
    rewrite (bind_run _ _ _ _ _ (size_run w)).
    by rewrite (bind_raises _ _ _ _ _ Hsat).
  - intros f e w1 Hrec. simpl. rewrite Hle.
    rewrite (bind_run _ _ _ _ _ (position_run position w)).
    rewrite (bind_run _ _ _ _ _ (size_run w)).
    by rewrite (bind_raises _ _ _ _ _ Hrec).
Qed.

Lemma failure_containment_witness :
  let w := Examples.one_int Examples.high in
  let w2 :=
    mkWorld
      [mkStatement (ConstructorStatement Examples.Foo_init)
         (mkVariableReference 1 (Concrete Examples.Foo) 0) [];
       Examples.int_literal] 2 Examples.high in
  let no_Bar :=
    ConstructionFailedException (NoObjectsForType (Concrete Examples.Bar)) in
  add_constructor Examples.config Examples.cluster 8 Examples.Bar_user 0 0
    false w
  = (Raises (ConstructionFailedException
               (FailedToAddConstructor Examples.Bar_user no_Bar)), w)
  /\ add_function Examples.config Examples.cluster 8 Examples.needs_Bar 0 0
       false w
     = (Raises no_Bar, w)
  /\ add_field Examples.config Examples.cluster 8 Examples.Bar_field 0 0 w
     = (Raises no_Bar, w)
  /\ add_method Examples.config Examples.cluster 8 Examples.Foo_n 0 0 false w
     = (Raises no_Bar, w2).
Proof.
  intros w w2 no_Bar.
  destruct (failure_containment Examples.config Examples.cluster 7 0 0 false
              w ltac:(simpl; lia))
    as (Hconstructor & _ & _ & Hmethod & Hfunction & Hfield).
  split; [|split; [|split]].
  - apply (Hconstructor Examples.Bar_user no_Bar w). vm_compute. reflexivity.
  - apply (Hfunction Examples.needs_Bar no_Bar w). vm_compute. reflexivity.
  - apply (Hfield Examples.Bar_field no_Bar w). vm_compute. reflexivity.
  - apply (Hmethod Examples.Foo_n
             (mkVariableReference 1 (Concrete Examples.Foo) 0) w2 no_Bar w2);
      vm_compute; reflexivity.
Defined.

(** ** Forced creation *)

(** C8: when [satisfy_parameters] may not reuse existing variables and
    returns, every returned reference is the return value of a statement
    of the resulting test case, and no statement of the test case before
    the call defined or owned it: its statement was inserted during the
    call. *)
Theorem forced_creation_is_fresh INSTANCE cluster fuel params callee
    position recursion_depth allow_none w vs w' :
  wf_world w = true ->
  satisfy_parameters INSTANCE cluster fuel params callee position
    recursion_depth allow_none false w = (Returns vs, w') ->
  forall v, v ∈ vs ->
    (exists st, st ∈ statements w' /\ vr_id (ret_val st) = vr_id v)
    /\ (forall st, st ∈ statements w ->
          vr_id (ret_val st) <> vr_id v
          /\ forall a, a ∈ owned_references st -> vr_id a <> vr_id v).
Proof.
  intros Hwf H v Hv.
  pose proof (engine_sound_all INSTANCE cluster fuel) as Hs.
  apply (sound_satisfy_parameters _ _ _ Hs) in H; [|done].
  destruct H as (_ & _ & _ & Hvis). destruct (Hvis v Hv) as [Hin Hfresh].
  specialize (Hfresh eq_refl). split.
  - apply subseteq_take in Hin. unfold ids in Hin.
    apply list_elem_of_fmap in Hin as (st & Hid & Hst). eauto.
  - apply wf_world_iff in Hwf as [Hord Hlt].
    intros st Hst.
    assert (Hst' : ret_id st ∈ ids (statements w)).
    { unfold ids. apply list_elem_of_fmap. eauto. }
    split.
    + specialize (Hlt _ Hst'). unfold ret_id in Hlt. lia.
    + intros a Ha. apply list_elem_of_lookup in Hst as [i Hi].
      assert (Hid : vr_id a ∈ owned_ids st).
      { unfold owned_ids. apply list_elem_of_fmap. eauto. }
      destruct (owned_in_order _ _ _ _ _ Hord Hi Hid) as [Hnil|Hpre].
      * by apply elem_of_nil in Hnil.
      * apply subseteq_take in Hpre. specialize (Hlt _ Hpre). lia.
Qed.

Lemma forced_creation_is_fresh_witness :
  let w := Examples.one_int Examples.high in
  let run :=
    satisfy_parameters Examples.config Examples.cluster 8
      [("x"%string, Concrete py_int); ("y"%string, Concrete Examples.Foo)]
      None (-1) 1 true false w in
  let v := mkVariableReference 2 (Concrete Examples.Foo) 0 in
  fst run = Returns [mkVariableReference 1 (Concrete py_int) 1; v]
  /\ (exists st, st ∈ statements (snd run)
                 /\ vr_id (ret_val st) = vr_id v)
  /\ (forall st, st ∈ statements w ->
        vr_id (ret_val st) <> vr_id v
        /\ forall a, a ∈ owned_references st -> vr_id a <> vr_id v).
Proof.
  intros w run v. split; [by vm_compute|].
  apply (forced_creation_is_fresh Examples.config Examples.cluster 8
           [("x"%string, Concrete py_int);
            ("y"%string, Concrete Examples.Foo)]
           None (-1) 1 true w
           [mkVariableReference 1 (Concrete py_int) 1; v]
           (snd run)).
  - reflexivity.
  - vm_compute. reflexivity.
  - apply elem_of_cons. right. apply elem_of_cons. by left.
Defined.

Lemma dependency_order_preserved_witness :
  let w := Examples.one_int Examples.high in
  let run :=
    run_add Examples.config Examples.cluster 8 (AddMethod Examples.Foo_m) 0
      0 true w in
  exists i st,
    statements (snd run) !! i = Some st
    /\ ret_val st = mkVariableReference 3 NoType 0
    /\ emitted_by (AddMethod Examples.Foo_m) st
    /\ get_statement_position (mkVariableReference 3 NoType 0)
         (statements (snd run)) = Returns i
    /\ (forall a, a ∈ owned_references st ->
          exists j, get_statement_position a (statements (snd run))
                    = Returns j /\ (j < i)%nat)
    /\ dependency_order (statements (snd run))
    /\ wf_world (snd run) = true.
Proof.
  intros w run.
  apply (dependency_order_preserved Examples.config Examples.cluster 8
           (AddMethod Examples.Foo_m) 0 0 true w
           (mkVariableReference 3 NoType 0) (snd run)).
  - reflexivity.
  - reflexivity.
  - vm_compute. reflexivity.
Defined.

Lemma structural_eq_spec_witness :
  let left := mkVariableReference 0 (Union [py_int; py_str]) 0 in
  let right := mkVariableReference 5 (Union [py_str; py_int]) 2 in
  VariableReferenceImpl.structural_eq left (PyRef right)
    (<[0%nat := right]> ∅) = Returns true.
Proof.
  intros left right.
  apply (structural_eq_spec left (PyRef right) (<[0%nat := right]> ∅)).
  exists right. split; [reflexivity|]. split; [reflexivity|].
  exists right. split; [|reflexivity]. apply lookup_insert_eq.
Defined.

(** * More of [variablereference.py] *)

(** X1: [get_statement_position] returns [i] exactly when the statement at
    [i] is the first whose return value is the reference, and raises the
    plain exception exactly when no statement of the test case defines the
    reference. *)
Theorem get_statement_position_first self l :
  (forall i,
     get_statement_position self l = Returns i <->
     (exists st, l !! i = Some st /\ vr_id (ret_val st) = vr_id self)
     /\ forall j st, (j < i)%nat -> l !! j = Some st ->
          vr_id (ret_val st) <> vr_id self)
  /\ (get_statement_position self l = Raises PlainException <->
      forall st, st ∈ l -> vr_id (ret_val st) <> vr_id self)
  /\ get_statement_position self l <> OutOfFuel
  /\ forall e, get_statement_position self l = Raises e ->
       e = PlainException.
Proof.
  unfold get_statement_position.
  assert (Hgen : forall idx,
    (forall i,
       find_position self l idx = Returns (idx + i)%nat <->
       (exists st, l !! i = Some st /\ vr_id (ret_val st) = vr_id self)
       /\ forall j st, (j < i)%nat -> l !! j = Some st ->
            vr_id (ret_val st) <> vr_id self)
    /\ (forall k, find_position self l idx = Returns k -> (idx <= k)%nat)
    /\ (find_position self l idx = Raises PlainException <->
        forall st, st ∈ l -> vr_id (ret_val st) <> vr_id self)
    /\ find_position self l idx <> OutOfFuel
    /\ forall e, find_position self l idx = Raises e -> e = PlainException).
  { induction l as [|st l IH]; intros idx.
    - simpl. split; [|split; [|split; [|split]]]; try done.
      + intros i. split; [done|]. by intros [(st & Hst & _) _].
      + split; [|done]. intros _ st Hst. by apply elem_of_nil in Hst.
      + by intros e [= <-].
    - destruct (IH (S idx)) as (IHi & IHle & IHr & IHo & IHe).
      simpl. unfold vr_eqb.
      destruct (Nat.eqb_spec (vr_id (ret_val st)) (vr_id self)) as [Heq|Hne].
      + split; [|split; [|split; [|split]]]; try done.
        * intros i. split.
          -- intros [= Hi]. assert (i = 0%nat) as -> by lia.
             split; [by exists st|]. intros j st' Hj. lia.
          -- intros [_ Hfirst]. destruct i as [|i]; [f_equal; lia|].
             exfalso. by apply (Hfirst 0%nat st ltac:(lia) eq_refl).
        * intros k [= <-]. lia.
        * split; [done|]. intros Hall. exfalso.
          apply (Hall st); [|done]. apply elem_of_cons. by left.
      + split; [|split; [|split; [|split]]]; try done.
        * intros i. destruct i as [|i].
          -- split.
             ++ intros H. apply IHle in H. lia.
             ++ intros [(st' & [= <-] & Hid) _]. done.
          -- replace (idx + S i)%nat with (S idx + i)%nat by lia.
             rewrite IHi. split.
             ++ intros [Hex Hfirst]. split; [done|].
                intros [|j] st' Hj Hl; [by injection Hl as <-|].
                apply (Hfirst j st'); [lia|done].
             ++ intros [Hex Hfirst]. split; [done|].
                intros j st' Hj Hl. apply (Hfirst (S j) st'); [lia|done].
        * intros k H. apply IHle in H. lia.
        * rewrite IHr. split.
          -- intros Hall st' Hst'. apply elem_of_cons in Hst' as [->|Hst'];
               [done|by apply Hall].
          -- intros Hall st' Hst'. apply Hall. apply elem_of_cons.
             by right. }
  destruct (Hgen 0%nat) as (Hi & _ & Hr & Ho & He).
  split; [exact Hi|]. by split; [|split].
Qed.

(** X2: in a test case whose references are pairwise distinct, the position
    of the return value of the statement at index [i] is [i]: looking a
    statement up and asking its reference for its position is a round
    trip. *)
Theorem get_statement_position_round_trip l i st :
  distinct_ids l ->
  l !! i = Some st ->
  get_statement_position (ret_val st) l = Returns i.
Proof.
  intros Hnd Hi. unfold get_statement_position.
  rewrite <- (take_drop_middle l i st Hi).
  rewrite (find_position_at (ret_val st) (take i l) st (drop (S i) l) 0);
    [f_equal; rewrite length_take; apply lookup_lt_Some in Hi; lia| |done].
  unfold distinct_ids in Hnd.
  rewrite <- (take_drop_middle l i st Hi) in Hnd.
  unfold ids in Hnd. rewrite map_app in Hnd. simpl in Hnd.
  apply NoDup_app in Hnd as (_ & Hdisj & _).
  intros Hin. apply (Hdisj _ Hin). apply elem_of_cons. by left.
Qed.

Lemma get_statement_position_round_trip_witness :
  get_statement_position
    (mkVariableReference 1 (Concrete Examples.Foo) 0)
    [Examples.int_literal;
     mkStatement (ConstructorStatement Examples.Foo_init)
       (mkVariableReference 1 (Concrete Examples.Foo) 0) []]
  = Returns 1%nat.
Proof.
  apply (get_statement_position_round_trip
           [Examples.int_literal;
            mkStatement (ConstructorStatement Examples.Foo_init)
              (mkVariableReference 1 (Concrete Examples.Foo) 0) []]
           1%nat
           (mkStatement (ConstructorStatement Examples.Foo_init)
              (mkVariableReference 1 (Concrete Examples.Foo) 0) [])).
  - unfold distinct_ids. simpl. apply NoDup_cons. split.
    + intros H. apply list_elem_of_singleton in H. discriminate H.
    + apply NoDup_singleton.
  - reflexivity.
Defined.

(** X3: [structural_eq] never raises when [other] is no variable reference
    or has a recorded type that is not equal (under [==]) to that of
    [self]; it raises, and then [KeyError], exactly when [other] is a
    variable reference of an equal recorded type and [self] is no key of
    the remap. *)
Theorem structural_eq_raises self other memo e :
  VariableReferenceImpl.structural_eq self other memo = Raises e <->
  e = KeyError
  /\ exists r, other = PyRef r
       /\ type_eqb (_variable_type self) (_variable_type r) = true
       /\ memo !! vr_id self = None.
Proof.
  unfold VariableReferenceImpl.structural_eq,
    VariableReferenceImpl.memo_get.
  split.
  - destruct other as [r| | |]; try discriminate.
    destruct (type_eqb _ _) eqn:Ht; [|discriminate].
    destruct (memo !! vr_id self) as [m|] eqn:Hm; [discriminate|].
    intros [= <-]. split; [done|]. by exists r.
  - intros (-> & r & -> & Ht & Hm). by rewrite Ht, Hm.
Qed.

(** X4: a reference is structurally equal to its own clone exactly when
    the clone has an equal recorded type: [structural_eq(self,
    self.clone(memo), memo)] is the comparison [==] of the two types, so
    it is true for a clone that records the same [Union] with its arms in
    another order. *)
Theorem structural_eq_clone self memo r :
  VariableReferenceImpl.clone self memo = Returns r ->
  VariableReferenceImpl.structural_eq self (PyRef r) memo
  = Returns (type_eqb (_variable_type self) (_variable_type r)).
Proof.
  unfold VariableReferenceImpl.clone, VariableReferenceImpl.structural_eq.
  intros ->. destruct (type_eqb _ _); [|done].
  unfold vr_eqb. by rewrite Nat.eqb_refl.
Qed.

Lemma structural_eq_clone_witness :
  let self := mkVariableReference 0 (Union [py_int; py_str]) 0 in
  let r := mkVariableReference 5 (Union [py_str; py_int]) 2 in
  VariableReferenceImpl.structural_eq self (PyRef r) (<[0%nat := r]> ∅)
  = Returns true.
Proof.
  intros self r.
  apply (structural_eq_clone self (<[0%nat := r]> ∅) r).
  unfold VariableReferenceImpl.clone, VariableReferenceImpl.memo_get.
  simpl. by rewrite lookup_insert_eq.
Defined.

Lemma type_code_respects_eq a b :
  type_eqb a b = true -> Examples.type_code a = Examples.type_code b.
Proof.
  destruct a as [|x|xs], b as [|y|ys]; simpl; try discriminate; try done.
  by intros ->%bool_decide_eq_true.
Qed.

(** X5: [structural_hash] is as good as the hash of types.  Whenever the
    hash of types gives equal types (under [==]) equal hashes, as Python
    requires of a hash, structurally equal references have the same
    structural hash; this includes references that record the same
    [Union] with its arms in different orders. *)
Theorem structural_hash_respects_eq (type_hash : ptype -> Z) self r memo :
  (forall a b, type_eqb a b = true -> type_hash a = type_hash b) ->
  VariableReferenceImpl.structural_eq self (PyRef r) memo = Returns true ->
  structural_hash type_hash self = structural_hash type_hash r.
Proof.
  unfold VariableReferenceImpl.structural_eq, structural_hash.
  intros Hhash. destruct (type_eqb _ _) eqn:Ht; [|discriminate].
  intros _. by rewrite (Hhash _ _ Ht).
Qed.

Lemma structural_hash_respects_eq_witness :
  let self := mkVariableReference 0 (Union [py_int; py_str]) 0 in
  let r := mkVariableReference 5 (Union [py_str; py_int]) 2 in
  structural_hash Examples.type_code self
  = structural_hash Examples.type_code r.
Proof.
  intros self r.
  apply (structural_hash_respects_eq _ self r (<[0%nat := r]> ∅)).
  - exact type_code_respects_eq.
  - unfold VariableReferenceImpl.structural_eq,
      VariableReferenceImpl.memo_get.
    simpl. by rewrite lookup_insert_eq.
Defined.

(** * More of [testfactory.py] *)

Lemma order_ok_ins_closed seen n st l :
  order_ok seen l = true -> owned_ids st = [] ->
  order_ok seen (ins n [st] l) = true.
Proof.
  intros Hok Hown. apply order_ok_ins; [done|].
  intros a Ha. rewrite Hown in Ha. by apply elem_of_nil in Ha.
Qed.

Lemma python_insert_is_ins {A} position (x : A) l :
  exists i, (if position =? -1 then l ++ [x]
             else list_insert_py position x l) = ins i [x] l.
Proof.
  destruct (position =? -1).
  - exists (length l). by rewrite ins_beyond.
  - unfold list_insert_py. eexists. reflexivity.
Qed.

(** X6: [add_primitive] never fails.  It clones the template into a
    statement of the same kind without arguments, whose fresh return value
    has the template's type and distance 0, and puts it at the position
    (at the end when the position is negative or beyond the end); the
    statements already there keep their order.  A well-formed test case
    stays well-formed when the template is a literal. *)
Theorem add_primitive_always_inserts primitive position w :
  let v :=
    mkVariableReference (next_id w) (_variable_type (ret_val primitive)) 0 in
  let statement := mkStatement (kind primitive) v [] in
  exists w',
    add_primitive primitive position w = (Returns v, w')
    /\ statements w'
       = ins (Z.to_nat (effective_position position w)) [statement]
           (statements w)
    /\ next_id w' = S (next_id w)
    /\ (is_literal primitive = true -> wf_world w = true ->
        wf_world w' = true).
Proof.
  intros v statement.
  pose proof (effective_position_nonneg position w) as Hnn.
  unfold add_primitive.
  rewrite (bind_run _ _ _ _ _ (position_run position w)).
  unfold clone_primitive, new_reference, add_statement, bind, ret.
  eexists. split; [reflexivity|]. simpl.
  destruct (Z.eqb_spec (effective_position position w) (-1)); [lia|].
  rewrite list_insert_py_ins by done.
  split; [done|]. split; [done|].
  intros Hlit Hwf. apply wf_world_iff in Hwf as [Hord Hlt].
  apply wf_world_iff. simpl. split.
  - apply order_ok_ins_closed; [done|].
    unfold owned_ids, owned_references, statement. simpl.
    unfold is_literal in Hlit. by destruct (kind primitive).
  - intros x. rewrite ids_ins, elem_of_ins. intros [Hx|Hx].
    + specialize (Hlt x Hx). lia.
    + apply list_elem_of_singleton in Hx. subst x. unfold ret_id. simpl. lia.
Qed.

Lemma add_primitive_always_inserts_witness :
  let w := Examples.one_int Examples.low in
  let v := mkVariableReference 1 (Concrete py_int) 0 in
  exists w',
    add_primitive Examples.int_literal 0 w = (Returns v, w')
    /\ statements w'
       = [mkStatement (IntPrimitiveStatement 7) v []; Examples.int_literal]
    /\ next_id w' = 2%nat
    /\ wf_world w' = true.
Proof.
  intros w v.
  destruct (add_primitive_always_inserts Examples.int_literal 0 w)
    as (w' & Hrun & Hst & Hn & Hwf).
  exists w'. split; [exact Hrun|]. split; [exact Hst|].
  split; [exact Hn|]. apply Hwf; reflexivity.
Defined.

Lemma set_distance_fresh r d w st n :
  allocator_ahead w -> vr_id r = next_id w -> ret_val st = r ->
  set_distance r d
    (mkWorld (ins n [st] (statements w)) (S (next_id w)) (rng w))
  = (Returns (mkVariableReference (vr_id r) (_variable_type r) d),
     mkWorld
       (ins n [mkStatement (kind st)
                 (mkVariableReference (vr_id r) (_variable_type r) d)
                 (args st)]
          (statements w))
       (S (next_id w)) (rng w)).
Proof.
  intros Hahead Hid Hret. unfold set_distance. simpl. f_equal. f_equal.
  unfold ins. rewrite !map_app. simpl.
  rewrite Hret. unfold vr_eqb at 2. rewrite Nat.eqb_refl.
  assert (Hsame : forall l : list Statement,
    (forall s, s ∈ l -> s ∈ statements w) ->
    map (fun st0 : Statement =>
           if vr_eqb (ret_val st0) r
           then mkStatement (kind st0)
                  (mkVariableReference (vr_id (ret_val st0))
                     (_variable_type (ret_val st0)) d) (args st0)
           else st0) l = l).
  { intros l Hl. induction l as [|s l IH]; [done|]. simpl.
    rewrite IH by (intros s' Hs'; apply Hl, elem_of_cons; by right).
    unfold vr_eqb.
    destruct (Nat.eqb_spec (vr_id (ret_val s)) (vr_id r)) as [Heq|]; [|done].
    exfalso.
    assert (Hs : s ∈ statements w) by (apply Hl, elem_of_cons; by left).
    specialize (Hahead s Hs). unfold ret_id in Hahead. lia. }
  rewrite (Hsame (take n (statements w))), (Hsame (drop n (statements w))).
  - done.
  - intros s Hs. by eapply subseteq_drop.
  - intros s Hs. by eapply subseteq_take.
Qed.

(** X7: primitive synthesis has no failure path.  [_create_primitive]
    always returns a reference of type [int], [float] or [bool] when that
    was requested and of type [str] for anything else, stamped with the
    recursion depth, and the test case grows by exactly one statement.
    With the allocator ahead and a non-negative position, the new
    statement sits at the position, carries the stamped reference, and no
    other statement changed. *)
Theorem _create_primitive_never_fails parameter_type position
    recursion_depth w :
  let v :=
    mkVariableReference (next_id w)
      (Concrete (primitive_type_for parameter_type)) recursion_depth in
  exists w',
    _create_primitive parameter_type position recursion_depth w
    = (Returns v, w')
    /\ length (statements w') = S (length (statements w))
    /\ next_id w' = S (next_id w)
    /\ (allocator_ahead w -> 0 <= position ->
        exists value,
          statements w'
          = ins (Z.to_nat position) [mkStatement value v []] (statements w)
          /\ owned_references (mkStatement value v []) = []).
Proof.
  intros v. unfold _create_primitive, primitive_type_for in *.
  set (mk := if bool_decide (parameter_type = Concrete py_int)
             then IntPrimitiveStatement
             else if bool_decide (parameter_type = Concrete py_float)
             then FloatPrimitiveStatement
             else if bool_decide (parameter_type = Concrete py_bool)
             then BooleanPrimitiveStatement
             else StringPrimitiveStatement).
  set (t := if bool_decide (parameter_type = Concrete py_int) then py_int
            else if bool_decide (parameter_type = Concrete py_float)
            then py_float
            else if bool_decide (parameter_type = Concrete py_bool)
            then py_bool else py_str) in *.
  assert (Hnew :
    (if bool_decide (parameter_type = Concrete py_int)
     then new_PrimitiveStatement IntPrimitiveStatement py_int
     else if bool_decide (parameter_type = Concrete py_float)
     then new_PrimitiveStatement FloatPrimitiveStatement py_float
     else if bool_decide (parameter_type = Concrete py_bool)
     then new_PrimitiveStatement BooleanPrimitiveStatement py_bool
     else new_PrimitiveStatement StringPrimitiveStatement py_str)
    = new_PrimitiveStatement mk t).
  { unfold mk, t. by repeat case_bool_decide. }
  assert (Hmk : forall value r a,
            owned_references (mkStatement (mk value) r a) = a).
  { intros value r a. unfold mk. by repeat case_bool_decide. }
  rewrite Hnew. clear Hnew.
  set (r0 := mkVariableReference (next_id w) (Concrete t) 0).
  set (st := mkStatement (mk (rng w 0%nat)) r0 []).
  set (w1 := mkWorld (statements w) (S (next_id w))
               (fun i => rng w (S i))).
  assert (Hrun1 : new_PrimitiveStatement mk t w = (Returns st, w1))
    by reflexivity.
  rewrite (bind_run _ _ _ _ _ Hrun1).
  destruct (python_insert_is_ins position st (statements w)) as [i Hi].
  assert (Hrun2 : add_statement st position w1
                  = (Returns r0,
                     mkWorld (ins i [st] (statements w)) (S (next_id w))
                       (fun i => rng w (S i)))).
  { unfold add_statement, w1. simpl. by rewrite Hi. }
  rewrite (bind_run _ _ _ _ _ Hrun2).
  eexists. split; [reflexivity|]. simpl. split; [|split; [done|]].
  - rewrite length_map, length_ins. simpl. lia.
  - intros Hahead Hp. exists (mk (rng w 0%nat)).
    split; [|apply Hmk].
    assert (i = Z.to_nat position \/ ins i [st] (statements w)
              = ins (Z.to_nat position) [st] (statements w)) as Hpos.
    { right. rewrite <- Hi.
      destruct (Z.eqb_spec position (-1)); [lia|].
      by apply list_insert_py_ins. }
    assert (Heq : ins i [st] (statements w)
                  = ins (Z.to_nat position) [st] (statements w))
      by (destruct Hpos as [->|]; done).
    rewrite Heq.
    pose proof (set_distance_fresh r0 recursion_depth
                  (mkWorld (statements w) (next_id w)
                     (fun i => rng w (S i)))
                  st (Z.to_nat position) Hahead eq_refl eq_refl) as Hsd.
    unfold set_distance in Hsd. simpl in Hsd.
    by injection Hsd as ->.
Qed.

Lemma _create_primitive_never_fails_witness :
  let w := Examples.one_int Examples.low in
  let v := mkVariableReference 1 (Concrete py_str) 4 in
  exists w',
    _create_primitive (Concrete Examples.Foo) 1 4 w = (Returns v, w')
    /\ length (statements w') = 2%nat
    /\ next_id w' = 2%nat
    /\ exists value,
         statements w'
         = ins 1 [mkStatement value v []] (statements w)
         /\ owned_references (mkStatement value v []) = [].
Proof.
  intros w v.
  destruct (_create_primitive_never_fails (Concrete Examples.Foo) 1 4 w)
    as (w' & Hrun & Hlen & Hn & Hexact).
  exists w'. split; [exact Hrun|]. split; [exact Hlen|].
  split; [exact Hn|]. apply Hexact.
  - intros st Hst. apply list_elem_of_singleton in Hst as ->.
    unfold ret_id. simpl. lia.
  - lia.
Defined.

(** X8: at a position within the test case, [_create_none] inserts a
    none-literal there and returns its reference, which records the
    requested type and the recursion depth; no other statement changes. *)
Theorem _create_none_in_range parameter_type position recursion_depth w :
  allocator_ahead w ->
  0 <= position <= Z.of_nat (length (statements w)) ->
  let v :=
    mkVariableReference (next_id w) parameter_type recursion_depth in
  exists w',
    _create_none parameter_type position recursion_depth w = (Returns v, w')
    /\ statements w'
       = ins (Z.to_nat position) [mkStatement NoneStatement v []]
           (statements w)
    /\ next_id w' = S (next_id w).
Proof.
  intros Hahead Hp v. unfold _create_none.
  set (r0 := mkVariableReference (next_id w) parameter_type 0).
  set (st := mkStatement NoneStatement r0 []).
  set (w1 := mkWorld (statements w) (S (next_id w)) (rng w)).
  set (w2 := mkWorld (ins (Z.to_nat position) [st] (statements w))
               (S (next_id w)) (rng w)).
  rewrite (bind_run _ _ w st w1) by reflexivity.
  assert (Hadd : add_statement st position w1 = (Returns r0, w2)).
  { unfold add_statement, w1, w2. simpl.
    destruct (Z.eqb_spec position (-1)); [lia|].
    by rewrite list_insert_py_ins by lia. }
  rewrite (bind_run _ _ _ _ _ Hadd).
  assert (Hget : get_statement position w2 = (Returns st, w2)).
  { unfold get_statement, w2. simpl. rewrite length_ins. simpl.
    destruct (Z.leb_spec 0 position); [|lia].
    destruct (Z.ltb_spec position
                (Z.of_nat (length (statements w) + 1))); [|lia].
    simpl. unfold ins.
    rewrite lookup_app_r by (rewrite length_take; lia).
    rewrite length_take, Nat.min_l by lia.
    by rewrite Nat.sub_diag. }
  rewrite (bind_run _ _ _ _ _ Hget).
  pose proof (set_distance_fresh r0 recursion_depth w st
                (Z.to_nat position) Hahead eq_refl eq_refl) as Hsd.
  eexists. split; [exact Hsd|]. by split.
Qed.

Lemma _create_none_in_range_witness :
  let w := Examples.one_int Examples.low in
  let v := mkVariableReference 1 (Concrete Examples.Bar) 3 in
  exists w',
    _create_none (Concrete Examples.Bar) 0 3 w = (Returns v, w')
    /\ statements w'
       = ins 0 [mkStatement NoneStatement v []] (statements w)
    /\ next_id w' = 2%nat.
Proof.
  intros w v.
  apply (_create_none_in_range (Concrete Examples.Bar) 0 3 w).
  - intros st Hst. apply list_elem_of_singleton in Hst as ->.
    unfold ret_id. simpl. lia.
  - simpl. lia.
Defined.

(** X9: at a position beyond the end of the test case, [_create_none]
    raises [AssertionError] after the none-literal was appended: the
    failure leaves the test case one statement longer, and the depth was
    never stamped. *)
Theorem _create_none_beyond_end parameter_type position recursion_depth w :
  Z.of_nat (length (statements w)) < position ->
  _create_none parameter_type position recursion_depth w
  = (Raises AssertionError,
     mkWorld
       (statements w
        ++ [mkStatement NoneStatement
              (mkVariableReference (next_id w) parameter_type 0) []])
       (S (next_id w)) (rng w)).
Proof.
  intros Hp. unfold _create_none.
  set (r0 := mkVariableReference (next_id w) parameter_type 0).
  set (st := mkStatement NoneStatement r0 []).
  set (w1 := mkWorld (statements w) (S (next_id w)) (rng w)).
  set (w2 := mkWorld (statements w ++ [st]) (S (next_id w)) (rng w)).
  rewrite (bind_run _ _ w st w1) by reflexivity.
  assert (Hadd : add_statement st position w1 = (Returns r0, w2)).
  { unfold add_statement, w1, w2. simpl.
    destruct (Z.eqb_spec position (-1)); [lia|].
    rewrite list_insert_py_ins by lia. by rewrite ins_beyond by lia. }
  rewrite (bind_run _ _ _ _ _ Hadd).
  assert (Hget : get_statement position w2 = (Raises AssertionError, w2)).
  { unfold get_statement, w2. simpl. rewrite length_app. simpl.
    destruct (Z.ltb_spec position
                (Z.of_nat (length (statements w) + 1))); [lia|].
    by rewrite andb_false_r. }
  by rewrite (bind_raises _ _ _ _ _ Hget).
Qed.

Lemma _create_none_beyond_end_witness :
  let w := Examples.one_int Examples.low in
  _create_none (Concrete Examples.Bar) 5 3 w
  = (Raises AssertionError,
     mkWorld
       [Examples.int_literal;
        mkStatement NoneStatement
          (mkVariableReference 1 (Concrete Examples.Bar) 0) []]
       2 Examples.low).
Proof.
  intros w.
  apply (_create_none_beyond_end (Concrete Examples.Bar) 5 3 w).
  simpl. lia.
Defined.

(** X10: fresh construction yields no value in exactly three cases, none
    of which touches the test case: the type is undeclared; or it is a
    declared non-primitive type without generators and [None] is not
    allowed; or such a type with [None] allowed and the float drawn above
    [none_probability]. *)
Theorem _attempt_generation_yields_nothing INSTANCE cluster fuel
    parameter_type position recursion_depth allow_none exclude w w' :
  _attempt_generation INSTANCE cluster (S fuel) parameter_type position
    recursion_depth allow_none exclude w = (Returns None, w')
  <->
  (parameter_type = NoType /\ w' = w)
  \/ (parameter_type <> NoType
      /\ is_primitive_type parameter_type = false
      /\ get_generators_for cluster parameter_type = []
      /\ ((allow_none = false /\ w' = w)
          \/ (allow_none = true
              /\ float_le (float_of_draw (rng w 0%nat))
                   (none_probability INSTANCE) = false
              /\ w' = advance w))).
Proof.
  simpl. split.
  - intros H. destruct (truthy_type parameter_type) eqn:Htr; simpl in H.
    2:{ left. destruct parameter_type; try discriminate.
        by injection H as <-. }
    right. split; [by destruct parameter_type|].
    destruct (is_primitive_type parameter_type).
    { apply option_ret_returns in H as (v & Hv & _). discriminate. }
    destruct (get_generators_for cluster parameter_type) as [|g gens].
    2:{ apply _attempt_generation_for_type_some in H as [v Hv].
        discriminate. }
    simpl in H. split; [done|]. split; [done|].
    destruct allow_none; [|left; by injection H as <-].
    right. rewrite (bind_run _ _ _ _ _ (next_float_run w)) in H.
    destruct (float_le _ _).
    { apply option_ret_returns in H as (v & Hv & _). discriminate. }
    by injection H as <-.
  - intros [[-> ->]|(Ht & Hp & Hg & Hrest)]; [done|].
    assert (Htruthy : truthy_type parameter_type = true)
      by (by destruct parameter_type).
    rewrite Htruthy, Hp, Hg. simpl.
    destruct Hrest as [[-> ->]|(-> & Hf & ->)]; [done|].
    rewrite (bind_run _ _ _ _ _ (next_float_run w)). by rewrite Hf.
Qed.

(** X11: every negative position means the end of the test case:
    [append_generic_statement] at a negative position is
    [append_generic_statement] at the current size. *)
Theorem append_generic_statement_negative INSTANCE cluster fuel statement
    position recursion_depth allow_none w :
  position < 0 ->
  append_generic_statement INSTANCE cluster fuel statement position
    recursion_depth allow_none w
  = append_generic_statement INSTANCE cluster fuel statement
      (Z.of_nat (length (statements w))) recursion_depth allow_none w.
Proof.
  intros Hp. destruct fuel as [|fuel]; [done|]. simpl.
  set (end_ := Z.of_nat (length (statements w))).
  assert (Hend : (end_ =? -1) = false) by (apply Z.eqb_neq; lia).
  rewrite Hend.
  assert (Hpos : forall p, p < 0 \/ p = end_ ->
            (if p <? 0 then size else ret p) w = (Returns end_, w)).
  { intros p [Hneg| ->].
    - by destruct (Z.ltb_spec p 0); [|lia].
    - by destruct (Z.ltb_spec end_ 0); [lia|]. }
  rewrite (bind_run (ret end_) _ w end_ w eq_refl).
  assert (Hfirst : exists p, (p < 0 \/ p = end_)
            /\ (if position =? -1 then size else ret position) w
               = (Returns p, w)).
  { destruct (Z.eqb_spec position (-1)).
    - exists end_. by split; [right|].
    - exists position. by split; [left|]. }
  destruct Hfirst as (p & Hp' & Hrun).
  rewrite (bind_run _ _ _ _ _ Hrun).
  destruct statement as [c|m|f|f|]; [| | | |done]; unfold option_ret.
  - assert (Hadd :
      add_constructor INSTANCE cluster fuel c p recursion_depth allow_none w
      = add_constructor INSTANCE cluster fuel c end_ recursion_depth
          allow_none w).
    { destruct fuel as [|fuel]; simpl;
        destruct (recursion_depth >? max_recursion INSTANCE); try done.
      by rewrite (bind_run _ _ _ _ _ (Hpos p Hp')),
           (bind_run _ _ _ _ _ (Hpos end_ (or_intror eq_refl))). }
    unfold bind. by rewrite Hadd.
  - assert (Hadd :
      add_method INSTANCE cluster fuel m p recursion_depth allow_none w
      = add_method INSTANCE cluster fuel m end_ recursion_depth
          allow_none w).
    { destruct fuel as [|fuel]; simpl;
        destruct (recursion_depth >? max_recursion INSTANCE); try done.
      by rewrite (bind_run _ _ _ _ _ (Hpos p Hp')),
           (bind_run _ _ _ _ _ (Hpos end_ (or_intror eq_refl))). }
    unfold bind. by rewrite Hadd.
  - assert (Hadd :
      add_function INSTANCE cluster fuel f p recursion_depth allow_none w
      = add_function INSTANCE cluster fuel f end_ recursion_depth
          allow_none w).
    { destruct fuel as [|fuel]; simpl;
        destruct (recursion_depth >? max_recursion INSTANCE); try done.
      by rewrite (bind_run _ _ _ _ _ (Hpos p Hp')),
           (bind_run _ _ _ _ _ (Hpos end_ (or_intror eq_refl))). }
    unfold bind. by rewrite Hadd.
  - assert (Hadd :
      add_field INSTANCE cluster fuel f p recursion_depth w
      = add_field INSTANCE cluster fuel f end_ recursion_depth w).
    { destruct fuel as [|fuel]; simpl;
        destruct (recursion_depth >? max_recursion INSTANCE); try done.
      by rewrite (bind_run _ _ _ _ _ (Hpos p Hp')),
           (bind_run _ _ _ _ _ (Hpos end_ (or_intror eq_refl))). }
    unfold bind. by rewrite Hadd.
Qed.

Lemma append_generic_statement_negative_witness :
  let w := Examples.one_int Examples.high in
  append_generic_statement Examples.config Examples.cluster 8
    (GMethod Examples.Foo_m) (-7) 0 true w
  = append_generic_statement Examples.config Examples.cluster 8
      (GMethod Examples.Foo_m) 1 0 true w.
Proof.
  intros w.
  apply (append_generic_statement_negative Examples.config Examples.cluster
           8 (GMethod Examples.Foo_m) (-7) 0 true w).
  lia.
Defined.

(** X12: [_select_from_union] hands a type that is no union back as it
    is, without drawing; for a union with arms it draws once and returns
    one of the arms; the result is never a union. *)
Theorem _select_from_union_arm parameter_type w :
  (is_union_type parameter_type = false ->
   _select_from_union parameter_type w = (Returns parameter_type, w))
  /\ (forall arms, parameter_type = Union arms -> arms <> [] ->
      exists arm,
        arm ∈ arms
        /\ _select_from_union parameter_type w
           = (Returns (Concrete arm), advance w))
  /\ (forall t w',
        _select_from_union parameter_type w = (Returns t, w') ->
        is_union_type t = false).
Proof.
  split; [|split].
  - intros Hu. unfold _select_from_union. by rewrite Hu.
  - intros arms -> Hne. unfold _select_from_union. simpl.
    destruct (choice_nonempty arms w Hne) as (arm & Harm & Hc).
    exists arm. split; [done|]. by rewrite (bind_run _ _ _ _ _ Hc).
  - intros t w' H. unfold _select_from_union in H.
    destruct (is_union_type parameter_type) eqn:Hu; simpl in H.
    + apply bind_returns in H as (arm & w1 & _ & H). by injection H as <- _.
    + injection H as <- _. exact Hu.
Qed.

Lemma _select_from_union_arm_witness :
  let w := Examples.empty_world Examples.ones in
  _select_from_union (Concrete py_int) w = (Returns (Concrete py_int), w)
  /\ exists arm,
       arm ∈ [py_int; Examples.Foo]
       /\ _select_from_union Examples.int_or_Foo w
          = (Returns (Concrete arm), advance w).
Proof.
  intros w. split.
  - apply (proj1 (_select_from_union_arm (Concrete py_int) w)). reflexivity.
  - apply (proj1 (proj2 (_select_from_union_arm Examples.int_or_Foo w))
             [py_int; Examples.Foo]); [reflexivity|discriminate].
Defined.

(** X13: at the recursion ceiling no generator can be used any more: when
    [recursion_depth + 1] exceeds [max_recursion], fresh construction of a
    declared non-primitive type that has generators raises a construction
    failure ("max recursion depth reached", or "unknown statement type"
    for a generator of no known kind) and leaves the test case as it
    was. *)
Theorem generators_blocked_at_ceiling INSTANCE cluster fuel parameter_type
    position recursion_depth allow_none exclude w :
  parameter_type <> NoType ->
  is_primitive_type parameter_type = false ->
  get_generators_for cluster parameter_type <> [] ->
  recursion_depth + 1 > max_recursion INSTANCE ->
  exists msg,
    _create_variable INSTANCE cluster (S (S (S (S fuel)))) parameter_type
      position recursion_depth allow_none exclude w
    = (Raises (ConstructionFailedException msg), advance w)
    /\ (msg = MaxRecursionDepthReached \/ msg = UnknownStatementType).
Proof.
  intros Ht Hp Hg Hd. simpl.
  assert (Htruthy : truthy_type parameter_type = true)
    by (by destruct parameter_type).
  rewrite Htruthy, Hp, (nonempty_true _ Hg). simpl.
  destruct (choice_nonempty _ w Hg) as (g & _ & Hc).
  rewrite (bind_run _ _ _ _ _ Hc).
  assert (Hgt : (recursion_depth + 1 >? max_recursion INSTANCE) = true).
  { apply Z.gtb_lt. lia. }
  assert (Hpos : exists p,
            (if position =? -1 then size else ret position) (advance w)
            = (Returns p, advance w)).
  { destruct (position =? -1); eexists; reflexivity. }
  destruct Hpos as [p Hrun]. rewrite (bind_run _ _ _ _ _ Hrun).
  destruct g as [c|m|f|f|].
  - exists MaxRecursionDepthReached. split; [|by left].
    unfold option_ret, bind. destruct fuel; simpl; by rewrite Hgt.
  - exists MaxRecursionDepthReached. split; [|by left].
    unfold option_ret, bind. destruct fuel; simpl; by rewrite Hgt.
  - exists MaxRecursionDepthReached. split; [|by left].
    unfold option_ret, bind. destruct fuel; simpl; by rewrite Hgt.
  - exists MaxRecursionDepthReached. split; [|by left].
    unfold option_ret, bind. destruct fuel; simpl; by rewrite Hgt.
  - exists UnknownStatementType. split; [done|by right].
Qed.

Lemma generators_blocked_at_ceiling_witness :
  let w := Examples.one_int Examples.low in
  exists msg,
    _create_variable Examples.config Examples.cluster 4
      (Concrete Examples.Foo) 1 10 true None w
    = (Raises (ConstructionFailedException msg), advance w)
    /\ (msg = MaxRecursionDepthReached \/ msg = UnknownStatementType).
Proof.
  intros w.
  apply (generators_blocked_at_ceiling Examples.config Examples.cluster 0
           (Concrete Examples.Foo) 1 10 true None w).
  - discriminate.
  - reflexivity.
  - discriminate.
  - simpl. lia.
Defined.

(** ** The test case only grows *)

Lemma erase_distance_ret_id st : ret_id (erase_distance st) = ret_id st.
Proof. reflexivity. Qed.

Lemma ids_erase l : ids (map erase_distance l) = ids l.
Proof. by apply ids_map. Qed.

Lemma only_grows_refl w : only_grows w w.
Proof.
  split; [done|]. split; [lia|]. split; [lia|done].
Qed.

Lemma well_allocated_same w w' :
  statements w' = statements w -> next_id w' = next_id w ->
  well_allocated w -> well_allocated w'.
Proof.
  unfold well_allocated, allocator_ahead. by intros -> ->.
Qed.

Lemma only_grows_same w0 w1 w2 :
  statements w2 = statements w1 -> next_id w2 = next_id w1 ->
  only_grows w0 w1 -> only_grows w0 w2.
Proof.
  intros Hs Hn (Hsub & Hle & Hcount & Hwa).
  unfold only_grows. rewrite Hs, Hn.
  split; [done|]. split; [done|]. split; [done|].
  intros H. by eapply well_allocated_same; [| |apply Hwa].
Qed.

Lemma only_grows_ids w0 w1 w2 :
  map erase_distance (statements w2) = map erase_distance (statements w1) ->
  next_id w2 = next_id w1 ->
  only_grows w0 w1 -> only_grows w0 w2.
Proof.
  intros Hs Hn (Hsub & Hle & Hcount & Hwa).
  assert (Hids : ids (statements w2) = ids (statements w1)).
  { by rewrite <- (ids_erase (statements w2)), Hs, ids_erase. }
  assert (Hlen : length (statements w2) = length (statements w1)).
  { by rewrite <- (length_map erase_distance (statements w2)), Hs,
         length_map. }
  unfold only_grows. rewrite Hs, Hn, Hlen. split; [done|].
  split; [done|]. split; [done|].
  intros H. destruct (Hwa H) as [Hnd Hahead]. split.
  - unfold distinct_ids. by rewrite Hids.
  - intros st Hst. rewrite Hn.
    assert (Hin : ret_id st ∈ ids (statements w1)).
    { rewrite <- Hids. unfold ids. apply list_elem_of_fmap. eauto. }
    unfold ids in Hin. apply list_elem_of_fmap in Hin as (st' & -> & Hst').
    by apply Hahead.
Qed.

Lemma only_grows_insert w0 st w w2 i :
  pending w0 st w ->
  statements w2 = ins i [st] (statements w) ->
  next_id w2 = next_id w ->
  only_grows w0 w2.
Proof.
  intros (n & Hn & Hid & Hsub & Hle & Hcount & Hwa) Hs Hn2. simpl in *.
  unfold only_grows. rewrite Hs, Hn2, Hn. split; [|split; [|split]].
  - etrans; [exact Hsub|]. unfold ins. rewrite !map_app.
    rewrite <- (take_drop i (statements w)) at 1. rewrite map_app.
    apply sublist_app; [done|]. simpl. by apply sublist_cons.
  - lia.
  - rewrite length_ins. simpl. lia.
  - intros H. destruct (Hwa H) as [Hnd Hahead].
    unfold distinct_ids, allocator_ahead in Hnd, Hahead.
    cbn [statements next_id] in Hnd, Hahead.
    assert (Hfresh : n ∉ ids (statements w)).
    { intros Hin. unfold ids in Hin.
      apply list_elem_of_fmap in Hin as (s & Hs' & Hin).
      specialize (Hahead s Hin). lia. }
    split; [unfold distinct_ids|unfold allocator_ahead].
    + rewrite Hs, ids_ins. unfold ins.
      rewrite <- (take_drop i (ids (statements w))) in Hnd, Hfresh.
      apply NoDup_app in Hnd as (Hnd1 & Hdisj & Hnd2).
      rewrite elem_of_app in Hfresh.
      apply NoDup_app. split; [done|]. split.
      * intros x Hx. simpl. rewrite elem_of_cons. intros [->|Hx'].
        -- apply Hfresh. left. by rewrite <- Hid.
        -- by apply (Hdisj x).
      * simpl. apply NoDup_cons. split; [|done].
        rewrite Hid. intros Hin. apply Hfresh. by right.
    + rewrite Hs, Hn2, Hn. intros s Hin. apply elem_of_ins in Hin as [Hin|Hin].
      * specialize (Hahead s Hin). lia.
      * apply list_elem_of_singleton in Hin as ->. lia.
Qed.

(** The rules of the triples. *)

Lemma triple_bind {A B} P (m : M A) (k : A -> M B) Q R E F :
  triple P m Q E F -> (forall a, triple (Q a) (k a) R E F) ->
  triple P (bind m k) R E F.
Proof.
  intros Hm Hk w HP. specialize (Hm w HP). unfold bind.
  destruct (m w) as [[a|e|] w1]; try done. by apply Hk.
Qed.

Lemma framed_bind {A B} w0 forced (m : M A) (k : A -> M B) :
  framed w0 forced m -> (forall a, framed w0 forced (k a)) ->
  framed w0 forced (bind m k).
Proof. intros Hm Hk. by eapply triple_bind. Qed.

Lemma framed_option_ret {A} w0 forced (m : M A) :
  framed w0 forced m -> framed w0 forced (option_ret m).
Proof.
  intros Hm. apply framed_bind; [done|]. intros a w Hw. exact Hw.
Qed.

Lemma framed_ret {A} w0 forced (a : A) : framed w0 forced (ret a).
Proof. by intros w Hw. Qed.

Lemma framed_raise {A} w0 forced e :
  engine_exn e = true -> framed w0 forced (@raise A e).
Proof. intros He w Hw. split; [done|by left]. Qed.

Lemma framed_out_of_fuel {A} w0 forced : framed w0 forced (@out_of_fuel A).
Proof. by intros w Hw. Qed.

Lemma framed_weaken {A} w0 (m : M A) :
  framed w0 false m -> forall forced, framed w0 forced m.
Proof.
  intros Hm forced w Hw. specialize (Hm w Hw).
  destruct (m w) as [[a|e|] w1]; try done.
  destruct Hm as [Hg [He|[Hf _]]]; [|done]. split; [done|by left].
Qed.

(** An action that neither raises nor touches the test case. *)
Lemma framed_quiet {A} w0 forced (m : M A) :
  (forall w, exists a w1,
     m w = (Returns a, w1)
     /\ statements w1 = statements w /\ next_id w1 = next_id w) ->
  framed w0 forced m.
Proof.
  intros Hq w Hw. destruct (Hq w) as (a & w1 & -> & Hs & Hn).
  by eapply only_grows_same.
Qed.

Lemma framed_size w0 forced : framed w0 forced size.
Proof. apply framed_quiet. intros w. by eexists _, _. Qed.

Lemma framed_position w0 forced position :
  framed w0 forced (if position <? 0 then size else ret position).
Proof. destruct (position <? 0); [apply framed_size|apply framed_ret]. Qed.

Lemma framed_next_float w0 forced : framed w0 forced next_float.
Proof. apply framed_quiet. intros w. by eexists _, _. Qed.

Lemma framed_get_objects w0 forced t position :
  framed w0 forced (get_objects t position).
Proof. apply framed_quiet. intros w. by eexists _, _. Qed.

Lemma framed_statements_before w0 forced position :
  framed w0 forced (statements_before position).
Proof. apply framed_quiet. intros w. by eexists _, _. Qed.

Lemma framed_choice {A} w0 forced (seq : list A) :
  framed w0 forced (choice seq).
Proof.
  intros w Hw. unfold choice. destruct seq as [|a seq].
  { split; [done|by left]. }
  unfold bind, draw. simpl.
  destruct (_ !! _); simpl.
  - by eapply only_grows_same.
  - split; [by eapply only_grows_same|by left].
Qed.

Lemma framed_select_from_union w0 forced t :
  framed w0 forced
    (if is_union_type t then _select_from_union t else ret t).
Proof.
  destruct (is_union_type t) eqn:Hu; [|apply framed_ret].
  unfold _select_from_union. rewrite Hu. simpl.
  apply framed_bind; [apply framed_choice|]. intros a. apply framed_ret.
Qed.

Lemma framed_get_statement w0 forced position :
  framed w0 forced (get_statement position).
Proof.
  intros w Hw. unfold get_statement.
  destruct (_ && _); [|split; [done|by left]].
  destruct (_ !! _); [done|]. split; [done|by left].
Qed.

Lemma framed_set_distance w0 forced r d :
  framed w0 forced (set_distance r d).
Proof.
  intros w Hw. unfold set_distance. simpl.
  eapply only_grows_ids; [| |exact Hw]; [|done]. simpl.
  rewrite map_map. apply map_ext. intros st.
  by destruct (vr_eqb (ret_val st) r).
Qed.

Lemma triple_new w0 (new : M Statement) E F :
  allocates new -> triple (only_grows w0) new (pending w0) E F.
Proof.
  intros Hnew w Hw. destruct (Hnew w) as (st & w1 & -> & Hid & Hs & Hn).
  exists (next_id w). split; [done|]. split; [done|].
  eapply only_grows_same; [| |exact Hw]; by simpl.
Qed.

Lemma triple_add_statement w0 st position E F :
  triple (pending w0 st) (add_statement st position)
    (fun _ => only_grows w0) E F.
Proof.
  intros w Hw. unfold add_statement. simpl.
  destruct (python_insert_is_ins position st (statements w)) as [i Hi].
  eapply (only_grows_insert w0 st w _ i); [done| |done]. simpl. exact Hi.
Qed.

Lemma framed_emit w0 forced (new : M Statement) position :
  allocates new ->
  framed w0 forced (statement <- new ;; add_statement statement position).
Proof.
  intros Hnew. eapply triple_bind; [by apply triple_new|].
  intros st. apply triple_add_statement.
Qed.

Lemma allocates_new_ConstructorStatement c args :
  allocates (new_ConstructorStatement c args).
Proof. intros w. by eexists _, _. Qed.

Lemma allocates_new_MethodStatement m callee args :
  allocates (new_MethodStatement m callee args).
Proof. intros w. by eexists _, _. Qed.

Lemma allocates_new_FunctionStatement f args :
  allocates (new_FunctionStatement f args).
Proof. intros w. by eexists _, _. Qed.

Lemma allocates_new_FieldStatement f source :
  allocates (new_FieldStatement f source).
Proof. intros w. by eexists _, _. Qed.

Lemma allocates_new_PrimitiveStatement mk t :
  allocates (new_PrimitiveStatement mk t).
Proof. intros w. by eexists _, _. Qed.

Lemma allocates_new_NoneStatement t : allocates (new_NoneStatement t).
Proof. intros w. by eexists _, _. Qed.

Lemma allocates_clone_primitive primitive :
  allocates (clone_primitive primitive).
Proof. intros w. by eexists _, _. Qed.

Lemma framed_add_primitive w0 forced primitive position :
  framed w0 forced (add_primitive primitive position).
Proof.
  unfold add_primitive. apply framed_bind; [apply framed_position|].
  intros p. apply framed_emit, allocates_clone_primitive.
Qed.

Lemma framed_create_primitive w0 forced t position d :
  framed w0 forced (_create_primitive t position d).
Proof.
  unfold _create_primitive.
  eapply triple_bind with (Q := pending w0).
  { apply triple_new. repeat case_bool_decide;
      apply allocates_new_PrimitiveStatement. }
  intros st. eapply triple_bind; [apply triple_add_statement|].
  intros r. apply framed_set_distance.
Qed.

Lemma framed_create_none w0 forced t position d :
  framed w0 forced (_create_none t position d).
Proof.
  unfold _create_none.
  eapply triple_bind with (Q := pending w0).
  { apply triple_new, allocates_new_NoneStatement. }
  intros st. eapply triple_bind; [apply triple_add_statement|].
  intros r. apply framed_bind; [apply framed_get_statement|].
  intros st'. apply framed_set_distance.
Qed.

Lemma framed_try_except {A} w0 (m : M A) (wrap : exn -> exn) :
  (forall e, engine_exn e = true -> engine_exn (wrap e) = true) ->
  framed w0 false m ->
  framed w0 false (try_except m (fun exception => raise (wrap exception))).
Proof.
  intros Hwrap Hm w Hw. specialize (Hm w Hw). unfold try_except, raise.
  destruct (m w) as [[a|e|] w1]; try done.
  destruct Hm as [Hg [He|[Hf _]]]; [|done]. split; [done|left; auto].
Qed.

Lemma framed_satisfy_loop w0 forced resolve :
  (forall t p, framed w0 false (resolve t p)) ->
  (forced = false ->
   forall t p w w', resolve t p w <> (Returns None, w')) ->
  forall items position parameters,
    framed w0 forced (satisfy_loop resolve items position parameters).
Proof.
  intros Hres Hsome items.
  induction items as [|[name t] items IH]; intros position acc; simpl.
  { apply framed_ret. }
  apply framed_bind; [apply framed_size|]. intros previous_length.
  eapply triple_bind
    with (Q := fun o w => only_grows w0 w /\ (forced = false -> o <> None)).
  - intros w Hw. specialize (Hres t position w Hw).
    destruct (resolve t position w) as [[o|e|] w1] eqn:Hrun; try done.
    + split; [done|]. intros Hf ->. by eapply Hsome.
    + destruct Hres as [Hg [He|[Hf _]]]; [|done]. split; [done|by left].
  - intros [var|] w [Hw Hf].
    + apply (framed_bind w0 forced size); [apply framed_size| |exact Hw].
      intros current_length. apply IH.
    + simpl. split; [done|]. destruct forced; [right; eauto|].
      by specialize (Hf eq_refl).
Qed.

Ltac frame :=
  repeat first
    [ apply framed_ret
    | apply framed_out_of_fuel
    | apply framed_size
    | apply framed_position
    | apply framed_next_float
    | apply framed_get_objects
    | apply framed_statements_before
    | apply framed_choice
    | apply framed_select_from_union
    | apply framed_create_none
    | apply framed_create_primitive
    | apply framed_raise; reflexivity
    | apply framed_option_ret
    | apply framed_emit;
      first [ apply allocates_new_ConstructorStatement
            | apply allocates_new_MethodStatement
            | apply allocates_new_FunctionStatement
            | apply allocates_new_FieldStatement ]
    | match goal with
      | H : engine_framed _ _ _ _ |- _ =>
          first [ apply (framed_append_generic_statement _ _ _ _ H)
                | apply (framed_add_constructor _ _ _ _ H)
                | apply (framed_add_method _ _ _ _ H)
                | apply (framed_add_field _ _ _ _ H)
                | apply (framed_add_function _ _ _ _ H)
                | apply (framed_satisfy_parameters _ _ _ _ H _ _ _ _ _ true)
                | apply (framed_create_or_reuse_variable _ _ _ _ H)
                | apply (framed_create_variable _ _ _ _ H)
                | apply (framed_attempt_generation _ _ _ _ H)
                | apply (framed_attempt_generation_for_type _ _ _ _ H)
                | apply (framed_create_random_type_variable _ _ _ _ H) ]
      end
    | match goal with
      | |- framed _ _ (if ?c then _ else _) => destruct c
      | |- framed _ _ (match ?x with Some _ => _ | None => _ end) =>
          destruct x
      end
    | apply framed_bind; [|intros ?] ].

(** Whatever they do, the eleven functions of the factory only make the
    test case grow, and raise only the factory's own exceptions. *)
Lemma engine_framed_all INSTANCE cluster fuel w0 :
  engine_framed INSTANCE cluster fuel w0.
Proof.
  induction fuel as [|fuel IH].
  { constructor; intros; simpl; frame. }
  constructor; intros; simpl.
  - apply framed_bind;
      [destruct (p =? -1); [apply framed_size|apply framed_ret]|].
    intros new_position. destruct g; frame.
  - destruct (d >? _); [frame|].
    apply framed_bind; [frame|]. intros position.
    apply framed_bind; [frame|]. intros length.
    apply framed_try_except; [by intros e He|]. frame.
  - frame.
  - frame.
  - frame.
  - apply framed_bind; [frame|]. intros position.
    apply framed_satisfy_loop.
    + intros t q. destruct reuse; frame.
    + intros Hreuse t q w w' Hrun. destruct reuse; [|done].
      apply _create_or_reuse_variable_some in Hrun as [v Hv]. done.
  - frame.
  - frame.
  - frame.
  - frame.
  - frame.
Qed.

(** X14: whatever a call of the factory does, and however it ends
    (a returned reference, an exception, an exhausted budget), the test
    case has only grown: the statements it had are still there, in their
    order and unchanged up to the distances of their return values; every
    variable reference allocated during the call is the return value of
    exactly one new statement; and if the return values were pairwise
    distinct objects older than the allocator, they still are.  This holds
    for the five [add_*] operations, for [append_generic_statement] and for
    [satisfy_parameters]. *)
Theorem factory_only_grows INSTANCE cluster fuel w :
  (forall op position recursion_depth allow_none,
     only_grows w
       (snd (run_add INSTANCE cluster fuel op position recursion_depth
               allow_none w)))
  /\ (forall statement position recursion_depth allow_none,
        only_grows w
          (snd (append_generic_statement INSTANCE cluster fuel statement
                  position recursion_depth allow_none w)))
  /\ (forall parameter_types callee position recursion_depth allow_none
        can_reuse_existing_variables,
        only_grows w
          (snd (satisfy_parameters INSTANCE cluster fuel parameter_types
                  callee position recursion_depth allow_none
                  can_reuse_existing_variables w))).
Proof.
  pose proof (engine_framed_all INSTANCE cluster fuel w) as H.
  pose proof (only_grows_refl w) as Hw.
  split; [|split].
  - intros op p d an.
    assert (Hf : framed w false (run_add INSTANCE cluster fuel op p d an)).
    { destruct op; simpl; try apply H. apply framed_add_primitive. }
    specialize (Hf w Hw).
    destruct (run_add _ _ _ _ _ _ _ w) as [[a|e|] w1]; simpl; tauto.
  - intros g p d an.
    pose proof (framed_append_generic_statement _ _ _ _ H g p d an w Hw)
      as Hf.
    destruct (append_generic_statement _ _ _ _ _ _ _ w) as [[a|e|] w1];
      simpl; tauto.
  - intros ps callee p d an reuse.
    pose proof (framed_satisfy_parameters _ _ _ _ H ps callee p d an reuse
                  w Hw) as Hf.
    destruct (satisfy_parameters _ _ _ _ _ _ _ _ _ w) as [[a|e|] w1];
      simpl; tauto.
Qed.



(** ** Where an operation puts its statements *)

Lemma ins_snoc {A} n (blk : list A) x l :
  ins (n + length blk) [x] (ins n blk l) = ins n (blk ++ [x]) l.
Proof.
  unfold ins. destruct (decide (n <= length l)%nat) as [Hle|Hgt].
  - assert (Hlen : length (take n l) = n) by (rewrite length_take; lia).
    rewrite (app_assoc (take n l) blk (drop n l)).
    rewrite take_app_length', drop_app_length'
      by (rewrite length_app; lia).
    by rewrite <- !app_assoc.
  - rewrite (take_ge l), (drop_ge l) by lia. rewrite !app_nil_r.
    rewrite take_ge, drop_ge by (rewrite length_app; lia).
    by rewrite <- !app_assoc.
Qed.

(** X16: the statements of one operation form one block.  When
    [add_constructor], [add_method], [add_function] or [add_field] returns
    in a well-formed test case, the statements it inserted (those of its
    callee and parameters, then its own) sit together at the position: the
    return values before the position and from the position on are the old
    ones in their order, the operation's own statement is the last of the
    block, at the position plus the number of statements inserted for its
    dependencies, and the returned reference was allocated by the call. *)
Theorem add_inserts_one_block INSTANCE cluster fuel op position
    recursion_depth allow_none w v w' :
  takes_recursion_depth op = true ->
  wf_world w = true ->
  run_add INSTANCE cluster fuel op position recursion_depth allow_none w
    = (Returns v, w') ->
  exists blk,
    ids (statements w')
    = ins (Z.to_nat (effective_position position w)) (blk ++ [vr_id v])
        (ids (statements w))
    /\ get_statement_position v (statements w')
       = Returns (Nat.min (Z.to_nat (effective_position position w))
                    (length (statements w)) + length blk)%nat
    /\ (next_id w <= vr_id v)%nat.
Proof.
  intros Hop Hwf H.
  pose proof (engine_sound_all INSTANCE cluster fuel) as Hs.
  assert (Hem : emitted op (effective_position position w) w v w').
  { destruct op; simpl in H; try discriminate.
    - by apply (sound_add_constructor _ _ _ Hs) in H.
    - by apply (sound_add_method _ _ _ Hs) in H.
    - by apply (sound_add_function _ _ _ Hs) in H.
    - by apply (sound_add_field _ _ _ Hs) in H. }
  set (n := Z.to_nat (effective_position position w)) in *.
  destruct Hem as (st & w1 & owned & Hown & _ & Hid & Hv & _ & Hst & _).
  destruct Hown as (Hwf1 & Hmono & (k & blk & Hk & Hids) & _).
  fold n in Hst, Hids.
  assert (Hlen : length (statements w1) = (length (statements w) + k)%nat).
  { rewrite <- (length_map ret_id (statements w1)).
    fold (ids (statements w1)). rewrite Hids, length_ins, Hk.
    unfold ids. by rewrite length_map. }
  replace (n + (length (statements w1) - length (statements w)))%nat
    with (n + length blk)%nat in Hst by lia.
  assert (Hv' : ret_id st = vr_id v) by (by rewrite <- Hv).
  exists blk. split; [|split].
  - rewrite Hst, ids_ins, Hids. simpl. rewrite Hv'. apply ins_snoc.
  - unfold get_statement_position. rewrite Hst. unfold ins.
    change ([st] ++ drop (n + length blk) (statements w1))
      with (st :: drop (n + length blk) (statements w1)).
    rewrite find_position_at; [| |done].
    + f_equal. rewrite length_take, Hlen. lia.
    + rewrite <- Hv', Hid. intros Hin.
      apply wf_world_iff in Hwf1 as [_ Hlt].
      assert (Hin' : next_id w1 ∈ ids (statements w1)).
      { unfold ids in *. apply list_elem_of_fmap in Hin as (s & Hs' & Hin).
        apply list_elem_of_fmap. exists s. split; [done|].
        by eapply subseteq_take. }
      specialize (Hlt _ Hin'). lia.
  - rewrite <- Hv', Hid. exact Hmono.
Qed.

Lemma add_inserts_one_block_witness :
  let w := Examples.one_int Examples.high in
  exists blk,
    ids (statements
           (snd (run_add Examples.config Examples.cluster 20
                   (AddMethod Examples.Foo_m) 0 0 false w)))
    = ins 0 (blk ++ [3%nat]) (ids (statements w)).
Proof.
  intros w.
  destruct (add_inserts_one_block Examples.config Examples.cluster 20
              (AddMethod Examples.Foo_m) 0 0 false w
              (mkVariableReference 3 NoType 0)
              (snd (run_add Examples.config Examples.cluster 20
                      (AddMethod Examples.Foo_m) 0 0 false w)))
    as (blk & Hids & _).
  - reflexivity.
  - reflexivity.
  - vm_compute. reflexivity.
  - exists blk. exact Hids.
Defined.

(** ** Parameters of primitive types *)

Lemma is_primitive_type_inv t :
  is_primitive_type t = true ->
  is_union_type t = false /\ is_none_value t = false
  /\ truthy_type t = true /\ Concrete (primitive_type_for t) = t.
Proof.
  intros H. apply bool_decide_eq_true in H. unfold PRIMITIVES in H.
  rewrite !elem_of_cons, elem_of_nil in H.
  destruct H as [->|[->|[->|[->|[]]]]]; by vm_compute.
Qed.

Lemma length_python_insert {A} position (x : A) l :
  length (if position =? -1 then l ++ [x] else list_insert_py position x l)
  = S (length l).
Proof.
  destruct (python_insert_is_ins position x l) as [i ->].
  rewrite length_ins. simpl. lia.
Qed.

Lemma _create_primitive_run t position d w :
  exists v w',
    _create_primitive t position d w = (Returns v, w')
    /\ _variable_type v = Concrete (primitive_type_for t)
    /\ length (statements w') = S (length (statements w)).
Proof.
  unfold _create_primitive, primitive_type_for.
  repeat case_bool_decide;
    (eexists _, _; split; [reflexivity|]; split; [reflexivity|];
     cbn [statements set_distance add_statement snd ret_val];
     by rewrite length_map, length_python_insert).
Qed.

Lemma visible_objects_type t position w v :
  v ∈ visible_objects t position w -> _variable_type v = t.
Proof.
  unfold visible_objects, get_objects. simpl.
  destruct (truthy_type t); [|by intros ?%elem_of_nil].
  intros Hin. by apply list_elem_of_filter in Hin as [Hin _].
Qed.

Lemma _create_variable_primitive INSTANCE cluster fuel t position d an
    exclude :
  is_primitive_type t = true ->
  _create_variable INSTANCE cluster (S (S fuel)) t position d an exclude
  = option_ret (_create_primitive t position d).
Proof.
  intros Hprim. destruct (is_primitive_type_inv t Hprim) as (_ & _ & Ht & _).
  simpl. by rewrite Ht, Hprim.
Qed.

Lemma primitive_resolves INSTANCE cluster fuel t position d an exclude w :
  is_primitive_type t = true ->
  exists v w',
    _create_or_reuse_variable INSTANCE cluster (S (S (S fuel))) t position d
      an exclude w = (Returns (Some v), w')
    /\ _variable_type v = t
    /\ (length (statements w) <= length (statements w')
        <= length (statements w) + 1)%nat.
Proof.
  intros Hprim.
  destruct (is_primitive_type_inv t Hprim) as (Hu & Hn & Ht & Hty).
  remember (S (S fuel)) as fuel2 eqn:Hfuel.
  simpl. rewrite Hu.
  rewrite (bind_run (ret t) _ w t w eq_refl).
  rewrite (bind_run _ _ _ _ _ (next_float_run w)).
  rewrite (bind_run _ _ _ _ _ (get_objects_run t position (advance w))).
  rewrite Hprim, Hn. cbn [negb andb].
  destruct (nonempty (visible_objects t position (advance w))
            && float_le _ _) eqn:Hreuse.
  - apply andb_true_iff in Hreuse as [Hne _].
    assert (Hobj : visible_objects t position (advance w) <> []).
    { intros Heq. by rewrite Heq in Hne. }
    destruct (choice_nonempty _ (advance w) Hobj) as (x & Hx & Hrun).
    exists x, (advance (advance w)). unfold option_ret.
    rewrite (bind_run _ _ _ _ _ Hrun). split; [done|]. split.
    + by eapply visible_objects_type.
    + simpl. lia.
  - rewrite (bind_run _ _ _ _ _ (size_run (advance w))).
    rewrite andb_false_r. cbn [andb]. subst fuel2.
    rewrite _create_variable_primitive by done.
    destruct (_create_primitive_run t position d (advance w))
      as (v & w' & Hrun & Hv & Hlen).
    exists v, w'. unfold option_ret at 1.
    rewrite (bind_run _ _ _ _ _ (bind_run _ _ _ _ _ Hrun)).
    split; [done|]. split; [by rewrite Hv|].
    rewrite Hlen. simpl. lia.
Qed.

Lemma try_except_run {A} (m : M A) (handler : exn -> M A) w v w' :
  m w = (Returns v, w') -> try_except m handler w = (Returns v, w').
Proof. unfold try_except. by intros ->. Qed.

Lemma satisfy_loop_primitive INSTANCE cluster fuel callee d an items :
  forallb (fun item : string * ptype => is_primitive_type (snd item)) items
  = true ->
  forall position acc w,
  exists vars w',
    satisfy_loop
      (resolver INSTANCE cluster (S (S (S fuel))) callee d an true)
      items position acc w = (Returns (acc ++ vars), w')
    /\ map _variable_type vars = map snd items
    /\ (length (statements w) <= length (statements w')
        <= length (statements w) + length items)%nat.
Proof.
  induction items as [|[name t] items IH]; intros Hall position acc w.
  { exists [], w. rewrite app_nil_r. simpl. split; [done|]. split; [done|lia]. }
  simpl in Hall. apply andb_true_iff in Hall as [Ht Hall].
  cbn [satisfy_loop].
  rewrite (bind_run _ _ _ _ _ (size_run w)).
  destruct (primitive_resolves INSTANCE cluster fuel t position d an callee
              w Ht) as (v & w1 & Hrun & Hv & Hlen).
  unfold resolver at 1.
  rewrite (bind_run _ _ _ _ _ Hrun).
  rewrite (bind_run _ _ _ _ _ (size_run w1)).
  destruct (IH Hall
              (position
               + (Z.of_nat (length (statements w1))
                  - Z.of_nat (length (statements w))))
              (acc ++ [v]) w1) as (vars & w' & Hloop & Hvars & Hlen').
  exists (v :: vars), w'. rewrite Hloop. split.
  - by rewrite <- app_assoc.
  - split; [simpl; by rewrite Hv, Hvars|]. simpl. lia.
Qed.

(** X17: a constructor or a function whose parameters are all of primitive
    types (or that has none) can always be added.  Within the recursion
    ceiling the operation returns, whatever the test case, the position
    and the random draws, and a recursion budget of five is enough; the
    test case grows by the operation's statement and by at most one
    literal per parameter. *)
Theorem primitive_signature_always_added INSTANCE cluster fuel op signature
    position recursion_depth allow_none w :
  own_signature op = Some signature ->
  all_primitive signature = true ->
  recursion_depth <= max_recursion INSTANCE ->
  exists v w',
    run_add INSTANCE cluster (S (S (S (S (S fuel))))) op position
      recursion_depth allow_none w = (Returns v, w')
    /\ (length (statements w) + 1 <= length (statements w')
        <= length (statements w) + length (parameters signature) + 1)%nat.
Proof.
  intros Hsig Hall Hd.
  assert (Hceil : (recursion_depth >? max_recursion INSTANCE) = false).
  { rewrite Z.gtb_ltb. apply Z.ltb_ge. lia. }
  destruct (satisfy_loop_primitive INSTANCE cluster fuel None
              (recursion_depth + 1) allow_none (parameters signature) Hall
              (effective_position position w) [] w)
    as (vars & w1 & Hloop & _ & Hlen).
  remember (S (S (S (S fuel)))) as fuel4 eqn:Hfuel.
  assert (Hsat :
    satisfy_parameters INSTANCE cluster fuel4 (parameters signature) None
      (effective_position position w) (recursion_depth + 1) allow_none true
      w = (Returns vars, w1)).
  { subst fuel4. rewrite satisfy_parameters_unfold.
    rewrite effective_position_id by apply effective_position_nonneg.
    exact Hloop. }
  destruct op as [c|m|f|fld|p]; try discriminate; injection Hsig as <-;
    simpl; rewrite Hceil;
    rewrite (bind_run _ _ _ _ _ (position_run position w));
    rewrite (bind_run _ _ _ _ _ (size_run w)).
  - eexists _, _. split.
    + apply try_except_run.
      rewrite (bind_run _ _ _ _ _ Hsat).
      rewrite (bind_run _ _ _ _ _ (size_run w1)). reflexivity.
    + cbn [statements snd add_statement new_ConstructorStatement].
      rewrite length_python_insert. lia.
  - eexists _, _. split.
    + rewrite (bind_run _ _ _ _ _ Hsat).
      rewrite (bind_run _ _ _ _ _ (size_run w1)). reflexivity.
    + cbn [statements snd add_statement new_FunctionStatement].
      rewrite length_python_insert. lia.
Qed.

Lemma primitive_signature_always_added_witness :
  let op := AddFunction
              (mkGenericFunction "f"
                 (mkInferredSignature
                    [("x"%string, Concrete py_int);
                     ("s"%string, Concrete py_str)] NoType)) in
  exists v w',
    run_add Examples.config Examples.empty_cluster 5 op (-1) 10 false
      (Examples.one_int Examples.high) = (Returns v, w')
    /\ (2 <= length (statements w') <= 4)%nat.
Proof.
  intros op.
  apply (primitive_signature_always_added Examples.config
           Examples.empty_cluster 0 op
           (mkInferredSignature
              [("x"%string, Concrete py_int); ("s"%string, Concrete py_str)]
              NoType)
           (-1) 10 false (Examples.one_int Examples.high)).
  - reflexivity.
  - reflexivity.
  - simpl. lia.
Defined.

(** ** The recursion ceiling and termination *)

Lemma fw_bind {A B} (Q : A -> Prop) (R : B -> Prop) (m : M A)
    (k : A -> M B) :
  finishes_with Q m -> (forall a, Q a -> finishes_with R (k a)) ->
  finishes_with R (bind m k).
Proof.
  intros Hm Hk w _. specialize (Hm w I). unfold bind.
  destruct (m w) as [[a|e|] w1]; try done. by apply Hk.
Qed.

Lemma fw_weaken {A} (Q R : A -> Prop) (m : M A) :
  finishes_with Q m -> (forall a, Q a -> R a) -> finishes_with R m.
Proof.
  intros Hm HQR w _. specialize (Hm w I).
  destruct (m w) as [[a|e|] w1]; try done. by apply HQR.
Qed.

Lemma fw_ret {A} (Q : A -> Prop) a : Q a -> finishes_with Q (ret a).
Proof. by intros Ha w _. Qed.

Lemma fw_raise {A} (Q : A -> Prop) e : finishes_with Q (raise e).
Proof. by intros w _. Qed.

Lemma fw_returns {A} (m : M A) :
  (forall w, exists a w', m w = (Returns a, w')) ->
  finishes_with (fun _ => True) m.
Proof. intros Hm w _. by destruct (Hm w) as (a & w' & ->). Qed.

Lemma fw_size : finishes_with (fun _ => True) size.
Proof. apply fw_returns. intros w. by eexists _, _. Qed.

Lemma fw_position position :
  finishes_with (fun _ => True)
    (if position <? 0 then size else ret position).
Proof. destruct (position <? 0); [apply fw_size|by apply fw_ret]. Qed.

Lemma fw_next_float : finishes_with (fun _ => True) next_float.
Proof. apply fw_returns. intros w. by eexists _, _. Qed.

Lemma fw_get_objects t position :
  finishes_with (fun _ => True) (get_objects t position).
Proof. apply fw_returns. intros w. by eexists _, _. Qed.

Lemma fw_statements_before position :
  finishes_with (fun _ => True) (statements_before position).
Proof. apply fw_returns. intros w. by eexists _, _. Qed.

Lemma fw_choice {A} (seq : list A) :
  finishes_with (fun x => x ∈ seq) (choice seq).
Proof.
  intros w _. destruct (choice seq w) as [[x|e|] w1] eqn:Hrun; try done.
  - by apply choice_inv in Hrun as [Hx _].
  - unfold choice in Hrun. destruct seq; [discriminate|].
    unfold bind, draw in Hrun. simpl in Hrun.
    by destruct (_ !! _).
Qed.

Lemma fw_option_ret {A} (Q : A -> Prop) (m : M A) :
  finishes_with Q m -> finishes_with (fun o => o <> None) (option_ret m).
Proof.
  intros Hm. eapply fw_bind; [exact Hm|]. intros a _. by apply fw_ret.
Qed.

Lemma fw_select_from_union t :
  finishes_with (fun _ => True)
    (if is_union_type t then _select_from_union t else ret t).
Proof.
  destruct (is_union_type t) eqn:Hu; [|by apply fw_ret].
  unfold _select_from_union. rewrite Hu. simpl.
  eapply fw_bind; [apply fw_choice|]. intros a _. by apply fw_ret.
Qed.

Lemma fw_create_primitive t position d :
  finishes_with (fun _ => True) (_create_primitive t position d).
Proof.
  apply fw_returns. intros w.
  destruct (_create_primitive_run t position d w) as (v & w' & H & _).
  eauto.
Qed.

Lemma fw_create_none t position d :
  finishes_with (fun _ => True) (_create_none t position d).
Proof.
  intros w _. unfold _create_none, bind, get_statement. simpl.
  destruct (_ && _); [|done]. by destruct (_ !! _).
Qed.

Lemma fw_emit (new : M Statement) position :
  allocates new ->
  finishes_with (fun _ => True)
    (statement <- new ;; add_statement statement position).
Proof.
  intros Hnew w _. unfold bind.
  by destruct (Hnew w) as (st & w1 & -> & _).
Qed.

Lemma fw_try_except {A} (m : M A) (wrap : exn -> exn) :
  finishes_with (fun _ => True) m ->
  finishes_with (fun _ => True)
    (try_except m (fun exception => raise (wrap exception))).
Proof.
  intros Hm w _. specialize (Hm w I). unfold try_except.
  by destruct (m w) as [[a|e|] w1].
Qed.

Lemma fw_satisfy_loop resolve :
  (forall t p, finishes_with (fun _ => True) (resolve t p)) ->
  forall items position parameters,
    finishes_with (fun _ => True)
      (satisfy_loop resolve items position parameters).
Proof.
  intros Hres items.
  induction items as [|[name t] items IH]; intros position acc; simpl.
  { by apply fw_ret. }
  eapply fw_bind; [apply fw_size|]. intros previous_length _.
  eapply fw_bind; [apply Hres|]. intros [var|] _; [|apply fw_raise].
  eapply fw_bind; [apply fw_size|]. intros current_length _. apply IH.
Qed.

(** A type drawn by [_create_random_type_variable] from a productive
    catalog. *)
Lemma productive_lookup t items :
  forallb
    (fun item : ptype * list GenericAccessibleObject =>
       match fst item with
       | Concrete _ => is_primitive_type (fst item) || nonempty (snd item)
       | _ => false
       end) items = true ->
  t ∈ map fst items ->
  (exists c, t = Concrete c)
  /\ (is_primitive_type t = true
      \/ nonempty (lookup_generators t items) = true).
Proof.
  induction items as [|[k g] items IH]; intros Hall Hin.
  { by apply elem_of_nil in Hin. }
  simpl in Hall. apply andb_true_iff in Hall as [Hk Hall].
  simpl. case_bool_decide as Heq.
  - subst k. destruct t as [|c|arms]; try discriminate.
    split; [eauto|]. by apply orb_true_iff in Hk.
  - simpl in Hin. apply elem_of_cons in Hin as [->|Hin]; [done|].
    by apply IH.
Qed.

Lemma productive_type cluster t :
  productive cluster = true ->
  t ∈ map fst (generators cluster) ++ PRIMITIVES ->
  is_union_type t = false /\ is_none_value t = false
  /\ truthy_type t = true
  /\ (is_primitive_type t = true
      \/ nonempty (get_generators_for cluster t) = true).
Proof.
  intros Hprod Hin. apply elem_of_app in Hin as [Hin|Hin].
  - destruct (productive_lookup t _ Hprod Hin) as [[c ->] Hgen]. done.
  - assert (Hprim : is_primitive_type t = true)
      by (by apply bool_decide_eq_true).
    destruct (is_primitive_type_inv t Hprim) as (? & ? & ? & _). auto.
Qed.

Ltac finish :=
  repeat first
    [ apply fw_raise
    | apply fw_size
    | apply fw_position
    | apply fw_next_float
    | apply fw_get_objects
    | apply fw_statements_before
    | apply fw_choice
    | apply fw_select_from_union
    | apply fw_create_none
    | apply fw_create_primitive
    | apply fw_ret; done
    | apply fw_emit;
      first [ apply allocates_new_ConstructorStatement
            | apply allocates_new_MethodStatement
            | apply allocates_new_FunctionStatement
            | apply allocates_new_FieldStatement
            | apply allocates_clone_primitive ]
    | eapply fw_weaken; [eapply fw_option_ret|done]
    | match goal with
      | |- finishes_with _ (if ?c then _ else _) => destruct c eqn:?
      | |- finishes_with _ (match ?x with Some _ => _ | None => _ end) =>
          destruct x eqn:?
      end ].

Section Terminates.

Variable INSTANCE : Configuration.
Variable cluster : TestCluster.
Hypothesis Hprod : productive cluster = true.
Variable levels : nat.
Hypothesis Hadd : adds_finish INSTANCE cluster levels.

Lemma append_generic_statement_finishes fuel g p d an :
  (9 * levels + 1 <= fuel)%nat ->
  max_recursion INSTANCE - Z.of_nat levels <= d - 1 ->
  finishes_with (fun o => o <> None)
    (append_generic_statement INSTANCE cluster fuel g p d an).
Proof.
  intros Hfuel Hd.
  destruct fuel as [|fuel]; [lia|]. simpl.
  eapply fw_bind with (Q := fun _ => True).
  { destruct (p =? -1); [apply fw_size|by apply fw_ret]. }
  intros new_position _. destruct g as [c|m|f|fld|]; [| | | |apply fw_raise].
  - eapply fw_option_ret, (Hadd fuel (AddConstructor c)); lia.
  - eapply fw_option_ret, (Hadd fuel (AddMethod m)); lia.
  - eapply fw_option_ret, (Hadd fuel (AddFunction f)); lia.
  - eapply fw_option_ret, (Hadd fuel (AddField fld) _ _ true); lia.
Qed.

Lemma _attempt_generation_for_type_finishes fuel p d an gens :
  (9 * levels + 2 <= fuel)%nat ->
  max_recursion INSTANCE - Z.of_nat levels <= d ->
  finishes_with (fun o => o <> None)
    (_attempt_generation_for_type INSTANCE cluster fuel p d an gens).
Proof.
  intros Hfuel Hd.
  destruct fuel as [|fuel]; [lia|]. simpl.
  eapply fw_bind; [apply fw_choice|]. intros g _.
  apply append_generic_statement_finishes; lia.
Qed.

Lemma _attempt_generation_finishes fuel t p d an exclude :
  (9 * levels + 3 <= fuel)%nat ->
  max_recursion INSTANCE - Z.of_nat levels <= d ->
  finishes_with (nothing_to_generate cluster t)
    (_attempt_generation INSTANCE cluster fuel t p d an exclude).
Proof.
  intros Hfuel Hd. destruct fuel as [|fuel]; [lia|]. simpl.
  destruct (truthy_type t) eqn:Ht; simpl.
  2:{ apply fw_ret. intros _. by left. }
  destruct (is_primitive_type t) eqn:Hprim.
  { eapply fw_weaken; [eapply fw_option_ret, fw_create_primitive|].
    by intros o Ho ->. }
  destruct (nonempty (get_generators_for cluster t)) eqn:Hgen.
  { eapply fw_weaken;
      [apply _attempt_generation_for_type_finishes; [lia|done]|].
    by intros o Ho ->. }
  assert (Hnone : finishes_with (nothing_to_generate cluster t)
                    (ret None)).
  { apply fw_ret. intros _. right. by split. }
  destruct an; [|exact Hnone].
  eapply fw_bind; [apply fw_next_float|]. intros none_draw _.
  destruct (float_le _ _); [|exact Hnone].
  eapply fw_weaken; [eapply fw_option_ret, fw_create_none|].
  by intros o Ho ->.
Qed.

Lemma _create_variable_finishes fuel t p d an exclude :
  (9 * levels + 4 <= fuel)%nat ->
  max_recursion INSTANCE - Z.of_nat levels <= d ->
  finishes_with (nothing_to_generate cluster t)
    (_create_variable INSTANCE cluster fuel t p d an exclude).
Proof.
  intros Hfuel Hd. destruct fuel as [|fuel]; [lia|]. simpl.
  apply _attempt_generation_finishes; [lia|done].
Qed.

(** Resolving a type drawn from the catalog never falls back on another
    random type. *)
Lemma _create_or_reuse_variable_finishes_drawn fuel t p d an exclude :
  (9 * levels + 5 <= fuel)%nat ->
  max_recursion INSTANCE - Z.of_nat levels <= d ->
  t ∈ map fst (generators cluster) ++ PRIMITIVES ->
  finishes_with (fun _ => True)
    (_create_or_reuse_variable INSTANCE cluster fuel t p d an exclude).
Proof.
  intros Hfuel Hd Ht.
  destruct (productive_type cluster t Hprod Ht) as (Hu & Hn & Htr & Hgen).
  destruct fuel as [|fuel]; [lia|]. simpl. rewrite Hu.
  eapply (fw_bind (fun x => x = t)); [by apply fw_ret|]. intros t' ->.
  eapply fw_bind; [apply fw_next_float|]. intros reuse _.
  eapply fw_bind; [apply fw_get_objects|]. intros objects _.
  rewrite Hn.
  destruct (is_primitive_type t && nonempty objects && float_le _ _);
    [finish|].
  destruct (negb _ && _ && _); [finish|].
  eapply fw_bind; [apply fw_size|]. intros test_case_size _.
  rewrite andb_false_r. cbn [andb].
  eapply fw_bind; [apply _create_variable_finishes; [lia|done]|].
  intros [created|] Hnone; [by apply fw_ret|].
  exfalso. destruct (Hnone eq_refl) as [Hf|[Hp Hg]]; destruct Hgen;
    congruence.
Qed.

Lemma _create_random_type_variable_finishes fuel p d an :
  (9 * levels + 6 <= fuel)%nat ->
  max_recursion INSTANCE - Z.of_nat levels <= d ->
  finishes_with (fun _ => True)
    (_create_random_type_variable INSTANCE cluster fuel p d an).
Proof.
  intros Hfuel Hd.
  destruct fuel as [|fuel]; [lia|]. simpl.
  eapply fw_bind; [apply fw_choice|]. intros t Ht.
  apply _create_or_reuse_variable_finishes_drawn;
    [lia|lia|done].
Qed.

Ltac fall_back :=
  eapply fw_bind;
    [eapply fw_weaken; [apply _create_variable_finishes; [lia|done]|done]|];
  intros [?|] _; [by apply fw_ret|];
  destruct (negb _); [|finish];
  eapply fw_bind; [apply fw_next_float|]; intros ? _;
  destruct (float_le _ _);
    [apply _create_random_type_variable_finishes; [lia|done]|finish].

Lemma _create_or_reuse_variable_finishes fuel t p d an exclude :
  (9 * levels + 7 <= fuel)%nat ->
  max_recursion INSTANCE - Z.of_nat levels <= d ->
  finishes_with (fun _ => True)
    (_create_or_reuse_variable INSTANCE cluster fuel t p d an exclude).
Proof.
  intros Hfuel Hd. destruct fuel as [|fuel]; [lia|]. simpl.
  eapply fw_bind; [apply fw_select_from_union|]. intros t' _.
  eapply fw_bind; [apply fw_next_float|]. intros reuse _.
  eapply fw_bind; [apply fw_get_objects|]. intros objects _.
  destruct (is_primitive_type t' && nonempty objects && float_le _ _);
    [finish|].
  destruct (negb _ && _ && _); [finish|].
  eapply fw_bind; [apply fw_size|]. intros test_case_size _.
  destruct (_ && _ && _); [|fall_back].
  eapply fw_bind; [apply fw_statements_before|]. intros before _.
  destruct (nonempty _); [finish|fall_back].
Qed.

Lemma satisfy_parameters_finishes fuel params callee p d an reuse :
  (9 * levels + 8 <= fuel)%nat ->
  max_recursion INSTANCE - Z.of_nat levels <= d ->
  finishes_with (fun _ => True)
    (satisfy_parameters INSTANCE cluster fuel params callee p d an reuse).
Proof.
  intros Hfuel Hd. destruct fuel as [|fuel]; [lia|]. simpl.
  eapply fw_bind; [apply fw_position|]. intros position _.
  apply fw_satisfy_loop. intros t q. destruct reuse.
  - apply _create_or_reuse_variable_finishes; [lia|done].
  - eapply fw_weaken; [apply _create_variable_finishes; [lia|done]|done].
Qed.

Lemma adds_finish_step : adds_finish INSTANCE cluster (S levels).
Proof.
  intros fuel op p d an Hfuel Hd.
  assert (Hd0 : max_recursion INSTANCE - Z.of_nat levels <= d) by lia.
  assert (Hd1 : max_recursion INSTANCE - Z.of_nat levels <= d + 1) by lia.
  destruct fuel as [|fuel]; [lia|].
  destruct op as [c|m|f|fld|prim]; simpl.
  - destruct (d >? max_recursion INSTANCE); [apply fw_raise|].
    eapply fw_bind; [apply fw_position|]. intros position _.
    eapply fw_bind; [apply fw_size|]. intros length _.
    apply fw_try_except.
    eapply fw_bind; [apply satisfy_parameters_finishes; [lia|done]|].
    intros parameters _.
    eapply fw_bind; [apply fw_size|]. intros new_length _. finish.
  - destruct (d >? max_recursion INSTANCE); [apply fw_raise|].
    eapply fw_bind; [apply fw_position|]. intros position _.
    eapply fw_bind; [apply fw_size|]. intros length _.
    eapply fw_bind;
      [apply _create_or_reuse_variable_finishes; [lia|done]|].
    intros [callee|] _; [|apply fw_raise].
    eapply fw_bind; [apply satisfy_parameters_finishes; [lia|done]|].
    intros parameters _.
    eapply fw_bind; [apply fw_size|]. intros new_length _. finish.
  - destruct (d >? max_recursion INSTANCE); [apply fw_raise|].
    eapply fw_bind; [apply fw_position|]. intros position _.
    eapply fw_bind; [apply fw_size|]. intros length _.
    eapply fw_bind; [apply satisfy_parameters_finishes; [lia|done]|].
    intros parameters _.
    eapply fw_bind; [apply fw_size|]. intros new_length _. finish.
  - destruct (d >? max_recursion INSTANCE); [apply fw_raise|].
    eapply fw_bind; [apply fw_position|]. intros position _.
    eapply fw_bind; [apply fw_size|]. intros length _.
    eapply fw_bind;
      [apply _create_or_reuse_variable_finishes; [lia|done]|].
    intros [callee|] _; [|apply fw_raise].
    eapply fw_bind; [apply fw_size|]. intros new_length _. finish.
  - unfold add_primitive.
    eapply fw_bind; [apply fw_position|]. intros position _. finish.
Qed.

End Terminates.

Lemma adds_finish_all INSTANCE cluster levels :
  productive cluster = true -> adds_finish INSTANCE cluster levels.
Proof.
  intros Hprod. induction levels as [|levels IH].
  - intros fuel op p d an _ Hd.
    assert (Hceil : (d >? max_recursion INSTANCE) = true).
    { rewrite Z.gtb_ltb. apply Z.ltb_lt. lia. }
    destruct op, fuel; simpl; rewrite ?Hceil; try apply fw_raise.
    all: unfold add_primitive.
    all: eapply fw_bind; [apply fw_position|]; intros position _; finish.
  - by apply adds_finish_step.
Qed.

(** X18: the recursion ceiling bounds the recursion.  When every type the
    catalog lists is a class that is primitive or has a generator, an
    [add_*] operation called at [recursion_depth] ends (with a reference
    or an exception) within nine nested calls of the factory for each
    level between [recursion_depth] and the ceiling, whatever the test
    case and the random draws. *)
Theorem recursion_ceiling_bounds_recursion INSTANCE cluster fuel op position
    recursion_depth allow_none w :
  productive cluster = true ->
  (9 * Z.to_nat (max_recursion INSTANCE + 1 - recursion_depth) <= fuel)%nat ->
  fst (run_add INSTANCE cluster fuel op position recursion_depth allow_none
         w) <> OutOfFuel.
Proof.
  intros Hprod Hfuel.
  pose proof (adds_finish_all INSTANCE cluster
                (Z.to_nat (max_recursion INSTANCE + 1 - recursion_depth))
                Hprod fuel op position recursion_depth allow_none Hfuel)
    as Hfin.
  assert (Hd : max_recursion INSTANCE + 1
               - Z.of_nat (Z.to_nat (max_recursion INSTANCE + 1
                                     - recursion_depth))
               <= recursion_depth) by lia.
  specialize (Hfin Hd w I).
  by destruct (run_add _ _ _ _ _ _ _ w) as [[v|e|] w'].
Qed.

Lemma recursion_ceiling_bounds_recursion_witness :
  fst (run_add Examples.config Examples.cluster 99
         (AddMethod Examples.Foo_m) (-1) 0 true
         (Examples.one_int Examples.low)) <> OutOfFuel.
Proof.
  apply (recursion_ceiling_bounds_recursion Examples.config
           Examples.cluster 99 (AddMethod Examples.Foo_m) (-1) 0 true
           (Examples.one_int Examples.low)).
  - reflexivity.
  - vm_compute. lia.
Defined.

(** ** More of reuse-or-create resolution *)

Lemma visible_objects_advance t position w :
  visible_objects t position (advance w) = visible_objects t position w.
Proof. by apply visible_objects_same. Qed.

(** X19: a parameter without a declared type takes any variable.  When
    the requested type is [None] and at least one statement stands before
    the position, reuse-or-create resolution returns the return value of
    one of the statements before the position, whatever its type; it
    draws twice (the unused reuse float and the choice) and leaves the
    test case as it was. *)
Theorem undeclared_type_takes_any_variable INSTANCE cluster fuel position
    recursion_depth allow_none exclude w :
  slice_to position (statements w) <> [] ->
  exists v,
    v ∈ map ret_val (slice_to position (statements w))
    /\ _create_or_reuse_variable INSTANCE cluster (S fuel) NoType position
         recursion_depth allow_none exclude w
       = (Returns (Some v), advance (advance w)).
Proof.
  intros Hbefore.
  assert (Hsize : (Z.of_nat (length (statements w)) >? 0) = true).
  { destruct (statements w) as [|st l] eqn:Hl.
    - exfalso. apply Hbefore. unfold slice_to.
      destruct (position <? 0); by rewrite take_nil.
    - rewrite Z.gtb_ltb. apply Z.ltb_lt. cbn [length]. lia. }
  assert (Hvars : map ret_val (slice_to position (statements w)) <> []).
  { intros Heq. apply Hbefore. by apply map_eq_nil in Heq. }
  destruct (choice_nonempty _ (advance w) Hvars) as (v & Hv & Hrun).
  exists v. split; [done|]. simpl.
  rewrite (bind_run (ret NoType) _ w NoType w eq_refl).
  rewrite (bind_run _ _ _ _ _ (next_float_run w)).
  rewrite (bind_run _ _ _ _ _ (get_objects_run NoType position (advance w))).
  change (visible_objects NoType position (advance w)) with
    (@nil VariableReference).
  cbn [nonempty]. rewrite !andb_false_r. cbn [andb].
  rewrite (bind_run _ _ _ _ _ (size_run (advance w))).
  change (statements (advance w)) with (statements w). rewrite Hsize.
  cbn [is_none_value andb negb].
  rewrite (bind_run _ _ _ _ _ (statements_before_run position (advance w))).
  change (statements (advance w)) with (statements w).
  rewrite (nonempty_true _ Hvars). unfold option_ret.
  by rewrite (bind_run _ _ _ _ _ Hrun).
Qed.

Lemma undeclared_type_takes_any_variable_witness :
  _create_or_reuse_variable Examples.config Examples.cluster 1 NoType 1 0
    false None (Examples.one_int Examples.high)
  = (Returns (Some (ret_val Examples.int_literal)),
     advance (advance (Examples.one_int Examples.high))).
Proof.
  destruct (undeclared_type_takes_any_variable Examples.config
              Examples.cluster 0 1 0 false None
              (Examples.one_int Examples.high))
    as (v & Hv & Hrun).
  - discriminate.
  - simpl in Hv. apply list_elem_of_singleton in Hv. subst v. exact Hrun.
Defined.

(** X20: a type that nothing generates is always reused.  For a declared
    class type that is not primitive and has no generator, with [None] not
    allowed and at least one object of the type visible before the
    position, reuse-or-create resolution returns one of the visible
    objects whatever the reuse draw and the reuse probability are, and
    leaves the test case as it was: when the draw rejects reuse, creation
    yields nothing and the existing objects are the last resort. *)
Theorem ungenerated_type_is_reused INSTANCE cluster fuel parameter_type
    position recursion_depth exclude w :
  is_union_type parameter_type = false ->
  parameter_type <> NoType ->
  is_primitive_type parameter_type = false ->
  get_generators_for cluster parameter_type = [] ->
  visible_objects parameter_type position w <> [] ->
  exists v,
    v ∈ visible_objects parameter_type position w
    /\ _create_or_reuse_variable INSTANCE cluster (S (S (S fuel)))
         parameter_type position recursion_depth false exclude w
       = (Returns (Some v), advance (advance w)).
Proof.
  intros Hu Hdecl Hprim Hgen Hobj.
  assert (Ht : truthy_type parameter_type = true)
    by (by destruct parameter_type).
  assert (Hn : is_none_value parameter_type = false)
    by (by destruct parameter_type).
  destruct (choice_nonempty _ (advance w) Hobj) as (v & Hv & Hrun).
  exists v. split; [done|].
  remember (S (S fuel)) as fuel2 eqn:Hfuel.
  simpl. rewrite Hu.
  rewrite (bind_run (ret parameter_type) _ w parameter_type w eq_refl).
  rewrite (bind_run _ _ _ _ _ (next_float_run w)).
  rewrite (bind_run _ _ _ _ _
             (get_objects_run parameter_type position (advance w))).
  rewrite visible_objects_advance.
  rewrite Hprim, (nonempty_true _ Hobj). cbn [negb andb].
  destruct (float_le _ _).
  { unfold option_ret. by rewrite (bind_run _ _ _ _ _ Hrun). }
  rewrite (bind_run _ _ _ _ _ (size_run (advance w))).
  rewrite Hn, andb_false_r. cbn [andb].
  assert (Hcreate :
    _create_variable INSTANCE cluster fuel2 parameter_type position
      recursion_depth false exclude (advance w)
    = (Returns None, advance w)).
  { subst fuel2. simpl. by rewrite Ht, Hprim, Hgen. }
  rewrite (bind_run _ _ _ _ _ Hcreate). cbn [negb].
  unfold option_ret. by rewrite (bind_run _ _ _ _ _ Hrun).
Qed.

Lemma ungenerated_type_is_reused_witness :
  let w := mkWorld
             [mkStatement NoneStatement
                (mkVariableReference 0 (Concrete Examples.Bar) 0) []]
             1 Examples.high in
  exists v,
    _create_or_reuse_variable Examples.config Examples.cluster 3
      (Concrete Examples.Bar) 1 0 false None w
    = (Returns (Some v), advance (advance w)).
Proof.
  intros w.
  destruct (ungenerated_type_is_reused Examples.config Examples.cluster 0
              (Concrete Examples.Bar) 1 0 None w)
    as (v & _ & Hrun).
  - reflexivity.
  - discriminate.
  - reflexivity.
  - reflexivity.
  - discriminate.
  - exists v. exact Hrun.
Defined.

(** ** What the ceiling does not bound *)

Lemma all_zero_advance w : all_zero w -> all_zero (advance w).
Proof. intros H i. apply H. Qed.

Lemma bind_out_of_fuel {A B} (m : M A) (k : A -> M B) w :
  fst (m w) = OutOfFuel -> fst (bind m k w) = OutOfFuel.
Proof.
  unfold bind. destruct (m w) as [[a|e|] w1]; try discriminate. done.
Qed.

Lemma choice_first {A} (a : A) seq w :
  all_zero w -> choice (a :: seq) w = (Returns a, advance w).
Proof.
  intros Hzero. unfold choice.
  rewrite (bind_run draw _ w (rng w 0%nat) (advance w) eq_refl).
  by rewrite Hzero, N.Div0.mod_0_l.
Qed.

Lemma _create_random_type_variable_first INSTANCE cluster key gens rest fuel
    position recursion_depth allow_none w :
  generators cluster = (key, gens) :: rest ->
  all_zero w ->
  _create_random_type_variable INSTANCE cluster (S fuel) position
    recursion_depth allow_none w
  = _create_or_reuse_variable INSTANCE cluster fuel key position
      (recursion_depth + 1) allow_none None (advance w).
Proof.
  intros Hcat Hzero. simpl. rewrite Hcat. cbn [map fst app].
  by rewrite (bind_run _ _ _ _ _ (choice_first _ _ w Hzero)).
Qed.

Lemma resolution_never_ends INSTANCE cluster key arm arms gens rest n :
  key = Union (arm :: arms) ->
  generators cluster = (key, gens) :: rest ->
  is_primitive_type (Concrete arm) = false ->
  get_generators_for cluster (Concrete arm) = [] ->
  forall fuel position recursion_depth exclude w,
    (fuel <= n)%nat ->
    statements w = [] ->
    all_zero w ->
    fst (_create_or_reuse_variable INSTANCE cluster fuel key position
           recursion_depth false exclude w)
    = OutOfFuel.
Proof.
  intros Hkey Hcat Hprim Hgen.
  assert (Hu : is_union_type key = true) by by rewrite Hkey.
  induction n as [|n IH]; intros fuel position d exclude w Hfuel Hst Hzero.
  { by replace fuel with 0%nat by lia. }
  destruct fuel as [|fuel]; [done|].
  assert (Hobj : forall w', statements w' = [] ->
                   visible_objects (Concrete arm) position w' = []).
  { intros w' Hw'. unfold visible_objects, get_objects. simpl.
    by rewrite Hw', take_nil. }
  assert (Hsel : _select_from_union key w
                 = (Returns (Concrete arm), advance w)).
  { rewrite Hkey. unfold _select_from_union. simpl.
    by rewrite (bind_run _ _ _ _ _ (choice_first arm arms w Hzero)). }
  set (w1 := advance w).
  assert (Hzero1 : all_zero w1) by by apply all_zero_advance.
  simpl. rewrite Hu.
  rewrite (bind_run _ _ _ _ _ Hsel). fold w1.
  rewrite (bind_run _ _ _ _ _ (next_float_run w1)).
  rewrite (bind_run _ _ _ _ _
             (get_objects_run (Concrete arm) position (advance w1))).
  rewrite (Hobj (advance w1)) by done.
  rewrite Hprim. cbn [nonempty andb negb is_none_value].
  rewrite (bind_run _ _ _ _ _ (size_run (advance w1))).
  change (statements (advance w1)) with (statements w). rewrite Hst.
  change (Z.of_nat (length (@nil Statement)) >? 0) with false.
  cbn [andb].
  destruct fuel as [|fuel]; [done|].
  destruct fuel as [|fuel]; [done|].
  assert (Hcreate :
    _create_variable INSTANCE cluster (S (S fuel)) (Concrete arm) position d
      false exclude (advance w1)
    = (Returns None, advance w1)).
  { simpl. by rewrite Hprim, Hgen. }
  rewrite (bind_run _ _ _ _ _ Hcreate).
  rewrite (bind_run _ _ _ _ _ (next_float_run (advance w1))).
  change (rng (advance w1) 0%nat) with (rng w 2%nat). rewrite Hzero.
  change (float_le (float_of_draw 0) (Qmake 85 100)) with true.
  cbn iota.
  rewrite (_create_random_type_variable_first INSTANCE cluster key gens
             rest (S fuel) position d false _ Hcat)
    by (by do 3 apply all_zero_advance).
  apply IH; [lia|done|].
  by do 4 apply all_zero_advance.
Qed.

(** X21: the recursion ceiling does not bound the random-type fallback.
    Reuse-or-create resolution falls back on a random type without going
    through an [add_*] operation, so no ceiling is checked on the way.
    Take a catalog in which every listed type has a generator and whose
    first listed type is a [Union] whose first arm is a class that is not
    listed itself.  When a function whose first parameter has that
    [Union] type is added to an empty test case with [None] not allowed,
    and the random source keeps returning its smallest value, the arm
    cannot be constructed, the fallback draws the [Union] again, and so
    on: the call does not end within any recursion budget. *)
Theorem fallback_recursion_is_unbounded INSTANCE cluster arm arms gens rest
    function name others position recursion_depth w fuel :
  generator_bearing cluster = true ->
  generators cluster = (Union (arm :: arms), gens) :: rest ->
  is_primitive_type (Concrete arm) = false ->
  get_generators_for cluster (Concrete arm) = [] ->
  parameters (function_signature function)
  = (name, Union (arm :: arms)) :: others ->
  recursion_depth <= max_recursion INSTANCE ->
  statements w = [] ->
  all_zero w ->
  fst (run_add INSTANCE cluster fuel (AddFunction function) position
         recursion_depth false w)
  = OutOfFuel.
Proof.
  intros _ Hcat Hprim Hgen Hparams Hd Hst Hzero.
  assert (Hceil : (recursion_depth >? max_recursion INSTANCE) = false).
  { rewrite Z.gtb_ltb. apply Z.ltb_ge. lia. }
  destruct fuel as [|fuel]; simpl; rewrite Hceil; [done|].
  rewrite (bind_run _ _ _ _ _ (position_run position w)).
  rewrite (bind_run _ _ _ _ _ (size_run w)).
  apply bind_out_of_fuel.
  destruct fuel as [|fuel]; [done|].
  rewrite satisfy_parameters_unfold, Hparams. cbn [satisfy_loop].
  rewrite (bind_run _ _ _ _ _ (size_run w)).
  apply bind_out_of_fuel. unfold resolver.
  by apply (resolution_never_ends INSTANCE cluster _ arm arms gens rest
              fuel eq_refl).
Qed.

Lemma fallback_recursion_is_unbounded_witness :
  fst (run_add Examples.config Examples.union_cluster 1000
         (AddFunction Examples.needs_Bar_or_Foo) 0 0 false
         (Examples.empty_world Examples.low))
  = OutOfFuel.
Proof.
  apply (fallback_recursion_is_unbounded Examples.config
           Examples.union_cluster Examples.Bar [Examples.Foo]
           [GFunction Examples.returns_Bar_or_Foo] []
           Examples.needs_Bar_or_Foo "u"%string [] 0 0
           (Examples.empty_world Examples.low) 1000).
  - reflexivity.
  - reflexivity.
  - reflexivity.
  - reflexivity.
  - reflexivity.
  - simpl. lia.
  - reflexivity.
  - intros i. reflexivity.
Defined.

(** ** Parameters that are passed along but never read *)

(** X22: the [exclude] parameter (the [callee] of [satisfy_parameters]) is
    passed down the resolution but never read: reuse-or-create
    resolution, fresh construction and [satisfy_parameters] behave the
    same for every value of it.  In particular nothing keeps the excluded
    reference from being reused. *)
Theorem exclude_is_ignored INSTANCE cluster fuel parameter_type
    parameter_types position recursion_depth allow_none
    can_reuse_existing_variables exclude exclude' :
  _create_or_reuse_variable INSTANCE cluster fuel parameter_type position
    recursion_depth allow_none exclude
  = _create_or_reuse_variable INSTANCE cluster fuel parameter_type position
      recursion_depth allow_none exclude'
  /\ _create_variable INSTANCE cluster fuel parameter_type position
       recursion_depth allow_none exclude
     = _create_variable INSTANCE cluster fuel parameter_type position
         recursion_depth allow_none exclude'
  /\ satisfy_parameters INSTANCE cluster fuel parameter_types exclude
       position recursion_depth allow_none can_reuse_existing_variables
     = satisfy_parameters INSTANCE cluster fuel parameter_types exclude'
         position recursion_depth allow_none can_reuse_existing_variables.
Proof.
  split; [|split].
  - by destruct fuel as [|[|[|fuel]]].
  - by destruct fuel as [|[|fuel]].
  - by destruct fuel as [|[|[|[|fuel]]]].
Qed.

(** ** [append_statement] *)

Lemma add_primitive_at_end primitive w :
  let v :=
    mkVariableReference (next_id w) (_variable_type (ret_val primitive)) 0 in
  add_primitive primitive (Z.of_nat (length (statements w))) w
  = (Returns v,
     mkWorld (statements w ++ [mkStatement (kind primitive) v []])
       (S (next_id w)) (rng w)).
Proof.
  intros v. unfold add_primitive.
  assert (Hneg : (Z.of_nat (length (statements w)) <? 0) = false)
    by (apply Z.ltb_ge; lia).
  assert (Hend : (Z.of_nat (length (statements w)) =? -1) = false)
    by (apply Z.eqb_neq; lia).
  rewrite Hneg. unfold bind, ret, clone_primitive, new_reference,
    add_statement. simpl. rewrite Hend. f_equal. f_equal.
  unfold list_insert_py. rewrite Hneg.
  rewrite Z.min_id, Nat2Z.id, take_ge, drop_ge by lia. done.
Qed.

Lemma run_add_at_end INSTANCE cluster fuel op recursion_depth allow_none w v
    w' :
  wf_world w = true ->
  run_add INSTANCE cluster fuel op (Z.of_nat (length (statements w)))
    recursion_depth allow_none w = (Returns v, w') ->
  exists st,
    last (statements w') = Some st
    /\ emitted_by op st
    /\ ret_val st = v
    /\ (next_id w <= ret_id st)%nat
    /\ ids (statements w) `prefix_of` ids (statements w').
Proof.
  intros Hwf H.
  destruct (decide (takes_recursion_depth op = true)) as [Hop|Hop].
  - pose proof (engine_sound_all INSTANCE cluster fuel) as Hs.
    assert (Hem : emitted op
                    (effective_position
                       (Z.of_nat (length (statements w))) w) w v w').
    { destruct op; simpl in H; try discriminate.
      - by apply (sound_add_constructor _ _ _ Hs) in H.
      - by apply (sound_add_method _ _ _ Hs) in H.
      - by apply (sound_add_function _ _ _ Hs) in H.
      - by apply (sound_add_field _ _ _ Hs) in H. }
    rewrite effective_position_id in Hem by lia.
    destruct Hem as (st & w1 & owned & Hown & _ & Hid & Hv & Hem & Hst & _).
    destruct Hown as (_ & Hmono & (k & blk & Hk & Hids) & _).
    rewrite Nat2Z.id in Hst, Hids.
    rewrite ins_beyond in Hids by (unfold ids; rewrite length_map; lia).
    assert (Hlen : length (statements w1)
                   = (length (statements w) + k)%nat).
    { rewrite <- (length_map ret_id (statements w1)).
      fold (ids (statements w1)). rewrite Hids, length_app, Hk.
      unfold ids. by rewrite length_map. }
    rewrite ins_beyond in Hst by lia.
    exists st. rewrite Hst. split; [apply last_snoc|].
    split; [done|]. split; [done|]. split; [lia|].
    exists (blk ++ [ret_id st]). unfold ids in *.
    by rewrite map_app, Hids, <- app_assoc.
  - destruct op; try done. simpl in H.
    rewrite add_primitive_at_end in H. injection H as <- <-.
    eexists. simpl. split; [apply last_snoc|].
    split; [done|]. split; [done|]. split; [unfold ret_id; simpl; lia|].
    eexists. unfold ids. by rewrite map_app.
Qed.

(** X23: [append_statement] appends.  When it returns in a well-formed
    test case, the last statement of the test case is a new one made from
    the template (a call of the same constructor, method, function or
    field, or a copy of the same literal) whose return value was allocated
    during the call; the statements the operation inserted for callee and
    parameters stand between the old statements and that last one, and the
    old statements keep their positions.  This holds whether or not a none
    literal counts as a primitive statement. *)
Theorem append_statement_appends none_is_primitive INSTANCE cluster fuel
    statement allow_none w w' :
  wf_world w = true ->
  append_statement none_is_primitive INSTANCE cluster fuel statement
    allow_none w = (Returns tt, w') ->
  exists st,
    last (statements w') = Some st
    /\ made_from statement st
    /\ (next_id w <= ret_id st)%nat
    /\ ids (statements w) `prefix_of` ids (statements w').
Proof.
  intros Hwf H.
  assert (Hop : exists op v,
    run_add INSTANCE cluster fuel op (Z.of_nat (length (statements w))) 0
      allow_none w = (Returns v, w')
    /\ forall st, emitted_by op st -> made_from statement st).
  { unfold append_statement, made_from in *.
    destruct (kind statement) as [c|m callee|f|fld source|n|n|n|n|] eqn:Hk;
      try (destruct none_is_primitive; [|discriminate]);
      rewrite (bind_run _ _ _ _ _ (size_run w)) in H;
      apply bind_returns in H as (v & w1 & Hrun & Hret);
      injection Hret as <-.
    - by exists (AddConstructor c), v.
    - by exists (AddMethod m), v.
    - by exists (AddFunction f), v.
    - by exists (AddField fld), v.
    - exists (AddPrimitive statement), v. simpl. by rewrite Hk.
    - exists (AddPrimitive statement), v. simpl. by rewrite Hk.
    - exists (AddPrimitive statement), v. simpl. by rewrite Hk.
    - exists (AddPrimitive statement), v. simpl. by rewrite Hk.
    - exists (AddPrimitive statement), v. simpl. by rewrite Hk. }
  destruct Hop as (op & v & Hrun & Hmade).
  destruct (run_add_at_end _ _ _ _ _ _ _ _ _ Hwf Hrun)
    as (st & Hlast & Hem & _ & Hfresh & Hpre).
  exists st. split; [done|]. split; [by apply Hmade|]. by split.
Qed.

Lemma append_statement_appends_witness :
  let template :=
    mkStatement
      (MethodStatement Examples.Foo_m
         (mkVariableReference 7 (Concrete Examples.Foo) 0))
      (mkVariableReference 8 NoType 0)
      [mkVariableReference 9 (Concrete py_int) 0] in
  let w := Examples.one_int Examples.high in
  exists st,
    last (statements
            (snd (append_statement false Examples.config Examples.cluster
                    20 template false w))) = Some st
    /\ made_from template st.
Proof.
  intros template w.
  destruct (append_statement_appends false Examples.config Examples.cluster
              20 template false w
              (snd (append_statement false Examples.config Examples.cluster
                      20 template false w)))
    as (st & Hlast & Hmade & _).
  - reflexivity.
  - vm_compute. reflexivity.
  - exists st. by split.
Defined.

(** ** The fallback chain, outcome by outcome *)





